(** * MLB 2025 tracker (app.py): event logs, name resolution, news filter,
      publication-time formatting, teams, rosters and the sidebar tables

    A shallow embedding of the non-UI logic of [app.py]:
    - [fetch_mlb_news_rss], [is_valid_news] and the sidebar's
      de-duplication loop,
    - the [try]/[except] block that formats a news item's publication time,
    - [fetch_hr_log] / [fetch_k_log] with their inner [pid2name],
    - [get_team_info], [build_rosters], the name maps, the Ohtani entry and
      the division tables of the sidebar.

    Text is modelled by [string], whose characters are read as code points
    below 256.  Instants are whole seconds since 1970-01-01T00:00:00 as [Z].
    The external collaborators (pandas' string-to-timestamp parser, the tz
    database, the Statcast provider, the player directory, the roster
    service) are section variables.  The routine that orders the keys of
    [DataFrame.sort_values] is a section variable too, constrained by what
    [sort_values] asks of it; module [Npy] is the routine pandas runs for
    the default [kind]. *)

From Stdlib Require Import ZArith String Ascii List Bool Lia.
From stdpp Require Import base tactics option list sorting strings pretty gmap.

Open Scope Z_scope.

(** ** Exceptions *)

Module Py.

Inductive exn := TypeError | ValueError | KeyError | LookupFailure.

Inductive result (A : Type) :=
  | Ok (a : A)
  | Raise (e : exn).
Arguments Ok {A} a.
Arguments Raise {A} e.

Definition bind {A B} (r : result A) (k : A -> result B) : result B :=
  match r with
  | Ok a => k a
  | Raise e => Raise e
  end.

(** [try: body / except Exception: handler] *)
Definition try_except {A} (body : result A) (handler : A) : A :=
  match body with
  | Ok a => a
  | Raise _ => handler
  end.

End Py.

Notation "'do' x <- r ; k" := (Py.bind r (fun x => k))
  (at level 10, x name, r at level 100, k at level 200).

(** ** Python [str] operations *)

Module Str.

Definition code (c : ascii) : N := N_of_ascii c.

(** [str.lower] on one character: A-Z, and the upper-case letters of the
    Latin-1 block (U+00C0..U+00DE without the multiplication sign). *)
Definition lower_char (c : ascii) : ascii :=
  let n := code c in
  if ((65 <=? n) && (n <=? 90))%N then ascii_of_N (n + 32)
  else if ((192 <=? n) && (n <=? 222) && negb (n =? 215))%N then ascii_of_N (n + 32)
  else c.

Fixpoint lower (s : string) : string :=
  match s with
  | EmptyString => EmptyString
  | String c s' => String (lower_char c) (lower s')
  end.

(** [str.isspace] on one character. *)
Definition isspace (c : ascii) : bool :=
  let n := code c in
  (((9 <=? n) && (n <=? 13)) || ((28 <=? n) && (n <=? 32))
   || (n =? 133) || (n =? 160))%N.

Fixpoint lstrip (s : string) : string :=
  match s with
  | EmptyString => EmptyString
  | String c s' => if isspace c then lstrip s' else s
  end.

Fixpoint rstrip (s : string) : string :=
  match s with
  | EmptyString => EmptyString
  | String c s' =>
      match rstrip s' with
      | EmptyString => if isspace c then EmptyString else String c EmptyString
      | r => String c r
      end
  end.

Definition strip (s : string) : string := rstrip (lstrip s).

Fixpoint startswith (s kw : string) {struct kw} : bool :=
  match kw, s with
  | EmptyString, _ => true
  | String _ _, EmptyString => false
  | String k kw', String c s' => if ascii_dec k c then startswith s' kw' else false
  end.

(** [kw in s] *)
Fixpoint contains (kw s : string) : bool :=
  startswith s kw ||
  match s with
  | EmptyString => false
  | String _ s' => contains kw s'
  end.

(** [s[:n]] *)
Fixpoint take (n : nat) (s : string) : string :=
  match n, s with
  | S n', String c s' => String c (take n' s')
  | _, _ => EmptyString
  end.

(** Every character is white space (so also: the empty string). *)
Fixpoint blank (s : string) : Prop :=
  match s with
  | EmptyString => True
  | String c s' => isspace c = true /\ blank s'
  end.

(** [s.zfill(n)] for a string of digits *)
Definition zfill (n : nat) (s : string) : string :=
  String.string_of_list_ascii (List.repeat "0"%char (n - String.length s)) +:+ s.

End Str.

(** [any(p(x) for x in l)] *)
Definition any {A} (p : A -> bool) (l : list A) : bool := existsb p l.

(** ** Calendar arithmetic behind [datetime] values *)

Module Cal.

(** Days since 1970-01-01 of a civil date (proleptic Gregorian). *)
Definition days_from_civil (y m d : Z) : Z :=
  let y := if m <=? 2 then y - 1 else y in
  let era := y / 400 in
  let yoe := y - era * 400 in
  let doy := (153 * (if 2 <? m then m - 3 else m + 9) + 2) / 5 + d - 1 in
  let doe := yoe * 365 + yoe / 4 - yoe / 100 + doy in
  era * 146097 + doe - 719468.

Definition civil_from_days (z : Z) : Z * Z * Z :=
  let z := z + 719468 in
  let era := z / 146097 in
  let doe := z - era * 146097 in
  let yoe := (doe - doe / 1460 + doe / 36524 - doe / 146096) / 365 in
  let y := yoe + era * 400 in
  let doy := doe - (365 * yoe + yoe / 4 - yoe / 100) in
  let mp := (5 * doy + 2) / 153 in
  let d := doy - (153 * mp + 2) / 5 + 1 in
  let m := if mp <? 10 then mp + 3 else mp - 9 in
  (if m <=? 2 then y + 1 else y, m, d).

Definition day_seconds : Z := 86400.

(** [datetime(y, m, d)]: midnight of a civil date. *)
Definition datetime (y m d : Z) : Z := days_from_civil y m d * day_seconds.

(** [datetime(y, m, d, hh, mm, ss)] *)
Definition datetime_hms (y m d hh mm ss : Z) : Z :=
  datetime y m d + hh * 3600 + mm * 60 + ss.

Definition year (t : Z) : Z := fst (fst (civil_from_days (t / day_seconds))).
Definition month (t : Z) : Z := snd (fst (civil_from_days (t / day_seconds))).
Definition day (t : Z) : Z := snd (civil_from_days (t / day_seconds)).
Definition hour (t : Z) : Z := (t mod day_seconds) / 3600.
Definition minute (t : Z) : Z := (t mod 3600) / 60.

(** Day of week, 0 = Sunday. *)
Definition weekday (days : Z) : Z := (days + 4) mod 7.

Definition digits (w : nat) (n : Z) : string := Str.zfill w (pretty n).

(** [strftime('%m-%d')] *)
Definition strftime_md (t : Z) : string :=
  digits 2 (month t) +:+ "-" +:+ digits 2 (day t).

(** [strftime('%Y-%m-%d')] *)
Definition strftime_ymd (t : Z) : string :=
  digits 4 (year t) +:+ "-" +:+ digits 2 (month t) +:+ "-" +:+ digits 2 (day t).

(** [strftime('%Y-%m-%d %H:%M')] *)
Definition strftime_ymd_hm (t : Z) : string :=
  strftime_ymd t +:+ " " +:+ digits 2 (hour t) +:+ ":" +:+ digits 2 (minute t).

End Cal.

(** ** News: [is_valid_news] and the sidebar loop *)

(** One element of the list built by [fetch_mlb_news_rss]. *)
Record article := Article {
  title : string;
  link : string;
  summary : string;
  published : string
}.

Definition teaser_keywords : list string :=
  ["vote"; "voting"; "check back"; "countdown"; "announcement"].

Definition is_valid_news (a : article) : bool :=
  let content := Str.lower (title a +:+ " " +:+ summary a) in
  if any (fun kw => Str.contains kw content) teaser_keywords then false
  else if ((String.length (Str.strip (summary a)) =? 0)%nat
           && (String.length (Str.strip (title a)) =? 0)%nat)%bool then false
  else true.

(** The two accumulators of the sidebar loop. *)
Record news_state := NewsState {
  filtered : list article;
  seen : gset string
}.

Definition news_init : news_state := NewsState [] ∅.

(** One pass of the loop body for a valid article: the membership test with
    [append] and [add]. *)
Definition news_accept (a : article) (st : news_state) : news_state :=
  if decide (link a ∈ seen st) then st
  else NewsState (filtered st ++ [a]) ({[link a]} ∪ seen st).

(** [for a in news_list: ...], with [continue] and [break].  The second
    component is the part of [news_list] the loop never reached. *)
Fixpoint news_loop (limit : nat) (news_list : list article) (st : news_state)
  : news_state * list article :=
  match news_list with
  | [] => (st, [])
  | a :: rest =>
      if negb (is_valid_news a) then news_loop limit rest st
      else
        let st := news_accept a st in
        if (limit <=? length (filtered st))%nat then (st, rest)
        else news_loop limit rest st
  end.

(** The literal of [if len(filtered) >= 3]. *)
Definition news_limit : nat := 3.

Definition latest_news (news_list : list article) : list article :=
  filtered (fst (news_loop news_limit news_list news_init)).

Definition latest_news_unread (news_list : list article) : list article :=
  snd (news_loop news_limit news_list news_init).

(** Reference reading of the news filter: keep the valid articles, then the
    first article of every link, then the first [limit] of those. *)
Fixpoint first_by_link (l : list article) (seen : gset string) : list article :=
  match l with
  | [] => []
  | a :: l' =>
      if decide (link a ∈ seen) then first_by_link l' seen
      else a :: first_by_link l' ({[link a]} ∪ seen)
  end.

Definition filterAndDedupe (articles : list article) (limit : nat) : list article :=
  List.firstn limit (first_by_link (List.filter is_valid_news articles) ∅).

(** A feed of seven articles: a teaser, a repeated link, a blank entry. *)
Definition sample_feed : list article :=
  [ Article "Fan Vote: All-Star Game" "l0" "Cast your ballot" "";
    Article "Judge homers twice" "l1" "Yankees win" "";
    Article "Judge homers twice (update)" "l1" "Yankees win again" "";
    Article "  " "l2" " " "";
    Article "Ohtani strikes out ten" "l2" "Dodgers win" "";
    Article "Trade rumors" "l3" "Notes from around the league" "";
    Article "Injury report" "l4" "Who is out" "" ].

(** ** Publication time of a news item *)

Inductive tzinfo :=
  | UTC
  | FixedOffset (seconds : Z)
  | America_New_York.

(** A pandas [Timestamp]: not-a-time, a wall-clock reading without zone, or
    an instant with a zone. *)
Inductive Timestamp :=
  | NaT
  | Naive (wall : Z)
  | Aware (utc : Z) (tz : tzinfo).

Section TimeFormatter.

(** [pd.to_datetime] on one string. *)
Variable to_datetime : string -> Py.result Timestamp.

(** Offset from UTC, in seconds, that the tz database gives
    America/New_York at a UTC instant. *)
Variable New_York_utcoffset : Z -> Z.

Definition utcoffset (tz : tzinfo) (utc : Z) : Z :=
  match tz with
  | UTC => 0
  | FixedOffset o => o
  | America_New_York => New_York_utcoffset utc
  end.

(** [Timestamp.tz_localize('UTC')] *)
Definition tz_localize_UTC (t : Timestamp) : Py.result Timestamp :=
  match t with
  | NaT => Py.Ok NaT
  | Naive wall => Py.Ok (Aware wall UTC)
  | Aware _ _ => Py.Raise Py.TypeError
  end.

(** [Timestamp.tz_convert(tz)] *)
Definition tz_convert (tz : tzinfo) (t : Timestamp) : Py.result Timestamp :=
  match t with
  | NaT => Py.Ok NaT
  | Naive _ => Py.Raise Py.TypeError
  | Aware utc _ => Py.Ok (Aware utc tz)
  end.

(** The wall-clock reading a timestamp shows. *)
Definition wall_clock (t : Timestamp) : option Z :=
  match t with
  | NaT => None
  | Naive wall => Some wall
  | Aware utc tz => Some (utc + utcoffset tz utc)
  end.

(** [Timestamp.strftime("%Y-%m-%d %H:%M EDT")] *)
Definition strftime_EDT (t : Timestamp) : Py.result string :=
  match wall_clock t with
  | None => Py.Raise Py.ValueError
  | Some wall => Py.Ok (Cal.strftime_ymd_hm wall +:+ " EDT")
  end.

(** The [try] block of the news rendering loop: the three steps after
    parsing, and the whole block. *)
Definition pub_fmt_convert (t : Timestamp) : Py.result string :=
  do pub_dt_utc <- tz_localize_UTC t;
  do pub_dt_edt <- tz_convert America_New_York pub_dt_utc;
  strftime_EDT pub_dt_edt.

Definition pub_fmt_try (pub : string) : Py.result string :=
  do t <- to_datetime pub;
  pub_fmt_convert t.

(** The value bound to [pub_fmt]. *)
Definition pub_fmt (pub : string) : string :=
  Py.try_except (pub_fmt_try pub) (Str.take 16 pub).

End TimeFormatter.

(** *** Sample collaborators, used to run the formatter on concrete input *)

(** US Eastern under the rule in force since 2007: daylight time from the
    second Sunday of March, 02:00 EST, to the first Sunday of November,
    02:00 EDT. *)
Definition sunday_on_or_after (days : Z) : Z := days + (7 - Cal.weekday days) mod 7.

Definition us_dst_start (year : Z) : Z :=
  (sunday_on_or_after (Cal.days_from_civil year 3 1) + 7) * Cal.day_seconds + 7 * 3600.

Definition us_dst_end (year : Z) : Z :=
  sunday_on_or_after (Cal.days_from_civil year 11 1) * Cal.day_seconds + 6 * 3600.

Definition us_eastern_utcoffset (utc : Z) : Z :=
  let year := Cal.year utc in
  if (us_dst_start year <=? utc) && (utc <? us_dst_end year) then -4 * 3600
  else -5 * 3600.

Definition digit_of (c : ascii) : option Z :=
  let n := Z.of_N (N_of_ascii c) in
  if (48 <=? n) && (n <=? 57) then Some (n - 48) else None.

Fixpoint number_go (s : string) (acc : Z) : option Z :=
  match s with
  | EmptyString => Some acc
  | String c s' => dg ← digit_of c; number_go s' (10 * acc + dg)
  end.

Definition number (s : string) : option Z :=
  match s with
  | EmptyString => None
  | _ => number_go s 0
  end.

(** "2024-07-02 00:13:30": no zone, the result is naive. *)
Definition parse_iso (raw : string) : option Timestamp :=
  guard (String.length raw = 19%nat);;
  guard (substring 4 1 raw = "-" /\ substring 7 1 raw = "-"
         /\ substring 10 1 raw = " " /\ substring 13 1 raw = ":"
         /\ substring 16 1 raw = ":");;
  yy ← number (substring 0 4 raw);
  mo ← number (substring 5 2 raw);
  dd ← number (substring 8 2 raw);
  hh ← number (substring 11 2 raw);
  mi ← number (substring 14 2 raw);
  ss ← number (substring 17 2 raw);
  Some (Naive (Cal.datetime_hms yy mo dd hh mi ss)).

(** "2024-07-02T00:13:30+00:00": ISO 8601 with the offset from UTC written
    out; the result is zone-aware, the instant is the reading minus the
    offset. *)
Definition parse_iso_offset (raw : string) : option Timestamp :=
  guard (String.length raw = 25%nat);;
  guard (substring 4 1 raw = "-" /\ substring 7 1 raw = "-"
         /\ substring 10 1 raw = "T" /\ substring 13 1 raw = ":"
         /\ substring 16 1 raw = ":" /\ substring 22 1 raw = ":");;
  sign ← (if decide (substring 19 1 raw = "+") then Some 1
          else if decide (substring 19 1 raw = "-") then Some (-1)
          else None);
  yy ← number (substring 0 4 raw);
  mo ← number (substring 5 2 raw);
  dd ← number (substring 8 2 raw);
  hh ← number (substring 11 2 raw);
  mi ← number (substring 14 2 raw);
  ss ← number (substring 17 2 raw);
  oh ← number (substring 20 2 raw);
  om ← number (substring 23 2 raw);
  let offset := sign * (oh * 3600 + om * 60) in
  Some (Aware (Cal.datetime_hms yy mo dd hh mi ss - offset)
          (if offset =? 0 then UTC else FixedOffset offset)).

(** A stand-in for the parser on the two layouts above; the empty string
    gives [NaT].  Other texts are outside the stand-in, which raises on
    them; among them are dates that name their zone ("... GMT"), which
    pandas releases do not read alike. *)
Definition to_datetime_sample (raw : string) : Py.result Timestamp :=
  if decide (raw = "") then Py.Ok NaT
  else match parse_iso raw with
       | Some t => Py.Ok t
       | None =>
           match parse_iso_offset raw with
           | Some t => Py.Ok t
           | None => Py.Raise Py.ValueError
           end
       end.

(** ** Event logs: [fetch_hr_log] and [fetch_k_log] *)

(** MLB season settings *)
Definition TOKYO_START : Z := Cal.datetime 2025 3 18.
Definition TOKYO_2 : Z := Cal.datetime 2025 3 19.
Definition REGULAR_START : Z := Cal.datetime 2025 3 27.

(** Statcast's [game_date], 'YYYY-MM-DD'. *)
Record ymd := Ymd { yyyy : Z; mm : Z; dd : Z }.

(** [pd.to_datetime] on the [game_date] column: midnight of that day. *)
Definition to_datetime_ymd (g : ymd) : Z := Cal.datetime (yyyy g) (mm g) (dd g).

(** A person id as a cell of the [pitcher] or [batter] column hands it to
    [apply]: a Python [int] when the column is [int64], a [float] holding
    the same whole number when the column is [float64].  pandas gives an id
    column the dtype [float64] as soon as one of its cells is missing, and
    the column keeps its dtype through [loc], the event test and
    [sort_values]. *)
Inductive mlbam_id :=
  | IntId (n : Z)
  | FloatId (n : Z).

Definition id_number (p : mlbam_id) : Z :=
  match p with
  | IntId n => n
  | FloatId n => n
  end.

(** [str(p)]: the decimal digits of an int; for a float holding a whole
    number the digits followed by ".0" (ids are far below 10^16, where
    Python would switch to the exponent form). *)
Definition str_of_id (p : mlbam_id) : string :=
  match p with
  | IntId n => pretty n
  | FloatId n => pretty n +:+ ".0"
  end.

(** The cells an [int64] and a [float64] id column can hold, and a column
    of one dtype. *)
Definition int64_cell (c : option mlbam_id) : bool :=
  match c with
  | Some (IntId _) => true
  | _ => false
  end.

Definition float64_cell (c : option mlbam_id) : bool :=
  match c with
  | Some (IntId _) => false
  | _ => true
  end.

Definition id_column (col : list (option mlbam_id)) : bool :=
  forallb int64_cell col || forallb float64_cell col.

(** The columns of a Statcast row that the logs read.  [events] is NaN on
    pitches that do not end a plate appearance; a person id may be NaN. *)
Record statcast := Statcast {
  game_date : ymd;
  events : option string;
  home_team : string;
  away_team : string;
  pitcher : option mlbam_id;
  batter : option mlbam_id
}.

(** A data-frame row: its index label, the Statcast columns, and the columns
    the logs add.  [None] is a missing value (NaN, NaT), which is also how a
    column that was never assigned reads. *)
Record Row := mkRow {
  index : Z;
  ev : statcast;
  Date : option Z;
  HR_No : option Z;
  K_No : option Z;
  MM_DD : option string;
  Pitcher : option string;
  Batter : option string
}.

Abbreviation DataFrame := (list Row).

Definition set_index (v : Z) (r : Row) : Row :=
  mkRow v (ev r) (Date r) (HR_No r) (K_No r) (MM_DD r) (Pitcher r) (Batter r).
Definition set_Date (v : option Z) (r : Row) : Row :=
  mkRow (index r) (ev r) v (HR_No r) (K_No r) (MM_DD r) (Pitcher r) (Batter r).
Definition set_HR_No (v : option Z) (r : Row) : Row :=
  mkRow (index r) (ev r) (Date r) v (K_No r) (MM_DD r) (Pitcher r) (Batter r).
Definition set_K_No (v : option Z) (r : Row) : Row :=
  mkRow (index r) (ev r) (Date r) (HR_No r) v (MM_DD r) (Pitcher r) (Batter r).
Definition set_MM_DD (v : option string) (r : Row) : Row :=
  mkRow (index r) (ev r) (Date r) (HR_No r) (K_No r) v (Pitcher r) (Batter r).
Definition set_Pitcher (v : option string) (r : Row) : Row :=
  mkRow (index r) (ev r) (Date r) (HR_No r) (K_No r) (MM_DD r) v (Batter r).
Definition set_Batter (v : option string) (r : Row) : Row :=
  mkRow (index r) (ev r) (Date r) (HR_No r) (K_No r) (MM_DD r) (Pitcher r) v.

(** [df.empty] *)
Definition empty (df : DataFrame) : bool :=
  match df with
  | [] => true
  | _ => false
  end.

(** [col.isin(values)]; a missing value is in no list. *)
Definition isin (v : option Z) (values : list Z) : bool :=
  match v with
  | Some x => existsb (Z.eqb x) values
  | None => false
  end.

(** [col >= t]; false on a missing value. *)
Definition ge (v : option Z) (t : Z) : bool :=
  match v with
  | Some x => t <=? x
  | None => false
  end.

(** [col == s]; false on a missing value. *)
Definition eq_str (v : option string) (s : string) : bool :=
  match v with
  | Some x => bool_decide (x = s)
  | None => false
  end.

Definition tokyo_days : list Z := [TOKYO_START; TOKYO_2].

(** The row-wise value of [mask]. *)
Definition season_mask (team_abbr : string) (r : Row) : bool :=
  if bool_decide (team_abbr ∈ ["LAD"; "CHC"]) then
    isin (Date r) tokyo_days || ge (Date r) REGULAR_START
  else
    ge (Date r) REGULAR_START.

(** [df.loc[mask]], [df[cond]] *)
Definition loc (mask : Row -> bool) (df : DataFrame) : DataFrame :=
  List.filter mask df.

(** Deciding a property of a value that may be missing. *)
Global Instance from_option_dec {A} (P : A -> Prop) `{forall x, Decision (P x)}
    (o : option A) : Decision (from_option P False o) :=
  match o with
  | Some x => decide (P x)
  | None => right (fun H : False => H)
  end.

(** Positional selection, [take(indexer)]. *)
Definition take_items {A} (indexer : list nat) (l : list A) : list A :=
  omap (fun i => l !! i) indexer.

(** [reset_index(drop=True)] *)
Definition reset_index (df : DataFrame) : DataFrame :=
  imap (fun i r => set_index (Z.of_nat i) r) df.

(** Ascending order of a datetime column, missing values last. *)
Definition date_le (a b : option Z) : Prop :=
  match a, b with
  | Some x, Some y => x <= y
  | _, None => True
  | None, Some _ => False
  end.

(** What [sort_values] asks of the routine that orders the keys: it returns
    the positions [0 .. n-1] in some order, and the keys read in that order
    ascend.  The default [kind] promises nothing about equal keys. *)
Definition argsort_spec (argsort : list (option Z) -> list nat) : Prop :=
  forall keys,
    argsort keys ≡ₚ seq 0 (length keys)
    /\ Sorted date_le (take_items (argsort keys) keys).

(** A stable routine, in addition, lists positions with equal keys in
    increasing order. *)
Definition argsort_stable (argsort : list (option Z) -> list nat) : Prop :=
  forall keys,
    StronglySorted
      (fun i j => keys !! i = keys !! j -> (i < j)%nat)
      (argsort keys).

(** One row of the table [playerid_reverse_lookup] returns. *)
Record person := Person {
  name_first : option string;
  name_last : option string
}.

(** [a + b] on cells that should hold text. *)
Definition add_str (a b : option string) : Py.result string :=
  match a, b with
  | Some x, Some y => Py.Ok (x +:+ y)
  | _, _ => Py.Raise Py.TypeError
  end.

(** [column[0]] on the lookup table. *)
Definition first_cell (col : person -> option string) (t : list person)
  : Py.result (option string) :=
  match t with
  | [] => Py.Raise Py.KeyError
  | p :: _ => Py.Ok (col p)
  end.

Section EventLog.

(** The routine that orders the keys of [sort_values('Date')]. *)
Variable argsort : list (option Z) -> list nat.

(** [playerid_reverse_lookup([p], key_type='mlbam')] *)
Variable playerid_reverse_lookup : mlbam_id -> Py.result (list person).

(** [statcast_batter] and [statcast_pitcher], called with [start_dt],
    [end_dt] and [player_id]. *)
Variable statcast_batter : string -> string -> string -> DataFrame.
Variable statcast_pitcher : string -> string -> string -> DataFrame.

(** [df.sort_values('Date')] *)
Definition sort_values_Date (df : DataFrame) : DataFrame :=
  take_items (argsort (Date <$> df)) df.

Definition pid2name (p : mlbam_id) : string :=
  Py.try_except
    (do t <- playerid_reverse_lookup p;
     do first <- first_cell name_first t;
     do s <- add_str first (Some " ");
     do last <- first_cell name_last t;
     add_str (Some s) last)
    (str_of_id p).

(** [lambda x: pid2name(x) if pd.notna(x) else ''] *)
Definition counterparty_name (x : option mlbam_id) : string :=
  match x with
  | Some p => pid2name p
  | None => ""
  end.

(** The body of [fetch_hr_log] from [if df.empty] on. *)
Definition hr_log (df : DataFrame) (team_abbr : string) : DataFrame :=
  if empty df then df
  else
    let df := (fun r => set_Date (Some (to_datetime_ymd (game_date (ev r)))) r) <$> df in
    let df := loc (season_mask team_abbr) df in
    let df_hr :=
      reset_index
        (sort_values_Date
           (loc (fun r => eq_str (events (ev r)) "home_run") df)) in
    if empty df_hr then df_hr
    else
      let df_hr := (fun r => set_HR_No (Some (index r + 1)) r) <$> df_hr in
      let df_hr := (fun r => set_MM_DD (Cal.strftime_md <$> Date r) r) <$> df_hr in
      (fun r => set_Pitcher (Some (counterparty_name (pitcher (ev r)))) r) <$> df_hr.

Definition fetch_hr_log (pid : Z) (start end_ : Z) (team_abbr : string) : DataFrame :=
  hr_log
    (statcast_batter (Cal.strftime_ymd start) (Cal.strftime_ymd end_) (pretty pid))
    team_abbr.

(** The body of [fetch_k_log] from [if df.empty] on. *)
Definition k_log (df : DataFrame) (team_abbr : string) : DataFrame :=
  if empty df then df
  else
    let df := (fun r => set_Date (Some (to_datetime_ymd (game_date (ev r)))) r) <$> df in
    let df := loc (season_mask team_abbr) df in
    let df_k :=
      reset_index
        (sort_values_Date
           (loc (fun r => eq_str (events (ev r)) "strikeout") df)) in
    if empty df_k then df_k
    else
      let df_k := (fun r => set_K_No (Some (index r + 1)) r) <$> df_k in
      let df_k := (fun r => set_MM_DD (Cal.strftime_md <$> Date r) r) <$> df_k in
      (fun r => set_Batter (Some (counterparty_name (batter (ev r)))) r) <$> df_k.

Definition fetch_k_log (pid : Z) (start end_ : Z) (team_abbr : string) : DataFrame :=
  k_log
    (statcast_pitcher (Cal.strftime_ymd start) (Cal.strftime_ymd end_) (pretty pid))
    team_abbr.

End EventLog.

(** *** The stages of the two bodies, named

    [dated] is the frame after the [Date] assignment, [retained] the frame
    handed to [sort_values]: the rows that pass the season mask and the
    event test, in table order.  [hr_columns] and [k_columns] are what the
    remaining statements do to the row at position [i] of the sorted
    frame. *)

Definition dated (df : DataFrame) : DataFrame :=
  (fun r => set_Date (Some (to_datetime_ymd (game_date (ev r)))) r) <$> df.

Definition retained (target team_abbr : string) (df : DataFrame) : DataFrame :=
  loc (fun r => eq_str (events (ev r)) target) (loc (season_mask team_abbr) (dated df)).

Definition hr_columns (playerid_reverse_lookup : mlbam_id -> Py.result (list person))
    (i : nat) (r : Row) : Row :=
  let r := set_index (Z.of_nat i) r in
  let r := set_HR_No (Some (index r + 1)) r in
  let r := set_MM_DD (Cal.strftime_md <$> Date r) r in
  set_Pitcher (Some (counterparty_name playerid_reverse_lookup (pitcher (ev r)))) r.

Definition k_columns (playerid_reverse_lookup : mlbam_id -> Py.result (list person))
    (i : nat) (r : Row) : Row :=
  let r := set_index (Z.of_nat i) r in
  let r := set_K_No (Some (index r + 1)) r in
  let r := set_MM_DD (Cal.strftime_md <$> Date r) r in
  set_Batter (Some (counterparty_name playerid_reverse_lookup (batter (ev r)))) r.

(** A row as [retained] leaves it: [Date] set from [game_date], inside the
    season window, of the target event. *)
Definition kept (target team_abbr : string) (r : Row) : Prop :=
  Date r = Some (to_datetime_ymd (game_date (ev r)))
  /\ season_mask team_abbr r = true
  /\ eq_str (events (ev r)) target = true.

(** The events of one day, in the order a list has them. *)
Definition on_day (t : Z) (l : list statcast) : list statcast :=
  filter (fun e => to_datetime_ymd (game_date e) = t) l.

(** *** Sample collaborators for the logs *)

(** A directory that knows one player, returns a row without a first name
    for a second, an empty table for every other positive id, and fails on
    the rest; an id is found by its number, whether it comes as an int or
    as a float. *)
Definition lookup_sample (p : mlbam_id) : Py.result (list person) :=
  let n := id_number p in
  if n =? 684007 then Py.Ok [Person (Some "Shota") (Some "Imanaga")]
  else if n =? 1 then Py.Ok [Person None (Some "Doe")]
  else if 0 <? n then Py.Ok []
  else Py.Raise Py.LookupFailure.

Definition raw_row (g : ymd) (e : option string) (p b : option mlbam_id) : Row :=
  mkRow 0 (Statcast g e "LAD" "CHC" p b) None None None None None None.

(** A provider reply: five plate appearances of one player.  One pitcher
    id is missing, so the [pitcher] column is [float64]; the [batter]
    column is [int64]. *)
Definition sample_df : DataFrame :=
  [ raw_row (Ymd 2025 3 28) (Some "home_run") (Some (FloatId 684007))
      (Some (IntId 660271));
    raw_row (Ymd 2025 3 25) (Some "strikeout") (Some (FloatId 2))
      (Some (IntId 660271));
    raw_row (Ymd 2025 3 19) (Some "home_run") None (Some (IntId 660271));
    raw_row (Ymd 2025 3 19) None (Some (FloatId 3)) (Some (IntId 660271));
    raw_row (Ymd 2025 3 18) (Some "strikeout") (Some (FloatId 684007))
      (Some (IntId 660271)) ].

Definition sample_provider (start_dt end_dt player_id : string) : DataFrame :=
  sample_df.

(** Three home runs; the second has no pitcher id, so the ids of the
    [pitcher] column are floats. *)
Definition float_id_df : DataFrame :=
  [ raw_row (Ymd 2025 3 28) (Some "home_run") (Some (FloatId 2)) (Some (IntId 660271));
    raw_row (Ymd 2025 3 29) (Some "home_run") None (Some (IntId 660271));
    raw_row (Ymd 2025 3 30) (Some "home_run") (Some (FloatId 684007))
      (Some (IntId 660271)) ].

(** Two home runs of one day, off different pitchers. *)
Definition same_day_df : DataFrame :=
  [ raw_row (Ymd 2025 4 1) (Some "home_run") (Some (IntId 10)) (Some (IntId 660271));
    raw_row (Ymd 2025 4 1) (Some "home_run") (Some (IntId 20)) (Some (IntId 660271)) ].

(** *** Two sample sort routines *)

Definition date_leb (a b : option Z) : bool :=
  match a, b with
  | Some x, Some y => x <=? y
  | _, None => true
  | None, Some _ => false
  end.

Definition date_ltb (a b : option Z) : bool := negb (date_leb b a).

(** Insert a (position, key) pair in front of the first pair it goes
    [before]. *)
Fixpoint insert_key (before : option Z -> option Z -> bool)
    (x : nat * option Z) (l : list (nat * option Z)) : list (nat * option Z) :=
  match l with
  | [] => [x]
  | y :: l' => if before (snd x) (snd y) then x :: l else y :: insert_key before x l'
  end.

Definition argsort_by (before : option Z -> option Z -> bool)
    (keys : list (option Z)) : list nat :=
  fst <$> foldr (insert_key before) [] (zip (seq 0 (length keys)) keys).

(** Insertion sort that puts a key in front of its equals met so far: the
    pairs are inserted last to first, so equal keys keep their order. *)
Definition argsort_insertion : list (option Z) -> list nat := argsort_by date_leb.

(** The same with the strict comparison: a key goes behind its equals, so
    equal keys come out in reverse order.  The keys still ascend. *)
Definition argsort_ties_reversed : list (option Z) -> list nat := argsort_by date_ltb.

(** *** The sort behind [sort_values('Date')]

    With the default [kind], pandas' [nargsort] sets the missing keys
    aside, orders the positions of the other keys with NumPy's [argsort]
    of kind 'quicksort' and puts the positions of the missing keys last.
    On datetime keys NumPy's 'quicksort' is an introsort over the array
    [tosort] of positions: median-of-three quicksort on a range of more
    than 16 positions, insertion sort on a shorter range, heapsort on a
    range whose depth allowance is used up. *)

Module Npy.

Definition SMALL_QUICKSORT : nat := 16.

(** [npy_get_msb]: the index of the highest set bit. *)
Definition npy_get_msb (num : nat) : Z := Z.log2 (Z.of_nat num).

Section Keys.

(** The keys. *)
Variable v : list Z.

(** [v[*p]] for a position [p] of [tosort]. *)
Definition key_at (tosort : list nat) (p : nat) : Z := v !!! (tosort !!! p).

(** [INTP_SWAP] on the positions [i] and [j] of [tosort]. *)
Definition swap (i j : nat) (tosort : list nat) : list nat :=
  <[i := tosort !!! j]> (<[j := tosort !!! i]> tosort).

(** [do ++pi; while (v[*pi] < vp)], entered at [pi] already advanced. *)
Fixpoint scan_up (fuel : nat) (tosort : list nat) (vp : Z) (pi : nat) : nat :=
  match fuel with
  | O => pi
  | S fuel' =>
      if key_at tosort pi <? vp then scan_up fuel' tosort vp (S pi) else pi
  end.

(** [do --pj; while (vp < v[*pj])], entered at [pj] already moved. *)
Fixpoint scan_down (fuel : nat) (tosort : list nat) (vp : Z) (pj : nat) : nat :=
  match fuel with
  | O => pj
  | S fuel' =>
      if vp <? key_at tosort pj then scan_down fuel' tosort vp (pred pj) else pj
  end.

(** The [for (;;)] loop of the partition step; it returns [tosort] and
    the final [pi]. *)
Fixpoint partition_loop (fuel : nat) (tosort : list nat) (vp : Z) (pi pj : nat)
  : list nat * nat :=
  match fuel with
  | O => (tosort, pi)
  | S fuel' =>
      let pi := scan_up (length tosort) tosort vp (S pi) in
      let pj := scan_down (length tosort) tosort vp (pred pj) in
      if (pj <=? pi)%nat then (tosort, pi)
      else partition_loop fuel' (swap pi pj tosort) vp pi pj
  end.

(** One partition of the range [pl .. pr]: median of three, the pivot
    parked at [pr - 1], the two scans, the pivot put in place. *)
Definition partition (tosort : list nat) (pl pr : nat) : list nat * nat :=
  let pm := (pl + (pr - pl) / 2)%nat in
  let tosort :=
    if key_at tosort pm <? key_at tosort pl then swap pm pl tosort else tosort in
  let tosort :=
    if key_at tosort pr <? key_at tosort pm then swap pr pm tosort else tosort in
  let tosort :=
    if key_at tosort pm <? key_at tosort pl then swap pm pl tosort else tosort in
  let vp := key_at tosort pm in
  let pj := (pr - 1)%nat in
  let tosort := swap pm pj tosort in
  let '(tosort, pi) := partition_loop (length tosort) tosort vp pl pj in
  (swap pi (pr - 1)%nat tosort, pi).

(** The positions [pl .. pr] of [tosort], rewritten by [f]. *)
Definition on_range (pl pr : nat) (f : list nat -> list nat) (tosort : list nat)
  : list nat :=
  take pl tosort ++ f (take (S pr - pl) (drop pl tosort)) ++ drop (S pr) tosort.

(** Insertion sort.  [sorted_rev] is the part already in order, last
    position first; [vi] moves down past the positions whose key is
    greater than its own. *)
Fixpoint insert_down (vi : nat) (sorted_rev : list nat) : list nat :=
  match sorted_rev with
  | [] => [vi]
  | pk :: rest =>
      if v !!! vi <? v !!! pk then pk :: insert_down vi rest
      else vi :: sorted_rev
  end.

Definition insertion_sort (range : list nat) : list nat :=
  reverse (foldl (fun sorted_rev vi => insert_down vi sorted_rev) [] range).

(** [aheapsort]; [a] is the range read from 1. *)
Definition a_get (a : list nat) (k : nat) : nat := a !!! (k - 1)%nat.
Definition a_set (a : list nat) (k : nat) (x : nat) : list nat :=
  <[(k - 1)%nat := x]> a.

(** The inner [for (i = .., j = ..; j <= n;)] loop with its final
    [a[i] = tmp]. *)
Fixpoint sift (fuel : nat) (a : list nat) (tmp : nat) (i j n : nat) : list nat :=
  match fuel with
  | O => a_set a i tmp
  | S fuel' =>
      if (j <=? n)%nat then
        let j :=
          if (j <? n)%nat && (v !!! a_get a j <? v !!! a_get a (j + 1))
          then (j + 1)%nat else j in
        if v !!! tmp <? v !!! a_get a j
        then sift fuel' (a_set a i (a_get a j)) tmp j (j + j)%nat n
        else a_set a i tmp
      else a_set a i tmp
  end.

(** [for (l = n >> 1; l > 0; --l)] *)
Fixpoint build_heap (l : nat) (a : list nat) (n : nat) : list nat :=
  match l with
  | O => a
  | S l' => build_heap l' (sift n a (a_get a l) l (l + l)%nat n) n
  end.

(** [for (; n > 1;)] *)
Fixpoint sort_heap (n : nat) (a : list nat) : list nat :=
  match n with
  | O => a
  | S n' =>
      if (1 <? n)%nat then
        let tmp := a_get a n in
        let a := a_set a n (a_get a 1) in
        sort_heap n' (sift n a tmp 1 2 n')
      else a
  end.

Definition aheapsort (range : list nat) : list nat :=
  let n := length range in
  sort_heap n (build_heap (n / 2) range n).

(** The outer [while (1)] loop of [aquicksort] with its stack of pending
    ranges; [at_top] tells the head of the outer loop, where the depth
    allowance is tested, from the inner [while] that partitions. *)
Fixpoint run (fuel : nat) (at_top : bool) (tosort : list nat) (pl pr : nat)
    (cdepth : Z) (stack : list (nat * nat * Z)) : list nat :=
  match fuel with
  | O => tosort
  | S fuel' =>
      if at_top && (cdepth <? 0) then
        let tosort := on_range pl pr aheapsort tosort in
        match stack with
        | [] => tosort
        | (pl', pr', cdepth') :: stack' => run fuel' true tosort pl' pr' cdepth' stack'
        end
      else if (SMALL_QUICKSORT <? S pr - pl)%nat then
        let '(tosort, pi) := partition tosort pl pr in
        let cdepth := cdepth - 1 in
        if (pi - pl <? pr - pi)%nat then
          run fuel' false tosort pl (pi - 1)%nat cdepth
            ((S pi, pr, cdepth) :: stack)
        else
          run fuel' false tosort (S pi) pr cdepth
            ((pl, (pi - 1)%nat, cdepth) :: stack)
      else
        let tosort := on_range pl pr insertion_sort tosort in
        match stack with
        | [] => tosort
        | (pl', pr', cdepth') :: stack' => run fuel' true tosort pl' pr' cdepth' stack'
        end
  end.

(** [argsort(kind='quicksort')] on [v]: [tosort] starts as [0 .. num-1]. *)
Definition aquicksort : list nat :=
  let num := length v in
  match num with
  | O => []
  | S _ => run (2 * num) true (seq 0 num) 0 (num - 1)%nat (2 * npy_get_msb num) []
  end.

End Keys.

(** The positions of the keys that are present, and of those missing. *)
Definition positions_where (p : option Z -> bool) (keys : list (option Z))
  : list nat :=
  fst <$> List.filter (fun ik => p (snd ik)) (zip (seq 0 (length keys)) keys).

(** [nargsort(items, kind='quicksort', ascending=True, na_position='last')] *)
Definition nargsort (keys : list (option Z)) : list nat :=
  let non_nan_idx := positions_where (fun k => bool_decide (is_Some k)) keys in
  let nan_idx := positions_where (fun k => bool_decide (k = None)) keys in
  let non_nans := omap id keys in
  ((fun i => non_nan_idx !!! i) <$> aquicksort non_nans) ++ nan_idx.

End Npy.

(** [n] home runs of one day, off the pitchers 1, 2, ..., n in this
    order. *)
Definition same_day_rows (n : nat) : DataFrame :=
  (fun k => raw_row (Ymd 2025 4 1) (Some "home_run") (Some (IntId (Z.of_nat k)))
              (Some (IntId 660271)))
    <$> seq 1 n.

(** The pitcher ids of a frame, top to bottom. *)
Definition pitcher_ids (df : DataFrame) : list (option Z) :=
  (fun r => id_number <$> pitcher (ev r)) <$> df.


(** * The rest of the script *)

(** ** Feed entries: [fetch_mlb_news_rss] *)

(** One entry of the parsed feed; a field the feed does not carry is
    [None]. *)
Record feed_entry := FeedEntry {
  entry_title : option string;
  entry_link : option string;
  entry_summary : option string;
  entry_published : option string
}.

(** Reading an attribute the entry does not have. *)
Inductive attribute_error := AttributeError (name : string).

(** The dictionary built for one entry: [entry.title] and [entry.link] are
    read unguarded, the other two behind ['summary' in entry] and
    ['published' in entry]. *)
Definition entry_article (e : feed_entry) : attribute_error + article :=
  match entry_title e with
  | None => inl (AttributeError "title")
  | Some t =>
      match entry_link e with
      | None => inl (AttributeError "link")
      | Some l =>
          inr (Article t l
                 (match entry_summary e with Some s => s | None => "" end)
                 (match entry_published e with Some p => p | None => "" end))
      end
  end.

(** [for entry in feed.entries: articles.append({...})] *)
Fixpoint rss_loop (entries : list feed_entry) (articles : list article)
  : attribute_error + list article :=
  match entries with
  | [] => inr articles
  | e :: rest =>
      match entry_article e with
      | inl err => inl err
      | inr a => rss_loop rest (articles ++ [a])
      end
  end.

Definition fetch_mlb_news_rss (entries : list feed_entry)
  : attribute_error + list article :=
  rss_loop entries [].

(** ** The line under a news title *)

(** [f"<span ...>{pub_fmt}</span>" if pub_fmt else ""] *)
Definition date_line (pub_fmt : string) : string :=
  match pub_fmt with
  | EmptyString => ""
  | _ => "<span style='font-size:10px;color:#666;'>" +:+ pub_fmt +:+ "</span>"
  end.

(** The markdown of one news item. *)
Definition news_markdown (news : article) (pub_fmt : string) : string :=
  "- [**" +:+ title news +:+ "**](" +:+ link news +:+ ")  " +:+ date_line pub_fmt.

(** ** Teams: [get_team_info] and the lists derived from it *)

(** One element of the ['teams'] reply. *)
Record team_raw := TeamRaw {
  raw_active : bool;
  raw_abbreviation : string;
  raw_id : Z;
  raw_name : string;
  raw_teamName : option string;
  raw_division_name : string
}.

(** One value of [team_info]. *)
Record team := Team {
  team_id : Z;
  team_name : string;
  team_logo : string;
  team_slug : string;
  team_division : string
}.

(** [s.replace(old, new)] for one-character [old] and [new]. *)
Fixpoint replace_char (old new : ascii) (s : string) : string :=
  match s with
  | EmptyString => EmptyString
  | String c s' =>
      String (if ascii_dec c old then new else c) (replace_char old new s')
  end.

(** [t.get('teamName', '').lower().replace(' ', '-')] *)
Definition slug_of (teamName : option string) : string :=
  replace_char " " "-"
    (Str.lower (match teamName with Some s => s | None => "" end)).

Definition team_of_raw (t : team_raw) : team :=
  Team (raw_id t) (raw_name t)
    ("https://www.mlbstatic.com/team-logos/" +:+ pretty (raw_id t) +:+ ".svg")
    (slug_of (raw_teamName t))
    (raw_division_name t).

(** The loop body of [get_team_info]. *)
Definition team_info_step (team_info : gmap string team) (t : team_raw)
  : gmap string team :=
  if raw_active t then <[raw_abbreviation t := team_of_raw t]> team_info
  else team_info.

Definition get_team_info (teams_raw : list team_raw) : gmap string team :=
  foldl team_info_step ∅ teams_raw.

(** [sorted(team_info.keys())] *)
Definition team_abbrs (team_info : gmap string team) : list string :=
  merge_sort String.le (map_to_list team_info).*1.

(** [[team_info[a]['name'] for a in team_abbrs]] *)
Definition team_names (team_info : gmap string team) : list string :=
  omap (fun a => team_name <$> team_info !! a) (team_abbrs team_info).

(** [{team_info[a]['name']: a for a in team_abbrs}] *)
Definition abbr_by_name_step (team_info : gmap string team)
    (acc : gmap string string) (a : string) : gmap string string :=
  match team_info !! a with
  | Some t => <[team_name t := a]> acc
  | None => acc
  end.

Definition abbr_by_name (team_info : gmap string team) : gmap string string :=
  foldl (abbr_by_name_step team_info) ∅ (team_abbrs team_info).

(** ** Players: [build_rosters], the two maps and the Ohtani entry *)

(** One element of a ['roster'] reply, with the three values the loop
    reads through [.get]. *)
Record roster_player := RosterPlayer {
  fullName : option string;
  person_id : option Z;
  position_abbreviation : option string
}.

(** [(name, pid, team)] *)
Record player := Player {
  player_name : string;
  player_pid : Z;
  player_team : string
}.

(** The condition [name and pid] with the values it lets through, and
    [pos == "P"]. *)
Definition named_player (abbr : string) (p : roster_player) : option player :=
  match fullName p, person_id p with
  | Some (String c n), Some pid =>
      if pid =? 0 then None else Some (Player (String c n) pid abbr)
  | _, _ => None
  end.

Definition is_pitcher (p : roster_player) : bool :=
  bool_decide (match position_abbreviation p with Some s => s | None => "" end = "P").

(** The body of the inner loop; [acc] is [(batters, pitchers)]. *)
Definition roster_step (abbr : string) (acc : list player * list player)
    (p : roster_player) : list player * list player :=
  match named_player abbr p with
  | Some x =>
      if is_pitcher p then (acc.1, acc.2 ++ [x]) else (acc.1 ++ [x], acc.2)
  | None => acc
  end.

Section Rosters.

(** [statsapi.get('team_roster', ...)] with [.get('roster', [])] applied. *)
Variable team_roster : Z -> list roster_player.

Definition build_rosters (teams_raw : list team_raw) : list player * list player :=
  let active_teams := List.filter raw_active teams_raw in
  foldl
    (fun acc t => foldl (roster_step (raw_abbreviation t)) acc (team_roster (raw_id t)))
    ([], []) active_teams.

End Rosters.

(** [{name: (pid, team) for name, pid, team in players}] *)
Definition name_map (players : list player) : gmap string (Z * string) :=
  foldl (fun m p => <[player_name p := (player_pid p, player_team p)]> m) ∅ players.

Definition OTANI_NAME : string := "Shohei Ohtani".
Definition OTANI_ID : Z := 660271.
Definition OTANI_TEAM : string := "LAD".

(** [if OTANI_NAME not in pitcher_map: ...] on [(pitchers, pitcher_map)]. *)
Definition add_ohtani (st : list player * gmap string (Z * string))
  : list player * gmap string (Z * string) :=
  match st.2 !! OTANI_NAME with
  | Some _ => st
  | None =>
      (Player OTANI_NAME OTANI_ID OTANI_TEAM :: st.1,
       <[OTANI_NAME := (OTANI_ID, OTANI_TEAM)]> st.2)
  end.

(** [[n for n, _, t in players if t == team_abbr]] *)
Definition team_players (players : list player) (team_abbr : string) : list string :=
  player_name <$> List.filter (fun p => bool_decide (player_team p = team_abbr)) players.

(** The options of the first pitcher box. *)
Definition team1_pitchers (pitchers : list player) (team1_abbr : string) : list string :=
  let l := team_players pitchers team1_abbr in
  if bool_decide (OTANI_NAME ∉ l) && bool_decide (team1_abbr = OTANI_TEAM)
  then OTANI_NAME :: l
  else l.

(** [get_player_image] *)
Definition get_player_image (pid : Z) : string :=
  "https://img.mlbstatic.com/mlb-photos/image/upload/"
  +:+ "w_180,q_100/v1/people/" +:+ pretty pid +:+ "/headshot/67/current.png".


(** ** The sidebar's team links *)

(** The double-quote character, for the HTML attributes. *)
Definition dq : string := String (ascii_of_N 34) EmptyString.

Definition leagues : list string := ["American League"; "National League"].
Definition divisions : list string := ["East"; "Central"; "West"].

(** [division_map] as the script starts it: six empty lists. *)
Definition division_map_init : gmap (string * string) (list string) :=
  list_to_map
    [ (("American League", "East"), []); (("American League", "Central"), []);
      (("American League", "West"), []); (("National League", "East"), []);
      (("National League", "Central"), []); (("National League", "West"), []) ].

Definition division_name_map : gmap string (string * string) :=
  list_to_map
    [ ("American League East", ("American League", "East"));
      ("American League Central", ("American League", "Central"));
      ("American League West", ("American League", "West"));
      ("National League East", ("National League", "East"));
      ("National League Central", ("National League", "Central"));
      ("National League West", ("National League", "West")) ].

(** The [<a ...><img ...>abbr</a>] text of one team. *)
Definition team_link (abbr : string) (info : team) : string :=
  let url := "https://www.mlb.com/" +:+ team_slug info in
  "<a href=" +:+ dq +:+ url +:+ dq +:+ " target=" +:+ dq +:+ "_blank" +:+ dq +:+ ">"
  +:+ "<img src=" +:+ dq +:+ team_logo info +:+ dq +:+ " width=" +:+ dq +:+ "22" +:+ dq
  +:+ " style=" +:+ dq +:+ "vertical-align:middle;margin-right:4px;" +:+ dq +:+ ">"
  +:+ abbr +:+ "</a>".

(** [for abbr in team_abbrs: ...]; the two subscripts that can fail are
    [team_info[abbr]] and [division_name_map[div_full]]. *)
Fixpoint division_loop (team_info : gmap string team) (abbrs : list string)
    (division_map : gmap (string * string) (list string))
  : Py.result (gmap (string * string) (list string)) :=
  match abbrs with
  | [] => Py.Ok division_map
  | abbr :: rest =>
      match team_info !! abbr with
      | None => Py.Raise Py.KeyError
      | Some info =>
          match division_name_map !! team_division info with
          | None => Py.Raise Py.KeyError
          | Some key =>
              division_loop team_info rest
                (alter (fun entries => entries ++ [team_link abbr info]) key
                   division_map)
          end
      end
  end.

Definition fill_division_map (team_info : gmap string team)
  : Py.result (gmap (string * string) (list string)) :=
  division_loop team_info (team_abbrs team_info) division_map_init.

(** [range(0, stop, step)] for a positive [step]. *)
Definition range_step (stop step : nat) : list nat :=
  (fun k => k * step)%nat <$> seq 0 ((stop + step - 1) / step).

(** [l[i:j]] *)
Definition slice {A} (i j : nat) (l : list A) : list A := take (j - i) (drop i l).

Definition col_count : nat := 6.

(** [rows] of [render_division_block_sidebar]. *)
Definition grid_rows (entries : list string) : list (list string) :=
  (fun i => slice i (i + col_count) entries) <$> range_step (length entries) col_count.

(** [''.join(...)] *)
Definition join (l : list string) : string := foldr String.append "" l.

(** [table_html] of [render_division_block_sidebar]. *)
Definition table_html (entries : list string) : string :=
  foldl
    (fun html row =>
       html +:+ "<tr style=" +:+ dq +:+ "border:none;" +:+ dq +:+ ">"
       +:+ join ((fun cell =>
                    "<td style=" +:+ dq
                    +:+ "padding:2px 8px;border:none;background:transparent;"
                    +:+ dq +:+ ">" +:+ cell +:+ "</td>") <$> row)
       +:+ "</tr>")
    ("<table style=" +:+ dq +:+ "border-collapse:collapse;border:none;" +:+ dq +:+ ">")
    (grid_rows entries)
  +:+ "</table>".

(** The blocks the two nested loops render: league, division and links of
    every division whose list is not empty. *)
Definition rendered_blocks (division_map : gmap (string * string) (list string))
  : list (string * string * list string) :=
  league ← leagues;
  division ← divisions;
  match division_map !! (league, division) with
  | Some (e :: entries) => [(league, division, e :: entries)]
  | _ => []
  end.


(** ** Calendar dates, for statements about the date texts *)

Definition is_leap (y : Z) : bool :=
  ((y mod 4 =? 0) && negb (y mod 100 =? 0)) || (y mod 400 =? 0).

Definition days_in_month (y m : Z) : Z :=
  if m =? 2 then (if is_leap y then 29 else 28)
  else if (m =? 4) || (m =? 6) || (m =? 9) || (m =? 11) then 30
  else 31.

(** A day of the calendar in the years 2015 to 2040 (Statcast starts in
    2015). *)
Definition statcast_day (g : ymd) : Prop :=
  2015 <= yyyy g <= 2040 /\ 1 <= mm g <= 12
  /\ 1 <= dd g <= days_in_month (yyyy g) (mm g).

(** 'YYYY-MM-DD' and 'MM-DD' written from the three numbers. *)
Definition iso_text (g : ymd) : string :=
  Cal.digits 4 (yyyy g) +:+ "-" +:+ Cal.digits 2 (mm g) +:+ "-" +:+ Cal.digits 2 (dd g).

Definition md_text (g : ymd) : string :=
  Cal.digits 2 (mm g) +:+ "-" +:+ Cal.digits 2 (dd g).

(** The two [strftime] calls agree with these texts on one day, and on all
    days of the range. *)
Definition day_texts_ok (g : ymd) : bool :=
  bool_decide (Cal.strftime_md (to_datetime_ymd g) = md_text g)
  && bool_decide (Cal.strftime_ymd (to_datetime_ymd g) = iso_text g).

Definition all_day_texts_ok : bool :=
  forallb
    (fun y =>
       forallb
         (fun m =>
            forallb (fun d => day_texts_ok (Ymd y m d)) (seqZ 1 (days_in_month y m)))
         (seqZ 1 12))
    (seqZ 2015 26).

(** The season window as a condition on an event, and the events a log
    keeps. *)
Definition in_season (team_abbr : string) (e : statcast) : Prop :=
  REGULAR_START <= to_datetime_ymd (game_date e)
  \/ (team_abbr ∈ ["LAD"; "CHC"]
      /\ (to_datetime_ymd (game_date e) = TOKYO_START
          \/ to_datetime_ymd (game_date e) = TOKYO_2)).

Global Instance in_season_dec team_abbr e : Decision (in_season team_abbr e).
Proof. unfold in_season. apply _. Defined.


(** ** Sample teams and rosters *)

Definition sample_teams : list team_raw :=
  [ TeamRaw true "LAD" 119 "Los Angeles Dodgers" (Some "Dodgers")
      "National League West";
    TeamRaw true "BOS" 111 "Boston Red Sox" (Some "Red Sox")
      "American League East";
    TeamRaw false "MON" 120 "Montreal Expos" (Some "Expos")
      "National League East";
    TeamRaw true "CHC" 112 "Chicago Cubs" (Some "Cubs")
      "National League Central" ].

Definition sample_roster (teamId : Z) : list roster_player :=
  if teamId =? 119 then
    [ RosterPlayer (Some "Shohei Ohtani") (Some 660271) (Some "DH");
      RosterPlayer (Some "Yoshinobu Yamamoto") (Some 808967) (Some "P");
      RosterPlayer None (Some 1) (Some "P") ]
  else if teamId =? 112 then
    [ RosterPlayer (Some "Shota Imanaga") (Some 684007) (Some "P");
      RosterPlayer (Some "Seiya Suzuki") (Some 673548) (Some "RF") ]
  else [].


(** What one roster entry adds to [batters] and to [pitchers]. *)
Definition batter_of (abbr : string) (p : roster_player) : option player :=
  if is_pitcher p then None else named_player abbr p.

Definition pitcher_of (abbr : string) (p : roster_player) : option player :=
  if is_pitcher p then named_player abbr p else None.

(** [(pid, team)], the value a player gets in [batter_map] or [pitcher_map]. *)
Definition pid_team (p : player) : Z * string := (player_pid p, player_team p).


(** The six (league, division) pairs in the order the sidebar walks them,
    the link the loop adds under a pair for one team, and the links of a
    pair. *)
Definition division_keys : list (string * string) :=
  league ← leagues; division ← divisions; [(league, division)].

Definition division_entry (team_info : gmap string team)
    (key : string * string) (abbr : string) : option string :=
  info ← team_info !! abbr;
  if decide (team_division info = key.1 +:+ " " +:+ key.2)
  then Some (team_link abbr info) else None.

Definition division_links (team_info : gmap string team)
    (key : string * string) : list string :=
  omap (division_entry team_info key) (team_abbrs team_info).


Example days_from_civil_epoch : Cal.days_from_civil 1970 1 1 = 0.
Proof. reflexivity. Qed.

Example days_from_civil_tokyo : Cal.days_from_civil 2025 3 18 = 20165.
Proof. reflexivity. Qed.

Example civil_from_days_tokyo : Cal.civil_from_days 20165 = (2025, 3, 18).
Proof. reflexivity. Qed.

Example strftime_sample :
  Cal.strftime_ymd_hm (Cal.datetime_hms 2024 7 1 20 13 30) = "2024-07-01 20:13".
Proof. vm_compute. reflexivity. Qed.

Example us_eastern_summer :
  us_eastern_utcoffset (Cal.datetime_hms 2024 7 2 0 13 30) = -14400.
Proof. reflexivity. Qed.

Example us_eastern_winter :
  us_eastern_utcoffset (Cal.datetime_hms 2025 1 15 12 0 0) = -18000.
Proof. reflexivity. Qed.

Example us_dst_2024 :
  us_dst_start 2024 = Cal.datetime_hms 2024 3 10 7 0 0
  /\ us_dst_end 2024 = Cal.datetime_hms 2024 11 3 6 0 0.
Proof. split; reflexivity. Qed.

Example to_datetime_sample_offset :
  to_datetime_sample "2024-07-02T00:13:30+00:00"
  = Py.Ok (Aware (Cal.datetime_hms 2024 7 2 0 13 30) UTC)
  /\ to_datetime_sample "2024-07-01T20:13:30-04:00"
     = Py.Ok (Aware (Cal.datetime_hms 2024 7 2 0 13 30) (FixedOffset (-14400))).
Proof. split; vm_compute; reflexivity. Qed.

Example to_datetime_sample_iso :
  to_datetime_sample "2024-07-02 00:13:30"
  = Py.Ok (Naive (Cal.datetime_hms 2024 7 2 0 13 30)).
Proof. vm_compute. reflexivity. Qed.

Example pub_fmt_sample_iso :
  pub_fmt to_datetime_sample us_eastern_utcoffset "2024-07-02 00:13:30"
  = "2024-07-01 20:13 EDT".
Proof. vm_compute. reflexivity. Qed.

Example pub_fmt_sample_offset :
  pub_fmt to_datetime_sample us_eastern_utcoffset "2024-07-02T00:13:30+00:00"
  = "2024-07-02T00:13".
Proof. vm_compute. reflexivity. Qed.

(** * Properties *)

(** ** Text *)

Section StrFacts.

Lemma app_cons c s t : String c s +:+ t = String c (s +:+ t).
Proof. reflexivity. Qed.

Lemma str_app_assoc s1 s2 s3 : (s1 +:+ s2) +:+ s3 = s1 +:+ s2 +:+ s3.
Proof.
  induction s1 as [|c s1 IH]; [done|].
  by rewrite !app_cons, IH.
Qed.

Lemma startswith_spec s kw :
  Str.startswith s kw = true <-> exists post, s = kw +:+ post.
Proof.
  revert s; induction kw as [|k kw IH]; intros s; simpl.
  - split; [intros _; by exists s | done].
  - destruct s as [|c s]; simpl.
    + split; [discriminate | intros [post H]; discriminate].
    + destruct (ascii_dec k c) as [->|Hne].
      * rewrite IH. split; intros [post H]; exists post.
        -- by rewrite H.
        -- by injection H.
      * split; [discriminate | intros [post H]; injection H; congruence].
Qed.

Lemma contains_spec kw s :
  Str.contains kw s = true <-> exists pre post, s = pre +:+ kw +:+ post.
Proof.
  induction s as [|c s IH]; simpl.
  - rewrite orb_false_r, startswith_spec. split.
    + intros [post H]. by exists "", post.
    + intros (pre & post & H). destruct pre; [by exists post | discriminate].
  - rewrite orb_true_iff, startswith_spec, IH. split.
    + intros [[post H] | (pre & post & H)].
      * by exists "", post.
      * exists (String c pre), post. simpl. by rewrite H.
    + intros (pre & post & H). destruct pre as [|c' pre]; simpl in H.
      * left; eauto.
      * right. injection H as -> H. eauto.
Qed.

Lemma contains_app_l kw s1 s2 :
  Str.contains kw s1 = true -> Str.contains kw (s1 +:+ s2) = true.
Proof.
  rewrite !contains_spec. intros (pre & post & ->).
  exists pre, (post +:+ s2).
  by rewrite !str_app_assoc.
Qed.

Lemma lower_app s1 s2 : Str.lower (s1 +:+ s2) = Str.lower s1 +:+ Str.lower s2.
Proof.
  induction s1 as [|c s1 IH]; [done|].
  rewrite app_cons. simpl. by rewrite IH.
Qed.

Lemma rstrip_empty s : Str.rstrip s = "" <-> Str.blank s.
Proof.
  induction s as [|c s IH]; simpl; [done|].
  destruct (Str.rstrip s) eqn:E.
  - destruct (Str.isspace c); split; try done.
    + intros _. split; [done | by apply IH].
    + by intros [? _].
  - split; [done|]. intros [_ Hb]. apply IH in Hb. discriminate.
Qed.

Lemma lstrip_blank s : Str.blank (Str.lstrip s) <-> Str.blank s.
Proof.
  induction s as [|c s IH]; simpl; [done|].
  destruct (Str.isspace c) eqn:E; simpl; rewrite ?E; [|done].
  rewrite IH. tauto.
Qed.

Lemma strip_empty s : Str.strip s = "" <-> Str.blank s.
Proof. unfold Str.strip. by rewrite rstrip_empty, lstrip_blank. Qed.

Lemma length_strip_0 s :
  (String.length (Str.strip s) =? 0)%nat = true <-> Str.blank s.
Proof.
  rewrite <- strip_empty, Nat.eqb_eq.
  destruct (Str.strip s); simpl; split; (done || lia).
Qed.

End StrFacts.

(** ** News *)

Section NewsFacts.

Lemma is_valid_news_false a :
  is_valid_news a = false <->
    (exists kw, kw ∈ teaser_keywords
       /\ Str.contains kw (Str.lower (title a +:+ " " +:+ summary a)) = true)
    \/ (Str.blank (title a) /\ Str.blank (summary a)).
Proof.
  unfold is_valid_news, any.
  destruct (existsb _ teaser_keywords) eqn:Ekw.
  - split; [intros _ | done]. left.
    apply existsb_exists in Ekw as (kw & Hin & Hc).
    exists kw. by rewrite list_elem_of_In.
  - destruct (andb _ _) eqn:Eblank.
    + split; [intros _ | done]. right.
      apply andb_true_iff in Eblank as [Hs Ht].
      by rewrite <- !length_strip_0.
    + split; [done|]. intros [(kw & Hin & Hc) | [Ht Hs]].
      * assert (existsb
          (fun kw => Str.contains kw (Str.lower (title a +:+ " " +:+ summary a)))
          teaser_keywords = true) as Hex.
        { apply existsb_exists. exists kw. by rewrite <- list_elem_of_In. }
        congruence.
      * apply length_strip_0 in Ht, Hs. rewrite Ht, Hs in Eblank. discriminate.
Qed.

Lemma first_by_link_fresh l seen a :
  a ∈ first_by_link l seen -> link a ∉ seen.
Proof.
  revert seen; induction l as [|x l IH]; intros seen; simpl.
  - by intros ?%elem_of_nil.
  - case_decide as Hx.
    + apply IH.
    + intros [->|Hin]%elem_of_cons; [done|].
      apply IH in Hin. set_solver.
Qed.

Lemma first_by_link_NoDup l seen : NoDup (link <$> first_by_link l seen).
Proof.
  revert seen; induction l as [|x l IH]; intros seen; simpl.
  - constructor.
  - case_decide as Hx; [apply IH|].
    csimpl. constructor; [|apply IH].
    intros (b & Hb & Hin)%list_elem_of_fmap.
    apply first_by_link_fresh in Hin. set_solver.
Qed.

Lemma first_by_link_sublist l seen : first_by_link l seen `sublist_of` l.
Proof.
  revert seen; induction l as [|x l IH]; intros seen; simpl.
  - constructor.
  - case_decide; [apply sublist_cons | apply sublist_skip]; apply IH.
Qed.

Lemma filter_sublist {A} (p : A -> bool) (l : list A) :
  List.filter p l `sublist_of` l.
Proof.
  induction l as [|x l IH]; simpl; [constructor|].
  destruct (p x); by constructor.
Qed.

(** An accepted article is valid, and no valid article in front of it in
    the feed carries its link. *)
Lemma first_by_link_first l seen a :
  a ∈ first_by_link (List.filter is_valid_news l) seen ->
  is_valid_news a = true
  /\ exists pre post, l = pre ++ a :: post
       /\ forall b, b ∈ pre -> is_valid_news b = true -> link b ≠ link a.
Proof.
  revert seen; induction l as [|x l IH]; intros seen; simpl.
  - by intros ?%elem_of_nil.
  - destruct (is_valid_news x) eqn:Ev; simpl.
    + case_decide as Hx.
      * intros Hin. pose proof (first_by_link_fresh _ _ _ Hin) as Hfresh.
        destruct (IH _ Hin) as (Hv & pre & post & -> & Hpre).
        split; [done|]. exists (x :: pre), post. split; [done|].
        intros b [->|Hb]%elem_of_cons Hvb; [congruence | by apply Hpre].
      * intros [->|Hin]%elem_of_cons.
        -- split; [done|]. exists [], l. split; [done|].
           by intros b ?%elem_of_nil.
        -- pose proof (first_by_link_fresh _ _ _ Hin) as Hfresh.
           destruct (IH _ Hin) as (Hv & pre & post & -> & Hpre).
           split; [done|]. exists (x :: pre), post. split; [done|].
           intros b [->|Hb]%elem_of_cons Hvb; [|by apply Hpre].
           intros Heq. apply Hfresh. rewrite <- Heq.
           apply elem_of_union. left. by apply elem_of_singleton.
    + intros Hin. destruct (IH _ Hin) as (Hv & pre & post & -> & Hpre).
      split; [done|]. exists (x :: pre), post. split; [done|].
      intros b [->|Hb]%elem_of_cons Hvb; [congruence | by apply Hpre].
Qed.

(** What the loop has collected when it ends. *)
Lemma news_loop_filtered limit l st :
  (length (filtered st) < limit)%nat ->
  filtered (news_loop limit l st).1
  = filtered st
    ++ take (limit - length (filtered st))
            (first_by_link (List.filter is_valid_news l) (seen st)).
Proof.
  revert st; induction l as [|x l IH]; intros st Hlt; simpl.
  - by rewrite take_nil, app_nil_r.
  - destruct (is_valid_news x) eqn:Ev; simpl; [|by apply IH].
    unfold news_accept. case_decide as Hx.
    + destruct (Nat.leb_spec limit (length (filtered st))); [lia|].
      by apply IH.
    + simpl. rewrite length_app. simpl.
      destruct (Nat.leb_spec limit (length (filtered st) + 1)) as [Hge|Hlt'].
      * simpl. replace (limit - length (filtered st))%nat with 1%nat by lia.
        by rewrite firstn_cons, take_0.
      * rewrite IH by (simpl; rewrite length_app; simpl; lia).
        simpl. rewrite length_app. simpl.
        replace (limit - length (filtered st))%nat
          with (S (limit - (length (filtered st) + 1)))%nat by lia.
        by rewrite firstn_cons, <- app_assoc.
Qed.

(** Where the loop stops. *)
Lemma news_loop_stop limit l st :
  (length (filtered st) < limit)%nat ->
  exists consumed,
    l = consumed ++ (news_loop limit l st).2
    /\ filtered (news_loop limit l st).1
       = filtered st
         ++ first_by_link (List.filter is_valid_news consumed) (seen st)
    /\ ((news_loop limit l st).2 ≠ [] ->
        length (filtered (news_loop limit l st).1) = limit)
    /\ forall p a q, consumed = p ++ a :: q ->
         (length (filtered st
                  ++ first_by_link (List.filter is_valid_news p) (seen st))
          < limit)%nat.
Proof.
  revert st; induction l as [|x l IH]; intros st Hlt; simpl.
  - exists []. simpl. rewrite app_nil_r. split_and!; try done.
    intros p a q Hp. by destruct p.
  - destruct (is_valid_news x) eqn:Ev; simpl.
    + unfold news_accept. case_decide as Hx.
      * destruct (Nat.leb_spec limit (length (filtered st))); [lia|].
        destruct (IH st Hlt) as (c & Hl & Hf & Hu & Hp).
        exists (x :: c). simpl. rewrite Ev. simpl.
        rewrite decide_True by done.
        split_and!; [by rewrite <- Hl | done | done |].
        intros p a q Hc. destruct p as [|y p]; simpl in *.
        { by rewrite app_nil_r. }
        injection Hc as <- Hc. rewrite Ev. simpl.
        rewrite decide_True by done. by eapply Hp.
      * simpl. rewrite length_app. simpl.
        destruct (Nat.leb_spec limit (length (filtered st) + 1)) as [Hge|Hlt'].
        -- exists [x]. simpl. rewrite Ev. simpl.
           rewrite decide_False by done. simpl.
           split_and!; [done | done | intros _; rewrite length_app; simpl; lia |].
           intros p a q Hc. destruct p as [|y p]; simpl in *.
           { by rewrite app_nil_r. }
           injection Hc as _ Hc. by destruct p.
        -- set (st' := NewsState (filtered st ++ [x]) ({[link x]} ∪ seen st)).
           assert (length (filtered st') < limit)%nat as Hlt''.
           { simpl. rewrite length_app. simpl. lia. }
           destruct (IH st' Hlt'') as (c & Hl & Hf & Hu & Hp).
           exists (x :: c). simpl. rewrite Ev. simpl.
           rewrite decide_False by done. simpl.
           split_and!; [by rewrite <- Hl | | done |].
           { rewrite Hf. simpl. by rewrite <- app_assoc. }
           intros p a q Hc. destruct p as [|y p]; simpl in *.
           { rewrite app_nil_r. lia. }
           injection Hc as <- Hc. rewrite Ev. simpl.
           rewrite decide_False by done.
           specialize (Hp _ _ _ Hc). simpl in Hp.
           by rewrite <- app_assoc in Hp.
    + destruct (IH st Hlt) as (c & Hl & Hf & Hu & Hp).
      exists (x :: c). simpl. rewrite Ev.
      split_and!; [by rewrite <- Hl | done | done |].
      intros p a q Hc. destruct p as [|y p]; simpl in *.
      { by rewrite app_nil_r. }
      injection Hc as <- Hc. rewrite Ev. by eapply Hp.
Qed.

Lemma latest_news_eq news_list :
  latest_news news_list = filterAndDedupe news_list news_limit.
Proof.
  unfold latest_news, filterAndDedupe.
  rewrite news_loop_filtered by (simpl; unfold news_limit; lia).
  reflexivity.
Qed.

End NewsFacts.

(** C6.  [is_valid_news] rejects an article exactly when the lower-cased
    text "title summary" contains one of the five teaser keywords as a
    substring, or title and summary are both empty or white space only; the
    keyword list is the fixed one; and an article titled
    "Fan Vote: All-Star Game" is rejected whatever its summary (and link and
    publication text) may be. *)
Theorem is_valid_news_rejects :
  (forall a : article,
     is_valid_news a = false <->
       (exists kw pre post,
          kw ∈ teaser_keywords
          /\ Str.lower (title a +:+ " " +:+ summary a) = pre +:+ kw +:+ post)
       \/ (Str.blank (title a) /\ Str.blank (summary a)))
  /\ teaser_keywords = ["vote"; "voting"; "check back"; "countdown"; "announcement"]
  /\ (forall lnk smry pub,
        is_valid_news (Article "Fan Vote: All-Star Game" lnk smry pub) = false).
Proof.
  split_and!.
  - intros a. rewrite is_valid_news_false. split.
    + intros [(kw & Hin & Hc) | Hb]; [left | by right].
      apply contains_spec in Hc as (pre & post & Hc). by exists kw, pre, post.
    + intros [(kw & pre & post & Hin & Hc) | Hb]; [left | by right].
      exists kw. split; [done|]. apply contains_spec. by exists pre, post.
  - reflexivity.
  - intros lnk smry pub. apply is_valid_news_false. left.
    exists "vote". split; [by apply list_elem_of_here|].
    cbn [title summary]. rewrite lower_app. by apply contains_app_l.
Qed.

(** C5.  The sidebar loop (limit 3) returns articles with pairwise distinct
    links, at most three of them, in feed order; each returned article is
    valid and is the first valid article of the feed with its link; the
    result is the reference reading (valid articles, first of every link,
    first three); and the loop stops reading as soon as three articles are
    accepted: the feed splits into the part read and the part never reached,
    something is left unreached only when three articles were accepted, and
    in front of every article read fewer than three had been accepted. *)
Theorem latest_news_dedupe_bound_stop (news_list : list article) :
  NoDup (link <$> latest_news news_list)
  /\ (length (latest_news news_list) <= news_limit)%nat
  /\ news_limit = 3%nat
  /\ latest_news news_list `sublist_of` news_list
  /\ (forall a, a ∈ latest_news news_list ->
        is_valid_news a = true
        /\ exists pre post, news_list = pre ++ a :: post
             /\ forall b, b ∈ pre -> is_valid_news b = true -> link b ≠ link a)
  /\ latest_news news_list = filterAndDedupe news_list news_limit
  /\ exists consumed,
       news_list = consumed ++ latest_news_unread news_list
       /\ latest_news consumed = latest_news news_list
       /\ (latest_news_unread news_list ≠ [] ->
           length (latest_news news_list) = news_limit)
       /\ forall p a q, consumed = p ++ a :: q ->
            (length (latest_news p) < news_limit)%nat.
Proof.
  assert (length (filtered news_init) < news_limit)%nat as H0
    by (simpl; unfold news_limit; lia).
  split_and!.
  - rewrite latest_news_eq. unfold filterAndDedupe.
    rewrite fmap_take.
    eapply sublist_NoDup; [apply first_by_link_NoDup | apply sublist_take].
  - rewrite latest_news_eq. unfold filterAndDedupe.
    rewrite length_take. lia.
  - reflexivity.
  - rewrite latest_news_eq. unfold filterAndDedupe.
    etrans; [apply sublist_take|].
    etrans; [apply first_by_link_sublist | apply filter_sublist].
  - intros a. rewrite latest_news_eq. unfold filterAndDedupe.
    intros Hin%subseteq_take. by eapply first_by_link_first.
  - apply latest_news_eq.
  - destruct (news_loop_stop news_limit news_list news_init H0)
      as (consumed & Hl & Hf & Hu & Hp).
    exists consumed. split_and!; [done | | done |].
    + assert (length (latest_news news_list) <= news_limit)%nat as Hle.
      { rewrite latest_news_eq. unfold filterAndDedupe. rewrite length_take. lia. }
      rewrite (latest_news_eq consumed). unfold filterAndDedupe.
      unfold latest_news in *. rewrite Hf in *. simpl in *.
      by apply take_ge.
    + intros p a q Hc. rewrite latest_news_eq. unfold filterAndDedupe.
      specialize (Hp p a q Hc). simpl in Hp.
      rewrite length_take. lia.
Qed.

Lemma latest_news_dedupe_bound_stop_witness :
  length (latest_news sample_feed) = 3%nat
  /\ latest_news_unread sample_feed
     = [Article "Injury report" "l4" "Who is out" ""].
Proof.
  destruct (latest_news_dedupe_bound_stop sample_feed)
    as (_ & _ & _ & _ & _ & _ & consumed & _ & _ & Hstop & _).
  split; [|reflexivity].
  apply Hstop. discriminate.
Defined.

(** ** Publication time *)

Section TimeFormatterFacts.

Variable New_York_utcoffset : Z -> Z.

Local Abbreviation pub_fmt_convert := (pub_fmt_convert New_York_utcoffset).

(** The conversion steps go through exactly on a naive timestamp. *)
Lemma pub_fmt_convert_cases t :
  match t with
  | NaT => pub_fmt_convert t = Py.Raise Py.ValueError
  | Naive wall =>
      pub_fmt_convert t
      = Py.Ok (Cal.strftime_ymd_hm (wall + New_York_utcoffset wall) +:+ " EDT")
  | Aware _ _ => pub_fmt_convert t = Py.Raise Py.TypeError
  end.
Proof. by destruct t. Qed.

Lemma take_prefix n s : exists rest, s = Str.take n s +:+ rest.
Proof.
  revert s; induction n as [|n IH]; intros s.
  - exists s. by destruct s.
  - destruct s as [|c s]; [by exists ""|].
    destruct (IH s) as [rest Hr]. exists rest. simpl.
    by rewrite app_cons, <- Hr.
Qed.

Lemma take_length n s :
  String.length (Str.take n s) = Nat.min n (String.length s).
Proof.
  revert s; induction n as [|n IH]; intros s; [by destruct s|].
  destruct s as [|c s]; simpl; [done | by rewrite IH].
Qed.

End TimeFormatterFacts.

(** C8.  When parsing the raw text raises, or parsing succeeds and one of
    the conversion steps raises, [pub_fmt] is the raw text cut to its first
    16 characters: a prefix of the raw text, of length min(16, length).  No
    exception leaves [pub_fmt], which is a total function.  On "not-a-date"
    the result is "not-a-date". *)
Theorem pub_fmt_fallback
    (to_datetime : string -> Py.result Timestamp) (New_York_utcoffset : Z -> Z)
    (pub : string) :
  (exists e, to_datetime pub = Py.Raise e)
  \/ (exists t e, to_datetime pub = Py.Ok t
        /\ pub_fmt_convert New_York_utcoffset t = Py.Raise e) ->
  pub_fmt to_datetime New_York_utcoffset pub = Str.take 16 pub
  /\ (exists rest, pub = Str.take 16 pub +:+ rest)
  /\ String.length (Str.take 16 pub) = Nat.min 16 (String.length pub)
  /\ (pub = "not-a-date" ->
      pub_fmt to_datetime New_York_utcoffset pub = "not-a-date").
Proof.
  intros Hfail.
  assert (pub_fmt to_datetime New_York_utcoffset pub = Str.take 16 pub) as Heq.
  { unfold pub_fmt, pub_fmt_try.
    destruct Hfail as [[e He] | (t & e & Ht & He)].
    - by rewrite He.
    - rewrite Ht. simpl. by rewrite He. }
  split_and!; [done | apply take_prefix | apply take_length |].
  intros ->. by rewrite Heq.
Qed.

Lemma pub_fmt_fallback_witness :
  pub_fmt to_datetime_sample us_eastern_utcoffset "not-a-date" = "not-a-date"
  /\ pub_fmt to_datetime_sample us_eastern_utcoffset
       "2025-01-15T12:00:00+00:00" = "2025-01-15T12:00".
Proof.
  split.
  - apply (pub_fmt_fallback to_datetime_sample us_eastern_utcoffset "not-a-date");
      [|reflexivity].
    left. exists Py.ValueError. vm_compute. reflexivity.
  - apply (pub_fmt_fallback to_datetime_sample us_eastern_utcoffset
             "2025-01-15T12:00:00+00:00").
    right. exists (Aware (Cal.datetime_hms 2025 1 15 12 0 0) UTC), Py.TypeError.
    split; vm_compute; reflexivity.
Defined.

(** C10.  Whenever the [try] block succeeds, the text it yields is the
    local date and time followed by the literal " EDT", whatever the date:
    the input then parsed to a naive timestamp, the body is that reading
    shifted by the New York offset, and the suffix is the same when that
    offset is the standard-time one (-5 h). *)
Theorem pub_fmt_suffix_EDT
    (to_datetime : string -> Py.result Timestamp) (New_York_utcoffset : Z -> Z)
    (pub s : string) :
  pub_fmt_try to_datetime New_York_utcoffset pub = Py.Ok s ->
  pub_fmt to_datetime New_York_utcoffset pub = s
  /\ exists wall,
       to_datetime pub = Py.Ok (Naive wall)
       /\ s = Cal.strftime_ymd_hm (wall + New_York_utcoffset wall) +:+ " EDT"
       /\ (New_York_utcoffset wall = -5 * 3600 ->
           s = Cal.strftime_ymd_hm (wall - 5 * 3600) +:+ " EDT").
Proof.
  intros Hok. split.
  - unfold pub_fmt. by rewrite Hok.
  - unfold pub_fmt_try in Hok.
    destruct (to_datetime pub) as [t|e] eqn:Ht; [|discriminate].
    simpl in Hok.
    pose proof (pub_fmt_convert_cases New_York_utcoffset t) as Hc.
    destruct t as [|wall|u tz]; rewrite Hc in Hok; try discriminate.
    injection Hok as <-. exists wall. split_and!; [done | done |].
    intros ->. reflexivity.
Qed.

Lemma pub_fmt_suffix_EDT_witness :
  pub_fmt to_datetime_sample us_eastern_utcoffset "2025-01-15 12:00:00"
  = "2025-01-15 07:00 EDT"
  /\ us_eastern_utcoffset (Cal.datetime_hms 2025 1 15 12 0 0) = -5 * 3600.
Proof.
  split; [|reflexivity].
  apply (pub_fmt_suffix_EDT to_datetime_sample us_eastern_utcoffset
           "2025-01-15 12:00:00" "2025-01-15 07:00 EDT").
  vm_compute. reflexivity.
Defined.

Lemma string_of_list_ascii_length (l : list ascii) :
  String.length (string_of_list_ascii l) = length l.
Proof. induction l as [|c l IH]; [done|]. cbn. by rewrite IH. Qed.

Lemma str_app_length (s t : string) :
  String.length (s +:+ t) = (String.length s + String.length t)%nat.
Proof.
  induction s as [|c s IH]; [done|].
  rewrite app_cons. cbn [String.length]. by rewrite IH.
Qed.

Lemma digits_length (w : nat) (n : Z) : (w <= String.length (Cal.digits w n))%nat.
Proof.
  unfold Cal.digits, Str.zfill.
  rewrite str_app_length, string_of_list_ascii_length, repeat_length. lia.
Qed.

(** A rendering 'YYYY-MM-DD HH:MM' has at least 16 characters. *)
Lemma strftime_ymd_hm_length (t : Z) :
  (16 <= String.length (Cal.strftime_ymd_hm t))%nat.
Proof.
  unfold Cal.strftime_ymd_hm, Cal.strftime_ymd.
  rewrite !str_app_length. cbn [String.length].
  pose proof (digits_length 4 (Cal.year t)).
  pose proof (digits_length 2 (Cal.month t)).
  pose proof (digits_length 2 (Cal.day t)).
  pose proof (digits_length 2 (Cal.hour t)).
  pose proof (digits_length 2 (Cal.minute t)).
  lia.
Qed.

(** C4 (the code departs from it).  When the parser returns a zone-aware
    timestamp, as it does for text that writes out its offset from UTC,
    [tz_localize] raises and [pub_fmt] is the first 16 characters of the
    raw text: nothing is converted to US Eastern, and the result is not
    the rendering 'YYYY-MM-DD HH:MM <ZONE>' of that instant in New York,
    whatever the zone text. *)
Theorem pub_fmt_zone_aware_not_converted
    (to_datetime : string -> Py.result Timestamp) (New_York_utcoffset : Z -> Z)
    (pub : string) (utc : Z) (tz : tzinfo) :
  to_datetime pub = Py.Ok (Aware utc tz) ->
  pub_fmt_try to_datetime New_York_utcoffset pub = Py.Raise Py.TypeError
  /\ pub_fmt to_datetime New_York_utcoffset pub = Str.take 16 pub
  /\ forall zone,
       pub_fmt to_datetime New_York_utcoffset pub
       ≠ Cal.strftime_ymd_hm (utc + New_York_utcoffset utc) +:+ " " +:+ zone.
Proof.
  intros Ht.
  assert (pub_fmt to_datetime New_York_utcoffset pub = Str.take 16 pub) as Heq.
  { unfold pub_fmt, pub_fmt_try. rewrite Ht. by simpl. }
  split_and!.
  - unfold pub_fmt_try. rewrite Ht. by simpl.
  - done.
  - intros zone Hzone. rewrite Heq in Hzone.
    apply (f_equal String.length) in Hzone.
    rewrite take_length, !str_app_length in Hzone. cbn [String.length] in Hzone.
    pose proof (strftime_ymd_hm_length (utc + New_York_utcoffset utc)). lia.
Qed.

Lemma pub_fmt_zone_aware_not_converted_witness :
  to_datetime_sample "2024-07-02T00:13:30+00:00"
  = Py.Ok (Aware (Cal.datetime_hms 2024 7 2 0 13 30) UTC)
  /\ pub_fmt to_datetime_sample us_eastern_utcoffset "2024-07-02T00:13:30+00:00"
     = "2024-07-02T00:13"
  /\ Cal.strftime_ymd_hm
       (Cal.datetime_hms 2024 7 2 0 13 30
        + us_eastern_utcoffset (Cal.datetime_hms 2024 7 2 0 13 30)) +:+ " EDT"
     = "2024-07-01 20:13 EDT".
Proof.
  assert (to_datetime_sample "2024-07-02T00:13:30+00:00"
          = Py.Ok (Aware (Cal.datetime_hms 2024 7 2 0 13 30) UTC)) as Ht
    by (vm_compute; reflexivity).
  split_and!; [exact Ht | | by vm_compute].
  destruct (pub_fmt_zone_aware_not_converted to_datetime_sample us_eastern_utcoffset
              _ _ _ Ht) as (_ & H & _).
  rewrite H. by vm_compute.
Defined.

(** ** Ordering of dates and the sample sort routines *)

Section DateOrder.

Lemma date_le_trans : Transitive date_le.
Proof. intros [a|] [b|] [c|]; simpl; try done. lia. Qed.

Lemma date_le_antisym a b : date_le a b -> date_le b a -> a = b.
Proof. destruct a, b; simpl; try done. intros. f_equal. lia. Qed.

Lemma date_leb_true a b : date_leb a b = true -> date_le a b.
Proof. destruct a, b; simpl; try done. lia. Qed.

Lemma date_leb_false a b : date_leb a b = false -> date_le b a /\ a ≠ b.
Proof.
  destruct a, b; simpl; try done.
  intros H%Z.leb_gt. split; [lia | intros [=]; lia].
Qed.

Lemma date_ltb_true a b : date_ltb a b = true -> date_le a b.
Proof.
  unfold date_ltb. intros H%negb_true_iff. by apply date_leb_false in H as [H _].
Qed.

Lemma date_ltb_false a b : date_ltb a b = false -> date_le b a.
Proof. unfold date_ltb. intros H%negb_false_iff. by apply date_leb_true. Qed.

End DateOrder.

Section TakeItems.

Context {A : Type}.
Implicit Types (l : list A) (idx : list nat).

Lemma take_items_nil idx : take_items idx (@nil A) = [].
Proof. induction idx as [|i idx IH]; [done|]. unfold take_items in *. by csimpl. Qed.

Lemma take_items_seq l : take_items (seq 0 (length l)) l = l.
Proof.
  induction l as [|x l IH] using rev_ind; [done|].
  rewrite length_app. simpl. rewrite seq_app. unfold take_items in *.
  rewrite omap_app. simpl.
  rewrite lookup_app_r, Nat.sub_diag by lia. simpl. f_equal.
  etrans; [|exact IH]. apply list_omap_ext, Forall2_same_length_lookup_2; [done|].
  intros i a b [-> Hi]%lookup_seq [-> _]%lookup_seq. simpl.
  by rewrite lookup_app_l.
Qed.

Lemma take_items_perm idx l :
  idx ≡ₚ seq 0 (length l) -> take_items idx l ≡ₚ l.
Proof. intros Hp. unfold take_items. rewrite Hp. by rewrite (take_items_seq l) at 1. Qed.

Lemma take_items_fmap {B} (f : A -> B) idx l :
  f <$> take_items idx l = take_items idx (f <$> l).
Proof.
  unfold take_items. induction idx as [|i idx IH]; [done|]. csimpl.
  rewrite list_lookup_fmap. destruct (l !! i); csimpl; by rewrite ?IH.
Qed.

(** Reading [l] at valid positions is a plain map. *)
Lemma take_items_total `{Inhabited A} idx l :
  Forall (fun i => (i < length l)%nat) idx ->
  take_items idx l = (fun i => l !!! i) <$> idx.
Proof.
  unfold take_items. induction 1 as [|i idx Hi _ IH]; [done|]. csimpl.
  destruct (lookup_lt_is_Some_2 l i Hi) as [x Hx].
  rewrite Hx. csimpl. rewrite IH. f_equal.
  symmetry. by apply list_lookup_total_correct.
Qed.

End TakeItems.

Section SampleSorts.

Lemma StronglySorted_with {A} (P : A -> Prop) (R : relation A) l :
  Forall P l -> StronglySorted R l ->
  StronglySorted (fun x y => P x /\ P y /\ R x y) l.
Proof.
  intros HP Hs. induction Hs as [|x l Hs IH Hx]; [constructor|].
  apply Forall_cons in HP as [Px HP].
  constructor; [by apply IH|].
  rewrite Forall_forall in *. intros y Hy. auto.
Qed.

(** A pair of [zip (seq 0 n) keys] holds a position and the key there. *)
Lemma zip_seq_lookup (keys : list (option Z)) i k :
  (i, k) ∈ zip (seq 0 (length keys)) keys -> keys !! i = Some k.
Proof.
  intros [j Hj]%list_elem_of_lookup.
  apply lookup_zip_with_Some in Hj as (i' & k' & [= <- <-] & Hi & Hk).
  apply lookup_seq in Hi as [-> _]. done.
Qed.

Lemma zip_seq_increasing (keys : list (option Z)) j n :
  StronglySorted (fun p q : nat * option Z => (p.1 < q.1)%nat) (zip (seq j n) keys).
Proof.
  revert j keys; induction n as [|n IH]; intros j keys; [constructor|].
  destruct keys as [|k keys]; [constructor|]. simpl.
  constructor; [apply IH|].
  apply Forall_forall. intros [i' k'] [m Hm]%list_elem_of_lookup.
  apply lookup_zip_with_Some in Hm as (i'' & k'' & [= <- <-] & Hi & Hk).
  apply lookup_seq in Hi as [-> _]. simpl. lia.
Qed.

Section AnyComparison.

Variable before : option Z -> option Z -> bool.
Hypothesis before_true : forall a b, before a b = true -> date_le a b.
Hypothesis before_false : forall a b, before a b = false -> date_le b a.

Local Abbreviation key_le := (fun p q : nat * option Z => date_le p.2 q.2).

Lemma insert_key_perm x l : insert_key before x l ≡ₚ x :: l.
Proof.
  induction l as [|y l IH]; simpl; [done|].
  destruct (before _ _); [done|]. rewrite IH. apply perm_swap.
Qed.

Lemma insert_key_sorted x l :
  StronglySorted key_le l -> StronglySorted key_le (insert_key before x l).
Proof.
  induction 1 as [|y l Hs IH Hy]; simpl; [by repeat constructor|].
  destruct (before x.2 y.2) eqn:E.
  - constructor; [by constructor|].
    constructor; [by apply before_true|].
    eapply Forall_impl; [exact Hy|]. intros q Hq. simpl in *.
    eapply date_le_trans; [|exact Hq]. by apply before_true.
  - constructor; [done|].
    apply Forall_forall. intros q Hq. rewrite insert_key_perm in Hq.
    apply elem_of_cons in Hq as [->|Hq]; [by apply before_false|].
    rewrite Forall_forall in Hy. by apply Hy.
Qed.

Lemma foldr_insert_perm l : foldr (insert_key before) [] l ≡ₚ l.
Proof. induction l as [|x l IH]; simpl; [done|]. by rewrite insert_key_perm, IH. Qed.

Lemma foldr_insert_sorted l : StronglySorted key_le (foldr (insert_key before) [] l).
Proof. induction l as [|x l IH]; simpl; [constructor | by apply insert_key_sorted]. Qed.

Lemma argsort_by_take keys :
  take_items (argsort_by before keys) keys
  = (foldr (insert_key before) [] (zip (seq 0 (length keys)) keys)).*2.
Proof.
  unfold argsort_by.
  assert (Forall (fun p => keys !! p.1 = Some p.2)
            (foldr (insert_key before) [] (zip (seq 0 (length keys)) keys))) as HP.
  { apply Forall_forall. intros [i k] Hin. rewrite foldr_insert_perm in Hin.
    by apply zip_seq_lookup. }
  induction HP as [|[i k] S Hp _ IH]; [done|].
  unfold take_items in *. csimpl. simpl in Hp. rewrite Hp. csimpl. by rewrite IH.
Qed.

Lemma argsort_by_spec : argsort_spec (argsort_by before).
Proof.
  intros keys. split.
  - unfold argsort_by. rewrite foldr_insert_perm.
    rewrite fst_zip; [done | rewrite length_seq; lia].
  - rewrite argsort_by_take.
    apply (Sorted_fmap _ key_le); [done|].
    apply StronglySorted_Sorted, foldr_insert_sorted.
Qed.

End AnyComparison.

Lemma argsort_insertion_spec : argsort_spec argsort_insertion.
Proof.
  apply argsort_by_spec; [apply date_leb_true|].
  intros a b H. by apply date_leb_false in H as [H _].
Qed.

Lemma argsort_ties_reversed_spec : argsort_spec argsort_ties_reversed.
Proof. apply argsort_by_spec; [apply date_ltb_true | apply date_ltb_false]. Qed.

(** Insertion with the non-strict comparison keeps equal keys in position
    order. *)
Local Abbreviation key_pos_le :=
  (fun p q : nat * option Z => date_le p.2 q.2 /\ (p.2 = q.2 -> (p.1 < q.1)%nat)).

Lemma insert_key_stable x l :
  Forall (fun q => (x.1 < q.1)%nat) l ->
  StronglySorted key_pos_le l ->
  StronglySorted key_pos_le (insert_key date_leb x l).
Proof.
  intros Hx Hs. induction Hs as [|y l Hs IH Hy]; simpl; [by repeat constructor|].
  apply Forall_cons in Hx as [Hxy Hxl].
  destruct (date_leb x.2 y.2) eqn:E.
  - apply date_leb_true in E.
    constructor; [by constructor|].
    constructor; [done|].
    rewrite Forall_forall in *. intros q Hq. split; [|auto].
    eapply date_le_trans; [exact E|]. by apply Hy.
  - apply date_leb_false in E as [E Hne].
    constructor; [by apply IH|].
    apply Forall_forall. intros q Hq.
    rewrite insert_key_perm in Hq.
    apply elem_of_cons in Hq as [->|Hq]; [done|].
    rewrite Forall_forall in Hy. by apply Hy.
Qed.

Lemma foldr_insert_stable l :
  StronglySorted (fun p q : nat * option Z => (p.1 < q.1)%nat) l ->
  StronglySorted key_pos_le (foldr (insert_key date_leb) [] l).
Proof.
  induction 1 as [|x l Hs IH Hx]; simpl; [constructor|].
  apply insert_key_stable; [|done].
  apply Forall_forall. intros q Hq. rewrite foldr_insert_perm in Hq.
  rewrite Forall_forall in Hx. by apply Hx.
Qed.

Lemma argsort_insertion_stable : argsort_stable argsort_insertion.
Proof.
  intros keys. unfold argsort_insertion, argsort_by.
  set (S := foldr (insert_key date_leb) [] (zip (seq 0 (length keys)) keys)).
  assert (Forall (fun p => keys !! p.1 = Some p.2) S) as HP.
  { apply Forall_forall. intros [i k] Hin. unfold S in Hin.
    rewrite foldr_insert_perm in Hin. by apply zip_seq_lookup. }
  pose proof (foldr_insert_stable _ (zip_seq_increasing keys 0 (length keys))) as Hs.
  eapply StronglySorted_fmap; [|exact (StronglySorted_with _ _ _ HP Hs)].
  intros p q (Hp & Hq & _ & Hlt) Heq. simpl in *. apply Hlt. congruence.
Qed.

End SampleSorts.

(** ** Event logs *)

Section FrameFacts.

Lemma filter_all {A} (p : A -> bool) (l : list A) :
  Forall (fun x => p x = true) l -> List.filter p l = l.
Proof. induction 1 as [|x l Hx _ IH]; simpl; [done|]. by rewrite Hx, IH. Qed.

Lemma elem_of_List_filter {A} (p : A -> bool) (l : list A) x :
  x ∈ List.filter p l <-> x ∈ l /\ p x = true.
Proof. by rewrite !list_elem_of_In, filter_In. Qed.

Lemma seq_shift_seqZ n :
  (fun i : nat => Some (Z.of_nat i + 1)) <$> seq 0 n = Some <$> seqZ 1 (Z.of_nat n).
Proof.
  apply list_eq. intros i. rewrite !list_lookup_fmap.
  destruct (decide (i < n)%nat) as [Hi|Hi].
  - rewrite lookup_seq_lt, lookup_seqZ_lt by lia. simpl. do 2 f_equal. lia.
  - rewrite lookup_seq_ge, lookup_seqZ_ge by lia. done.
Qed.

Lemma retained_row target team_abbr df r :
  r ∈ retained target team_abbr df <->
    exists r0, r0 ∈ df
      /\ r = set_Date (Some (to_datetime_ymd (game_date (ev r0)))) r0
      /\ season_mask team_abbr r = true
      /\ events (ev r0) = Some target.
Proof.
  unfold retained, loc, dated.
  rewrite !elem_of_List_filter, list_elem_of_fmap. split.
  - intros [[(r0 & -> & Hr0) Hm] He]. exists r0. split_and!; try done.
    simpl in He. unfold eq_str in He. destruct (events (ev r0)); [|done].
    apply bool_decide_eq_true in He. by subst.
  - intros (r0 & Hr0 & -> & Hm & He). split_and!; [by exists r0 | done |].
    simpl. rewrite He. simpl. by apply bool_decide_eq_true.
Qed.

Lemma retained_kept target team_abbr df :
  Forall (kept target team_abbr) (retained target team_abbr df).
Proof.
  apply Forall_forall. intros r (r0 & _ & -> & Hm & He)%retained_row.
  split_and!; [done | done |]. simpl. rewrite He. simpl.
  by apply bool_decide_eq_true.
Qed.

Lemma kept_retained target team_abbr df :
  Forall (kept target team_abbr) df -> retained target team_abbr df = df.
Proof.
  intros Hk. unfold retained, loc, dated.
  assert ((fun r => set_Date (Some (to_datetime_ymd (game_date (ev r)))) r) <$> df = df)
    as ->.
  { rewrite <- (list_fmap_id df) at 2. apply list_fmap_ext.
    intros i r Hr. eapply Forall_lookup_1 in Hk as (Hd & _ & _); [|done].
    destruct r. simpl in *. by rewrite Hd. }
  rewrite (filter_all (season_mask team_abbr)).
  - apply filter_all. eapply Forall_impl; [done|]. by intros r (_ & _ & ?).
  - eapply Forall_impl; [done|]. by intros r (_ & ? & _).
Qed.

Lemma season_mask_home team_abbr r :
  team_abbr ∉ ["LAD"; "CHC"] ->
  season_mask team_abbr r = true ->
  exists t, Date r = Some t /\ REGULAR_START <= t.
Proof.
  intros Hteam. unfold season_mask. rewrite bool_decide_eq_false_2 by done.
  unfold ge. destruct (Date r) as [t|]; [|done].
  intros H%Z.leb_le. by exists t.
Qed.

Lemma season_mask_tokyo team_abbr r t :
  team_abbr ∈ ["LAD"; "CHC"] ->
  Date r = Some t -> t = TOKYO_START \/ t = TOKYO_2 ->
  season_mask team_abbr r = true.
Proof.
  intros Hteam Hd Ht. unfold season_mask. rewrite bool_decide_eq_true_2 by done.
  rewrite Hd. apply orb_true_iff. left. simpl.
  destruct Ht as [->| ->]; rewrite ?Z.eqb_refl, ?orb_true_r; done.
Qed.

End FrameFacts.

Section EventLogFacts.

Variable argsort : list (option Z) -> list nat.
Variable playerid_reverse_lookup : mlbam_id -> Py.result (list person).

Local Abbreviation sorted := (sort_values_Date argsort).
Local Abbreviation hr := (hr_log argsort playerid_reverse_lookup).
Local Abbreviation kk := (k_log argsort playerid_reverse_lookup).
Local Abbreviation hr_cols := (hr_columns playerid_reverse_lookup).
Local Abbreviation k_cols := (k_columns playerid_reverse_lookup).

Lemma hr_log_eq df team_abbr :
  hr df team_abbr
  = imap hr_cols (sorted (retained "home_run" team_abbr df)).
Proof.
  unfold hr_log. destruct df as [|r0 df].
  { change (retained _ team_abbr []) with (@nil Row).
    unfold sort_values_Date. by rewrite take_items_nil. }
  cbv zeta. change (empty (r0 :: df)) with false. cbv iota.
  change (loc _ (loc _ _)) with (retained "home_run" team_abbr (r0 :: df)).
  destruct (sorted (retained "home_run" team_abbr (r0 :: df)))
    as [|x X]; [done|].
  change (empty (reset_index (x :: X))) with false. cbv iota.
  unfold reset_index. rewrite !fmap_imap. by apply imap_ext.
Qed.

Lemma k_log_eq df team_abbr :
  kk df team_abbr
  = imap k_cols (sorted (retained "strikeout" team_abbr df)).
Proof.
  unfold k_log. destruct df as [|r0 df].
  { change (retained _ team_abbr []) with (@nil Row).
    unfold sort_values_Date. by rewrite take_items_nil. }
  cbv zeta. change (empty (r0 :: df)) with false. cbv iota.
  change (loc _ (loc _ _)) with (retained "strikeout" team_abbr (r0 :: df)).
  destruct (sorted (retained "strikeout" team_abbr (r0 :: df)))
    as [|x X]; [done|].
  change (empty (reset_index (x :: X))) with false. cbv iota.
  unfold reset_index. rewrite !fmap_imap. by apply imap_ext.
Qed.

(** Columns of a finished frame. *)
Lemma imap_column {B} (cols : nat -> Row -> Row) (col : Row -> B) (g : Row -> B) l :
  (forall i r, col (cols i r) = g r) -> col <$> imap cols l = g <$> l.
Proof.
  intros H. rewrite fmap_imap, <- imap_const.
  apply imap_ext. intros i r _. apply H.
Qed.

Lemma imap_numbered (cols : nat -> Row -> Row) (col : Row -> option Z) l :
  (forall i r, col (cols i r) = Some (Z.of_nat i + 1)) ->
  col <$> imap cols l = Some <$> seqZ 1 (Z.of_nat (length l)).
Proof.
  intros H. rewrite fmap_imap, <- seq_shift_seqZ, <- imap_seq_0.
  apply imap_ext. intros i r _. apply H.
Qed.

Lemma imap_idemp (cols : nat -> Row -> Row) l :
  (forall i r, cols i (cols i r) = cols i r) ->
  imap cols (imap cols l) = imap cols l.
Proof.
  intros H. apply list_eq. intros i. rewrite !list_lookup_imap.
  destruct (l !! i); simpl; [by rewrite H | done].
Qed.

Lemma imap_Forall (cols : nat -> Row -> Row) (P : Row -> Prop) l :
  (forall i r, P r -> P (cols i r)) -> Forall P l -> Forall P (imap cols l).
Proof.
  intros H Hl. apply Forall_lookup. intros i r. rewrite list_lookup_imap.
  destruct (l !! i) as [r'|] eqn:E; [|done]. intros [= <-].
  apply H. by eapply Forall_lookup_1.
Qed.

Section Sorted.

Hypothesis argsort_ok : argsort_spec argsort.

Lemma sort_values_perm df : sorted df ≡ₚ df.
Proof.
  unfold sort_values_Date. apply take_items_perm.
  destruct (argsort_ok (Date <$> df)) as [Hp _]. by rewrite length_fmap in Hp.
Qed.

Lemma sort_values_length df : length (sorted df) = length df.
Proof. by rewrite sort_values_perm. Qed.

Lemma sort_values_sorted df : Sorted date_le (Date <$> sorted df).
Proof.
  unfold sort_values_Date. rewrite take_items_fmap.
  by destruct (argsort_ok (Date <$> df)) as [_ Hs].
Qed.

Lemma hr_log_events df team_abbr :
  ev <$> hr df team_abbr ≡ₚ ev <$> retained "home_run" team_abbr df.
Proof.
  rewrite hr_log_eq, (imap_column _ ev ev) by done. by rewrite sort_values_perm.
Qed.

Lemma k_log_events df team_abbr :
  ev <$> kk df team_abbr ≡ₚ ev <$> retained "strikeout" team_abbr df.
Proof.
  rewrite k_log_eq, (imap_column _ ev ev) by done. by rewrite sort_values_perm.
Qed.

Lemma hr_log_kept df team_abbr :
  Forall (kept "home_run" team_abbr) (hr df team_abbr).
Proof.
  rewrite hr_log_eq. apply imap_Forall; [by intros i [] |].
  rewrite sort_values_perm. apply retained_kept.
Qed.

Lemma k_log_kept df team_abbr :
  Forall (kept "strikeout" team_abbr) (kk df team_abbr).
Proof.
  rewrite k_log_eq. apply imap_Forall; [by intros i [] |].
  rewrite sort_values_perm. apply retained_kept.
Qed.

End Sorted.

End EventLogFacts.

Section NameFacts.

Lemma pretty_N_go_nonempty (x : N) (s : string) :
  s ≠ "" -> pretty_N_go x s ≠ "".
Proof.
  revert s. induction (N.lt_wf_0 x) as [x _ IH]; intros s Hs.
  destruct (decide (x = 0)%N) as [->|Hx]; [by rewrite pretty_N_go_0|].
  rewrite pretty_N_go_step by lia.
  apply IH; [apply N.div_lt; lia | done].
Qed.

Lemma pretty_N_nonempty (x : N) : pretty x ≠ "".
Proof.
  unfold pretty, pretty_N. case_decide as Hx; [done|].
  rewrite pretty_N_go_step by lia. by apply pretty_N_go_nonempty.
Qed.

Lemma pretty_Z_nonempty (p : Z) : pretty p ≠ "".
Proof.
  destruct p as [|x|x]; [done | apply (pretty_N_nonempty (Npos x)) | done].
Qed.

Lemma str_of_id_nonempty (p : mlbam_id) : str_of_id p ≠ "".
Proof.
  destruct p as [n|n]; cbn [str_of_id]; [apply pretty_Z_nonempty|].
  pose proof (pretty_Z_nonempty n). by destruct (pretty n).
Qed.

(** In an id column of one dtype that has a missing cell, every id is a
    float. *)
Lemma id_column_missing (col : list (option mlbam_id)) (q : mlbam_id) :
  id_column col = true -> None ∈ col -> Some q ∈ col -> exists n, q = FloatId n.
Proof.
  unfold id_column. intros [Hi|Hf]%orb_true_iff Hnone Hq.
  - rewrite forallb_forall in Hi. apply list_elem_of_In in Hnone.
    by apply Hi in Hnone.
  - rewrite forallb_forall in Hf. apply list_elem_of_In, Hf in Hq.
    destruct q as [n|n]; [done | by exists n].
Qed.

Lemma take_items_elem {A} (idx : list nat) (l : list A) (x : A) :
  x ∈ take_items idx l -> x ∈ l.
Proof.
  unfold take_items. intros (i & _ & Hi)%list_elem_of_omap.
  by eapply list_elem_of_lookup_2.
Qed.

Variable argsort : list (option Z) -> list nat.
Variable playerid_reverse_lookup : mlbam_id -> Py.result (list person).

(** A row of a log is a row of the table with the added columns. *)
Lemma hr_log_row df team_abbr r :
  r ∈ hr_log argsort playerid_reverse_lookup df team_abbr ->
  exists r0, r0 ∈ df /\ ev r = ev r0
    /\ Pitcher r
       = Some (counterparty_name playerid_reverse_lookup (pitcher (ev r0))).
Proof.
  rewrite hr_log_eq. intros [i Hi]%list_elem_of_lookup.
  rewrite list_lookup_imap in Hi.
  destruct (_ !! i) as [r'|] eqn:E; [|done]. injection Hi as <-.
  apply list_elem_of_lookup_2, take_items_elem, retained_row in E
    as (r0 & Hr0 & -> & _).
  by exists r0.
Qed.

Lemma k_log_row df team_abbr r :
  r ∈ k_log argsort playerid_reverse_lookup df team_abbr ->
  exists r0, r0 ∈ df /\ ev r = ev r0
    /\ Batter r
       = Some (counterparty_name playerid_reverse_lookup (batter (ev r0))).
Proof.
  rewrite k_log_eq. intros [i Hi]%list_elem_of_lookup.
  rewrite list_lookup_imap in Hi.
  destruct (_ !! i) as [r'|] eqn:E; [|done]. injection Hi as <-.
  apply list_elem_of_lookup_2, take_items_elem, retained_row in E
    as (r0 & Hr0 & -> & _).
  by exists r0.
Qed.

Lemma pid2name_found p first last rest :
  playerid_reverse_lookup p = Py.Ok (Person (Some first) (Some last) :: rest) ->
  pid2name playerid_reverse_lookup p = first +:+ " " +:+ last.
Proof. unfold pid2name. intros ->. simpl. by rewrite str_app_assoc. Qed.

Lemma pid2name_raised p e :
  playerid_reverse_lookup p = Py.Raise e ->
  pid2name playerid_reverse_lookup p = str_of_id p.
Proof. unfold pid2name. by intros ->. Qed.

Lemma pid2name_unknown p :
  playerid_reverse_lookup p = Py.Ok [] ->
  pid2name playerid_reverse_lookup p = str_of_id p.
Proof. unfold pid2name. by intros ->. Qed.

Lemma pid2name_malformed p per rest :
  playerid_reverse_lookup p = Py.Ok (per :: rest) ->
  name_first per = None \/ name_last per = None ->
  pid2name playerid_reverse_lookup p = str_of_id p.
Proof.
  unfold pid2name. intros ->. destruct per as [[f|] [l|]]; simpl; by intros [|].
Qed.

End NameFacts.

(** C7.  [pid2name] is total.  When the directory returns a first row with
    both names it gives "first last"; when the lookup raises, returns no
    row, or returns a first row lacking a name, it gives [str] of the id as
    the column holds it, which is never empty: the decimal digits for an
    int, the digits and ".0" for a float.  In both logs the name column
    holds [pid2name] of the counterparty id, and the empty string when that
    id is missing.  In a table whose id column has a missing cell the ids
    are floats, so there the fall-back text of id 2 is "2.0". *)
Theorem pid2name_fail_soft
    (argsort : list (option Z) -> list nat)
    (playerid_reverse_lookup : mlbam_id -> Py.result (list person))
    (p : mlbam_id) :
  let fails := fun q : mlbam_id =>
    (exists e, playerid_reverse_lookup q = Py.Raise e)
    \/ playerid_reverse_lookup q = Py.Ok []
    \/ (exists per rest, playerid_reverse_lookup q = Py.Ok (per :: rest)
          /\ (name_first per = None \/ name_last per = None)) in
  (forall first last rest,
     playerid_reverse_lookup p = Py.Ok (Person (Some first) (Some last) :: rest) ->
     pid2name playerid_reverse_lookup p = first +:+ " " +:+ last)
  /\ (fails p -> pid2name playerid_reverse_lookup p = str_of_id p)
  /\ str_of_id p ≠ ""
  /\ (forall n, str_of_id (IntId n) = pretty n
                /\ str_of_id (FloatId n) = pretty n +:+ ".0")
  /\ (forall df team_abbr r,
        r ∈ hr_log argsort playerid_reverse_lookup df team_abbr ->
        Pitcher r
        = Some match pitcher (ev r) with
               | Some q => pid2name playerid_reverse_lookup q
               | None => ""
               end)
  /\ (forall df team_abbr r,
        r ∈ k_log argsort playerid_reverse_lookup df team_abbr ->
        Batter r
        = Some match batter (ev r) with
               | Some q => pid2name playerid_reverse_lookup q
               | None => ""
               end)
  /\ (forall df team_abbr r q,
        id_column ((fun r0 => pitcher (ev r0)) <$> df) = true ->
        (exists r0, r0 ∈ df /\ pitcher (ev r0) = None) ->
        r ∈ hr_log argsort playerid_reverse_lookup df team_abbr ->
        pitcher (ev r) = Some q -> fails q ->
        exists n, q = FloatId n /\ Pitcher r = Some (pretty n +:+ ".0"))
  /\ (forall df team_abbr r q,
        id_column ((fun r0 => batter (ev r0)) <$> df) = true ->
        (exists r0, r0 ∈ df /\ batter (ev r0) = None) ->
        r ∈ k_log argsort playerid_reverse_lookup df team_abbr ->
        batter (ev r) = Some q -> fails q ->
        exists n, q = FloatId n /\ Batter r = Some (pretty n +:+ ".0")).
Proof.
  intros fails.
  assert (forall q, fails q -> pid2name playerid_reverse_lookup q = str_of_id q)
    as Hfails.
  { intros q [[e He] | [He | (per & rest & He & Hn)]].
    - by eapply pid2name_raised.
    - by apply pid2name_unknown.
    - by eapply pid2name_malformed. }
  split_and!.
  - intros first last rest. apply pid2name_found.
  - apply Hfails.
  - apply str_of_id_nonempty.
  - done.
  - intros df team_abbr r (r0 & _ & -> & ->)%hr_log_row. done.
  - intros df team_abbr r (r0 & _ & -> & ->)%k_log_row. done.
  - intros df team_abbr r q Hcol (rn & Hrn & Hnone) (r0 & Hr0 & Hev & HP)%hr_log_row
      Hq Hf.
    rewrite Hev in Hq. rewrite Hq in HP. cbn [counterparty_name] in HP.
    destruct (id_column_missing _ q Hcol) as [n ->].
    + apply list_elem_of_fmap. by exists rn.
    + apply list_elem_of_fmap. by exists r0.
    + exists n. split; [done|]. by rewrite HP, Hfails.
  - intros df team_abbr r q Hcol (rn & Hrn & Hnone) (r0 & Hr0 & Hev & HP)%k_log_row
      Hq Hf.
    rewrite Hev in Hq. rewrite Hq in HP. cbn [counterparty_name] in HP.
    destruct (id_column_missing _ q Hcol) as [n ->].
    + apply list_elem_of_fmap. by exists rn.
    + apply list_elem_of_fmap. by exists r0.
    + exists n. split; [done|]. by rewrite HP, Hfails.
Qed.

Lemma pid2name_fail_soft_witness :
  pid2name lookup_sample (IntId 684007) = "Shota Imanaga"
  /\ pid2name lookup_sample (IntId (-5)) = "-5"
  /\ pid2name lookup_sample (IntId 77) = "77"
  /\ pid2name lookup_sample (FloatId 1) = "1.0"
  /\ (forall r,
        hr_log argsort_insertion lookup_sample float_id_df "NYY" !! 0%nat = Some r ->
        Pitcher r = Some "2.0").
Proof.
  split_and!.
  - destruct (pid2name_fail_soft argsort_insertion lookup_sample (IntId 684007))
      as (H & _).
    by apply (H "Shota" "Imanaga" []).
  - destruct (pid2name_fail_soft argsort_insertion lookup_sample (IntId (-5)))
      as (_ & H & _).
    apply H. left. by exists Py.LookupFailure.
  - destruct (pid2name_fail_soft argsort_insertion lookup_sample (IntId 77))
      as (_ & H & _).
    apply H. right. by left.
  - destruct (pid2name_fail_soft argsort_insertion lookup_sample (FloatId 1))
      as (_ & H & _).
    apply H. right. right. exists (Person None (Some "Doe")), [].
    split; [done | by left].
  - intros r Hr.
    destruct (pid2name_fail_soft argsort_insertion lookup_sample (FloatId 2))
      as (_ & _ & _ & _ & _ & _ & H & _).
    destruct (H float_id_df "NYY" r (FloatId 2)) as (n & Hn & HP).
    + reflexivity.
    + exists (raw_row (Ymd 2025 3 29) (Some "home_run") None (Some (IntId 660271))).
      split; [|done]. apply list_elem_of_further, list_elem_of_here.
    + by eapply list_elem_of_lookup_2.
    + vm_compute in Hr. by injection Hr as <-.
    + right. by left.
    + injection Hn as <-. rewrite HP. by vm_compute.
Defined.

(** C1.  The table is whatever the provider returned for the caller's
    [start] and [end].  For a team other than LAD and CHC, no event of the
    table dated before 2025-03-27 is in the log, for any [start] and [end].
    For LAD and CHC, every event of the table dated 2025-03-18 or
    2025-03-19 that has the target event type is in the log (the log does
    not look at [start] and [end] again), and both days lie before
    2025-03-27.  This holds for home-run logs and strikeout logs alike. *)
Theorem season_window
    (argsort : list (option Z) -> list nat)
    (playerid_reverse_lookup : mlbam_id -> Py.result (list person))
    (statcast_batter statcast_pitcher : string -> string -> string -> DataFrame)
    (pid start end_ : Z) (team_abbr : string) :
  argsort_spec argsort ->
  let batter_df :=
    statcast_batter (Cal.strftime_ymd start) (Cal.strftime_ymd end_) (pretty pid) in
  let pitcher_df :=
    statcast_pitcher (Cal.strftime_ymd start) (Cal.strftime_ymd end_) (pretty pid) in
  let hr_out :=
    fetch_hr_log argsort playerid_reverse_lookup statcast_batter pid start end_ team_abbr in
  let k_out :=
    fetch_k_log argsort playerid_reverse_lookup statcast_pitcher pid start end_ team_abbr in
  (team_abbr ∉ ["LAD"; "CHC"] ->
     (forall r, r ∈ batter_df ->
        to_datetime_ymd (game_date (ev r)) < REGULAR_START -> ev r ∉ ev <$> hr_out)
     /\ (forall r, r ∈ pitcher_df ->
           to_datetime_ymd (game_date (ev r)) < REGULAR_START -> ev r ∉ ev <$> k_out))
  /\ (team_abbr ∈ ["LAD"; "CHC"] ->
        (forall r, r ∈ batter_df ->
           game_date (ev r) = Ymd 2025 3 18 \/ game_date (ev r) = Ymd 2025 3 19 ->
           events (ev r) = Some "home_run" -> ev r ∈ ev <$> hr_out)
        /\ (forall r, r ∈ pitcher_df ->
              game_date (ev r) = Ymd 2025 3 18 \/ game_date (ev r) = Ymd 2025 3 19 ->
              events (ev r) = Some "strikeout" -> ev r ∈ ev <$> k_out))
  /\ to_datetime_ymd (Ymd 2025 3 18) < REGULAR_START
  /\ to_datetime_ymd (Ymd 2025 3 19) < REGULAR_START
  /\ REGULAR_START = to_datetime_ymd (Ymd 2025 3 27).
Proof.
  intros Hsort batter_df pitcher_df hr_out k_out.
  assert (forall target df r,
            team_abbr ∉ ["LAD"; "CHC"] ->
            to_datetime_ymd (game_date (ev r)) < REGULAR_START ->
            ev r ∉ ev <$> retained target team_abbr df) as Hhome.
  { intros target df r Hteam Hlt (r' & Hev & Hin)%list_elem_of_fmap.
    pose proof (retained_kept target team_abbr df) as Hk.
    rewrite Forall_forall in Hk. destruct (Hk _ Hin) as (Hd & Hm & _).
    destruct (season_mask_home _ _ Hteam Hm) as (t & Ht & Hge).
    rewrite Hd in Ht. injection Ht as <-. rewrite <- Hev in Hge. lia. }
  assert (forall target df r,
            team_abbr ∈ ["LAD"; "CHC"] -> r ∈ df ->
            game_date (ev r) = Ymd 2025 3 18 \/ game_date (ev r) = Ymd 2025 3 19 ->
            events (ev r) = Some target ->
            ev r ∈ ev <$> retained target team_abbr df) as Htokyo.
  { intros target df r Hteam Hin Hday Hev.
    apply list_elem_of_fmap.
    exists (set_Date (Some (to_datetime_ymd (game_date (ev r)))) r).
    split; [done|]. apply retained_row. exists r. split_and!; try done.
    eapply season_mask_tokyo; [done | done |].
    simpl. destruct Hday as [-> | ->]; [by left | by right]. }
  split_and!.
  - intros Hteam. split; intros r Hin Hlt.
    + unfold hr_out, fetch_hr_log. rewrite hr_log_events by done. by apply Hhome.
    + unfold k_out, fetch_k_log. rewrite k_log_events by done. by apply Hhome.
  - intros Hteam. split; intros r Hin Hday Hev.
    + unfold hr_out, fetch_hr_log. rewrite hr_log_events by done. by apply Htokyo.
    + unfold k_out, fetch_k_log. rewrite k_log_events by done. by apply Htokyo.
  - by vm_compute.
  - by vm_compute.
  - reflexivity.
Qed.

Lemma season_window_witness :
  let opener :=
    raw_row (Ymd 2025 3 19) (Some "home_run") None (Some (IntId 660271)) in
  let spring :=
    raw_row (Ymd 2025 3 25) (Some "strikeout") (Some (FloatId 2))
      (Some (IntId 660271)) in
  ev opener ∈ ev <$> fetch_hr_log argsort_insertion lookup_sample sample_provider
                       660271 TOKYO_START (Cal.datetime 2025 4 30) "LAD"
  /\ ev spring ∉ ev <$> fetch_k_log argsort_insertion lookup_sample sample_provider
                          660271 TOKYO_START (Cal.datetime 2025 4 30) "NYY".
Proof.
  intros opener spring. split.
  - destruct (season_window argsort_insertion lookup_sample sample_provider
                sample_provider 660271 TOKYO_START (Cal.datetime 2025 4 30) "LAD"
                argsort_insertion_spec) as (_ & H & _).
    destruct H as [H _]; [by apply list_elem_of_here|].
    apply H; [|by right | done].
    unfold sample_provider, sample_df. do 2 apply list_elem_of_further.
    apply list_elem_of_here.
  - destruct (season_window argsort_insertion lookup_sample sample_provider
                sample_provider 660271 TOKYO_START (Cal.datetime 2025 4 30) "NYY"
                argsort_insertion_spec) as (H & _).
    destruct H as [_ H].
    { intros Hin. repeat (apply elem_of_cons in Hin as [Hin|Hin]; [discriminate|]).
      by apply elem_of_nil in Hin. }
    apply H; [|by vm_compute].
    unfold sample_provider, sample_df. apply list_elem_of_further, list_elem_of_here.
Defined.

(** C2.  In a home-run log the column [HR No], and in a strikeout log the
    column [K No], reads 1, 2, ..., n from top to bottom, where n is the
    number of rows, which is the number of retained events; the row at
    position i (from 0) carries i + 1 and is the event at position i of the
    date-sorted retained frame.  (An empty log has no such column; the
    statement is then about an empty list.) *)
Theorem sequence_numbering
    (argsort : list (option Z) -> list nat)
    (playerid_reverse_lookup : mlbam_id -> Py.result (list person))
    (df : DataFrame) (team_abbr : string) :
  argsort_spec argsort ->
  let hr_out := hr_log argsort playerid_reverse_lookup df team_abbr in
  let k_out := k_log argsort playerid_reverse_lookup df team_abbr in
  (HR_No <$> hr_out = Some <$> seqZ 1 (Z.of_nat (length hr_out))
   /\ length hr_out = length (retained "home_run" team_abbr df)
   /\ ev <$> hr_out
      = ev <$> sort_values_Date argsort (retained "home_run" team_abbr df)
   /\ forall i r, hr_out !! i = Some r -> HR_No r = Some (Z.of_nat i + 1))
  /\ (K_No <$> k_out = Some <$> seqZ 1 (Z.of_nat (length k_out))
      /\ length k_out = length (retained "strikeout" team_abbr df)
      /\ ev <$> k_out
         = ev <$> sort_values_Date argsort (retained "strikeout" team_abbr df)
      /\ forall i r, k_out !! i = Some r -> K_No r = Some (Z.of_nat i + 1)).
Proof.
  intros Hsort hr_out k_out. unfold hr_out, k_out. split; split_and!.
  - rewrite hr_log_eq, length_imap. by apply imap_numbered.
  - by rewrite hr_log_eq, length_imap, sort_values_length.
  - rewrite hr_log_eq. by apply imap_column.
  - intros i r. rewrite hr_log_eq, list_lookup_imap.
    destruct (_ !! i) as [r'|]; [|done]. by intros [= <-].
  - rewrite k_log_eq, length_imap. by apply imap_numbered.
  - by rewrite k_log_eq, length_imap, sort_values_length.
  - rewrite k_log_eq. by apply imap_column.
  - intros i r. rewrite k_log_eq, list_lookup_imap.
    destruct (_ !! i) as [r'|]; [|done]. by intros [= <-].
Qed.

Lemma sequence_numbering_witness :
  HR_No <$> hr_log argsort_insertion lookup_sample sample_df "LAD" = [Some 1; Some 2]
  /\ K_No <$> k_log argsort_insertion lookup_sample sample_df "LAD" = [Some 1].
Proof.
  destruct (sequence_numbering argsort_insertion lookup_sample sample_df "LAD"
              argsort_insertion_spec) as [(Hhr & _) (Hk & _)].
  split.
  - etrans; [exact Hhr|]. by vm_compute.
  - etrans; [exact Hk|]. by vm_compute.
Defined.

(** ** Order of equal dates *)

Section SortedLists.

Context {A : Type}.

Lemma StronglySorted_mono (R1 R2 : relation A) l :
  (forall x y, R1 x y -> R2 x y) -> StronglySorted R1 l -> StronglySorted R2 l.
Proof.
  intros H. induction 1 as [|x l _ IH Hx]; constructor; [done|].
  eapply Forall_impl; [done|]. auto.
Qed.

Lemma StronglySorted_and (R1 R2 : relation A) l :
  StronglySorted R1 l -> StronglySorted R2 l ->
  StronglySorted (fun x y => R1 x y /\ R2 x y) l.
Proof.
  induction 1 as [|x l _ IH Hx]; intros H2; [constructor|].
  apply StronglySorted_inv in H2 as [H2 Hx2].
  constructor; [by apply IH|].
  rewrite Forall_forall in *. auto.
Qed.

Lemma StronglySorted_filter (R : relation A) (P : A -> Prop)
    `{forall x, Decision (P x)} l :
  StronglySorted R l -> StronglySorted R (filter P l).
Proof.
  induction 1 as [|x l _ IH Hx]; [constructor|].
  rewrite filter_cons. case_decide; [|done].
  constructor; [done|].
  apply Forall_forall. intros y [_ Hy]%list_elem_of_filter.
  rewrite Forall_forall in Hx. auto.
Qed.

Lemma StronglySorted_fmap_inv {B} (f : A -> B) (R : relation B) l :
  StronglySorted R (f <$> l) -> StronglySorted (fun x y => R (f x) (f y)) l.
Proof.
  induction l as [|x l IH]; [constructor|]. csimpl.
  intros [Hs Hx]%StronglySorted_inv. constructor; [by apply IH|].
  rewrite Forall_fmap in Hx. exact Hx.
Qed.

Lemma Sorted_fmap_inv {B} (f : A -> B) (R : relation B) l :
  Sorted R (f <$> l) -> Sorted (fun x y => R (f x) (f y)) l.
Proof.
  induction l as [|x l IH]; [constructor|]. csimpl.
  intros [Hs Hx]%Sorted_inv. constructor; [by apply IH|].
  destruct l; csimpl in *; constructor. by apply HdRel_inv in Hx.
Qed.

Lemma filter_take_items (P : A -> Prop) `{forall x, Decision (P x)}
    (idx : list nat) (l : list A) :
  filter P (take_items idx l)
  = take_items (filter (fun i => from_option P False (l !! i)) idx) l.
Proof.
  unfold take_items. induction idx as [|i idx IH]; [done|].
  rewrite (filter_cons (fun i => from_option P False (l !! i))).
  case_decide as Hi; csimpl; destruct (l !! i) as [x|] eqn:E; csimpl in *;
    try done.
  - rewrite filter_cons, decide_True by done. by rewrite IH.
  - rewrite filter_cons, decide_False by done. by rewrite IH.
Qed.

End SortedLists.

Lemma seq_increasing j n : StronglySorted lt (seq j n).
Proof.
  revert j; induction n as [|n IH]; intros j; [constructor|]. simpl.
  constructor; [apply IH|].
  apply Forall_forall. intros i ?%elem_of_seq. lia.
Qed.

Lemma perm_seq_valid (idx : list nat) n :
  idx ≡ₚ seq 0 n -> Forall (fun i => (i < n)%nat) idx.
Proof.
  intros Hp. apply Forall_forall. intros i Hi. rewrite Hp in Hi.
  apply elem_of_seq in Hi. lia.
Qed.

Section SortAgain.

Variable argsort : list (option Z) -> list nat.
Hypothesis argsort_ok : argsort_spec argsort.

Local Abbreviation key_le keys :=
  (fun i j : nat => date_le (keys !!! i) (keys !!! j)).

Lemma argsort_key_le keys : StronglySorted (key_le keys) (argsort keys).
Proof.
  destruct (argsort_ok keys) as [Hp Hs].
  rewrite take_items_total in Hs by by apply perm_seq_valid.
  apply (StronglySorted_fmap_inv (fun i => keys !!! i) date_le).
  apply Sorted_StronglySorted; [apply date_le_trans | done].
Qed.

Lemma seq_key_le keys :
  Sorted date_le keys -> StronglySorted (key_le keys) (seq 0 (length keys)).
Proof.
  intros Hs. apply (StronglySorted_fmap_inv (fun i => keys !!! i) date_le).
  rewrite <- take_items_total, take_items_seq.
  - apply Sorted_StronglySorted; [apply date_le_trans | done].
  - apply Forall_forall. intros i ?%elem_of_seq. lia.
Qed.

Lemma lookup_total_eq (keys : list (option Z)) i j :
  (i < length keys)%nat -> (j < length keys)%nat ->
  keys !!! i = keys !!! j -> keys !! i = keys !! j.
Proof.
  intros Hi Hj Heq.
  destruct (lookup_lt_is_Some_2 keys i Hi) as [a Ha].
  destruct (lookup_lt_is_Some_2 keys j Hj) as [b Hb].
  rewrite (list_lookup_total_correct _ _ _ Ha) in Heq.
  rewrite (list_lookup_total_correct _ _ _ Hb) in Heq. congruence.
Qed.

(** Keys that already ascend and are pairwise distinct stay in place. *)
Lemma argsort_sorted_distinct keys :
  Sorted date_le keys -> NoDup keys -> argsort keys = seq 0 (length keys).
Proof.
  intros Hs Hnd. destruct (argsort_ok keys) as [Hp _].
  eapply (StronglySorted_unique_strong (key_le keys));
    [| apply argsort_key_le | by apply seq_key_le | done].
  intros i j Hi Hj Hij Hji. rewrite Hp in Hi.
  apply elem_of_seq in Hi, Hj.
  pose proof (date_le_antisym _ _ Hij Hji) as Heq.
  apply lookup_total_eq in Heq; [|lia..].
  destruct (lookup_lt_is_Some_2 keys i) as [a Ha]; [lia|].
  eapply NoDup_lookup; [done | done | congruence].
Qed.

(** A stable routine leaves ascending keys in place. *)
Lemma argsort_sorted_stable keys :
  argsort_stable argsort ->
  Sorted date_le keys -> argsort keys = seq 0 (length keys).
Proof.
  intros Hst Hs. destruct (argsort_ok keys) as [Hp _].
  eapply (StronglySorted_unique_strong
            (fun i j => key_le keys i j
                        /\ (keys !! i = keys !! j -> (i < j)%nat)));
    [| apply StronglySorted_and; [apply argsort_key_le | apply Hst]
     | apply StronglySorted_and; [by apply seq_key_le|]
     | done].
  - intros i j Hi Hj [Hij Hlt] [Hji Hgt]. rewrite Hp in Hi.
    apply elem_of_seq in Hi, Hj.
    pose proof (date_le_antisym _ _ Hij Hji) as Heq.
    apply lookup_total_eq in Heq; [|lia..].
    specialize (Hlt Heq). symmetry in Heq. specialize (Hgt Heq). lia.
  - eapply StronglySorted_mono; [|apply seq_increasing]. by intros i j ? _.
Qed.

(** With a stable routine the events of each day come out in table
    order. *)
Lemma stable_on_day target team_abbr df t :
  argsort_stable argsort ->
  on_day t (ev <$> sort_values_Date argsort (retained target team_abbr df))
  = on_day t (ev <$> retained target team_abbr df).
Proof.
  intros Hst. set (rows := retained target team_abbr df).
  destruct (argsort_ok (Date <$> rows)) as [Hp _].
  rewrite length_fmap in Hp.
  unfold sort_values_Date, on_day. rewrite take_items_fmap.
  rewrite <- (take_items_seq (ev <$> rows)) at 2.
  rewrite !filter_take_items, length_fmap. f_equal.
  set (Q := fun i => from_option _ False ((ev <$> rows) !! i)).
  assert (forall i, Q i -> (Date <$> rows) !! i = Some (Some t)) as HQ.
  { intros i. unfold Q. rewrite !list_lookup_fmap.
    destruct (rows !! i) as [r|] eqn:Er; [|done]. simpl. intros <-.
    pose proof (retained_kept target team_abbr df) as Hk.
    eapply Forall_lookup_1 in Hk as [Hd _]; [|exact Er]. by rewrite Hd. }
  apply (StronglySorted_unique_strong lt); [intros; lia | | |].
  - eapply StronglySorted_mono;
      [| apply (StronglySorted_with Q);
         [| apply StronglySorted_filter, (Hst (Date <$> rows))]].
    + intros i j (Hi & Hj & Hlt). apply Hlt. by rewrite !HQ.
    + apply Forall_forall. by intros i [? _]%list_elem_of_filter.
  - apply StronglySorted_filter, seq_increasing.
  - by rewrite Hp.
Qed.

End SortAgain.

Section LogOrder.

Variable argsort : list (option Z) -> list nat.
Variable playerid_reverse_lookup : mlbam_id -> Py.result (list person).
Hypothesis argsort_ok : argsort_spec argsort.

Local Abbreviation day := (fun r : Row => to_datetime_ymd (game_date (ev r))).

Lemma kept_dates target team_abbr (l : list Row) :
  Forall (kept target team_abbr) l -> Date <$> l = Some <$> (day <$> l).
Proof.
  intros Hk. rewrite <- list_fmap_compose. apply list_fmap_ext.
  intros i r Hr. eapply Forall_lookup_1 in Hk as [Hd _]; [|done]. by rewrite Hd.
Qed.

Lemma sorted_days (l : list Z) : Sorted date_le (Some <$> l) -> Sorted Z.le l.
Proof. intros H. exact (Sorted_fmap_inv Some date_le l H). Qed.

Lemma hr_log_dates df team_abbr :
  Date <$> hr_log argsort playerid_reverse_lookup df team_abbr
  = Date <$> sort_values_Date argsort (retained "home_run" team_abbr df).
Proof. rewrite hr_log_eq. by apply imap_column. Qed.

Lemma k_log_dates df team_abbr :
  Date <$> k_log argsort playerid_reverse_lookup df team_abbr
  = Date <$> sort_values_Date argsort (retained "strikeout" team_abbr df).
Proof. rewrite k_log_eq. by apply imap_column. Qed.

Lemma hr_log_ascending df team_abbr :
  Sorted Z.le (day <$> hr_log argsort playerid_reverse_lookup df team_abbr).
Proof.
  apply sorted_days.
  rewrite <- (kept_dates "home_run" team_abbr) by by apply hr_log_kept.
  rewrite hr_log_dates. by apply sort_values_sorted.
Qed.

Lemma k_log_ascending df team_abbr :
  Sorted Z.le (day <$> k_log argsort playerid_reverse_lookup df team_abbr).
Proof.
  apply sorted_days.
  rewrite <- (kept_dates "strikeout" team_abbr) by by apply k_log_kept.
  rewrite k_log_dates. by apply sort_values_sorted.
Qed.

(** The second pass over a home-run log sorts that very log and fills the
    same columns again. *)
Lemma hr_log_again out team_abbr :
  Forall (kept "home_run" team_abbr) out ->
  hr_log argsort playerid_reverse_lookup out team_abbr
  = imap (hr_columns playerid_reverse_lookup) (sort_values_Date argsort out).
Proof. intros Hk. by rewrite hr_log_eq, kept_retained. Qed.

Lemma hr_log_fixed out X team_abbr :
  out = imap (hr_columns playerid_reverse_lookup) X ->
  Forall (kept "home_run" team_abbr) out ->
  argsort (Date <$> out) = seq 0 (length out) ->
  hr_log argsort playerid_reverse_lookup out team_abbr = out.
Proof.
  intros HX Hk Hid. rewrite hr_log_again by done.
  unfold sort_values_Date. rewrite Hid, take_items_seq.
  rewrite HX. apply imap_idemp. by intros i [].
Qed.

End LogOrder.

(** C3 (as the code has it).  Both logs are in ascending date order: the
    [Date] column holds the day of each row and these days ascend; and the
    log holds exactly the retained events, rearranged.  The order of events
    of one day is the table order whenever the routine that orders the keys
    is stable; [sort_values] is called without asking for that. *)
Theorem date_sort_ascending
    (argsort : list (option Z) -> list nat)
    (playerid_reverse_lookup : mlbam_id -> Py.result (list person))
    (df : DataFrame) (team_abbr : string) :
  argsort_spec argsort ->
  let day := fun r : Row => to_datetime_ymd (game_date (ev r)) in
  let hr_out := hr_log argsort playerid_reverse_lookup df team_abbr in
  let k_out := k_log argsort playerid_reverse_lookup df team_abbr in
  (Date <$> hr_out = Some <$> (day <$> hr_out)
   /\ Sorted Z.le (day <$> hr_out)
   /\ ev <$> hr_out ≡ₚ ev <$> retained "home_run" team_abbr df
   /\ (argsort_stable argsort ->
       forall t, on_day t (ev <$> hr_out)
                 = on_day t (ev <$> retained "home_run" team_abbr df)))
  /\ (Date <$> k_out = Some <$> (day <$> k_out)
      /\ Sorted Z.le (day <$> k_out)
      /\ ev <$> k_out ≡ₚ ev <$> retained "strikeout" team_abbr df
      /\ (argsort_stable argsort ->
          forall t, on_day t (ev <$> k_out)
                    = on_day t (ev <$> retained "strikeout" team_abbr df))).
Proof.
  intros Hsort day hr_out k_out. unfold hr_out, k_out. split; split_and!.
  - apply (kept_dates "home_run" team_abbr). by apply hr_log_kept.
  - by apply hr_log_ascending.
  - by apply hr_log_events.
  - intros Hst t. rewrite hr_log_eq, (imap_column _ ev ev) by done.
    by apply stable_on_day.
  - apply (kept_dates "strikeout" team_abbr). by apply k_log_kept.
  - by apply k_log_ascending.
  - by apply k_log_events.
  - intros Hst t. rewrite k_log_eq, (imap_column _ ev ev) by done.
    by apply stable_on_day.
Qed.

Lemma date_sort_ascending_witness :
  on_day (Cal.datetime 2025 4 1)
    (ev <$> hr_log argsort_insertion lookup_sample same_day_df "NYY")
  = ev <$> same_day_df
  /\ Sorted Z.le
       ((fun r => to_datetime_ymd (game_date (ev r)))
          <$> hr_log argsort_ties_reversed lookup_sample sample_df "LAD").
Proof.
  split.
  - destruct (date_sort_ascending argsort_insertion lookup_sample same_day_df "NYY"
                argsort_insertion_spec) as [(_ & _ & _ & H) _].
    etrans; [apply H, argsort_insertion_stable|]. by vm_compute.
  - by destruct (date_sort_ascending argsort_ties_reversed lookup_sample sample_df
                   "LAD" argsort_ties_reversed_spec) as [(_ & H & _) _].
Defined.

(** C3 as stated fails on the code.  Take 20 home runs of one day, off the
    pitchers 1, 2, ..., 20 in table order.  All of them are retained, all
    carry the same date, and [sort_values('Date')], ordering the keys the
    way its default [kind] does, returns them in another order than the
    table has them: the events of that day in the log are not the events of
    that day in table order. *)
Lemma date_sort_ties_not_kept :
  ev <$> retained "home_run" "NYY" (same_day_rows 20) = ev <$> same_day_rows 20
  /\ Date <$> hr_log Npy.nargsort lookup_sample (same_day_rows 20) "NYY"
     = replicate 20 (Some (Cal.datetime 2025 4 1))
  /\ pitcher_ids (same_day_rows 20) = Some <$> seqZ 1 20
  /\ pitcher_ids (hr_log Npy.nargsort lookup_sample (same_day_rows 20) "NYY")
     ≡ₚ pitcher_ids (same_day_rows 20)
  /\ pitcher_ids (hr_log Npy.nargsort lookup_sample (same_day_rows 20) "NYY")
     ≠ pitcher_ids (same_day_rows 20)
  /\ on_day (Cal.datetime 2025 4 1)
       (ev <$> hr_log Npy.nargsort lookup_sample (same_day_rows 20) "NYY")
     ≠ on_day (Cal.datetime 2025 4 1)
         (ev <$> retained "home_run" "NYY" (same_day_rows 20)).
Proof.
  split_and!.
  - by vm_compute.
  - by vm_compute.
  - by vm_compute.
  - apply (bool_decide_unpack _). by vm_compute.
  - intros H. vm_compute in H. discriminate H.
  - intros H. vm_compute in H. discriminate H.
Qed.

(** C9 (as the code has it).  Running the home-run body on its own output
    keeps every row: the second log has the same length, the same events up
    to order, and row by row the same date and the same [HR No].  It is the
    first log itself when no two rows of the log share a date, and also
    when the routine that orders the keys is stable. *)
Theorem hr_log_twice
    (argsort : list (option Z) -> list nat)
    (playerid_reverse_lookup : mlbam_id -> Py.result (list person))
    (df : DataFrame) (team_abbr : string) :
  argsort_spec argsort ->
  let out := hr_log argsort playerid_reverse_lookup df team_abbr in
  let again := hr_log argsort playerid_reverse_lookup out team_abbr in
  length again = length out
  /\ ev <$> again ≡ₚ ev <$> out
  /\ Date <$> again = Date <$> out
  /\ HR_No <$> again = HR_No <$> out
  /\ (NoDup (Date <$> out) -> again = out)
  /\ (argsort_stable argsort -> again = out).
Proof.
  intros Hsort out again.
  assert (Forall (kept "home_run" team_abbr) out) as Hk by by apply hr_log_kept.
  assert (again
          = imap (hr_columns playerid_reverse_lookup) (sort_values_Date argsort out))
    as Hagain by by apply hr_log_again.
  assert (Sorted date_le (Date <$> out)) as Hasc.
  { unfold out. rewrite hr_log_dates. by apply sort_values_sorted. }
  assert (length again = length out) as Hlen.
  { by rewrite Hagain, length_imap, sort_values_length. }
  split_and!.
  - done.
  - rewrite Hagain, (imap_column _ ev ev) by done. by rewrite sort_values_perm.
  - apply (StronglySorted_unique_strong date_le).
    + intros a b _ _. apply date_le_antisym.
    + apply Sorted_StronglySorted; [apply date_le_trans|].
      unfold again. rewrite hr_log_dates. by apply sort_values_sorted.
    + apply Sorted_StronglySorted; [apply date_le_trans | done].
    + rewrite Hagain, (imap_column _ Date Date) by done. by rewrite sort_values_perm.
  - assert (forall l,
              HR_No <$> imap (hr_columns playerid_reverse_lookup) l
              = Some <$> seqZ 1 (Z.of_nat (length l))) as Hnum
      by (intros l; by apply imap_numbered).
    rewrite Hagain, Hnum, sort_values_length by done.
    unfold out. by rewrite hr_log_eq, Hnum, length_imap.
  - intros Hnd.
    eapply hr_log_fixed; [apply hr_log_eq | done |].
    rewrite <- (length_fmap Date). by apply argsort_sorted_distinct.
  - intros Hst.
    eapply hr_log_fixed; [apply hr_log_eq | done |].
    rewrite <- (length_fmap Date). by apply argsort_sorted_stable.
Qed.

Lemma hr_log_twice_witness :
  hr_log argsort_ties_reversed lookup_sample
    (hr_log argsort_ties_reversed lookup_sample sample_df "LAD") "LAD"
  = hr_log argsort_ties_reversed lookup_sample sample_df "LAD"
  /\ hr_log argsort_insertion lookup_sample
       (hr_log argsort_insertion lookup_sample same_day_df "NYY") "NYY"
     = hr_log argsort_insertion lookup_sample same_day_df "NYY".
Proof.
  split.
  - destruct (hr_log_twice argsort_ties_reversed lookup_sample sample_df "LAD"
                argsort_ties_reversed_spec) as (_ & _ & _ & _ & H & _).
    apply H. vm_compute.
    repeat constructor; intros Hin;
      repeat (apply elem_of_cons in Hin as [Hin|Hin]; [discriminate|]);
      by apply elem_of_nil in Hin.
  - destruct (hr_log_twice argsort_insertion lookup_sample same_day_df "NYY"
                argsort_insertion_spec) as (_ & _ & _ & _ & _ & H).
    apply H, argsort_insertion_stable.
Defined.

(** C9 as stated fails on the code.  On the 20 home runs of one day the
    second pass sorts the rows of the first log again, and the default
    [kind] of [sort_values] moves rows of equal date once more: the second
    log is not the first one.  Both logs hold the same home runs. *)
Lemma hr_log_twice_differs :
  hr_log Npy.nargsort lookup_sample
    (hr_log Npy.nargsort lookup_sample (same_day_rows 20) "NYY") "NYY"
  ≠ hr_log Npy.nargsort lookup_sample (same_day_rows 20) "NYY"
  /\ pitcher_ids
       (hr_log Npy.nargsort lookup_sample
          (hr_log Npy.nargsort lookup_sample (same_day_rows 20) "NYY") "NYY")
     ≠ pitcher_ids (hr_log Npy.nargsort lookup_sample (same_day_rows 20) "NYY")
  /\ length (hr_log Npy.nargsort lookup_sample
               (hr_log Npy.nargsort lookup_sample (same_day_rows 20) "NYY") "NYY")
     = 20%nat.
Proof.
  assert (pitcher_ids
            (hr_log Npy.nargsort lookup_sample
               (hr_log Npy.nargsort lookup_sample (same_day_rows 20) "NYY") "NYY")
          ≠ pitcher_ids (hr_log Npy.nargsort lookup_sample (same_day_rows 20) "NYY"))
    as Hne.
  { intros H. vm_compute in H. discriminate H. }
  split_and!.
  - intros H. apply Hne. by rewrite H.
  - exact Hne.
  - by vm_compute.
Qed.

(** * Properties of the rest of the script *)

(** ** Feed entries and the news list *)

Section MoreNewsFacts.

Lemma rss_loop_ok entries articles result :
  rss_loop entries articles = inr result ->
  exists added, result = articles ++ added
    /\ Forall2 (fun e a => entry_article e = inr a) entries added.
Proof.
  revert articles; induction entries as [|e rest IH]; intros articles; simpl.
  - intros [= <-]. exists []. by rewrite app_nil_r.
  - destruct (entry_article e) as [err|a] eqn:E; [done|].
    intros (added & -> & Hall)%IH. exists (a :: added).
    rewrite <- app_assoc. split; [done | by constructor].
Qed.

Lemma rss_loop_err entries articles err :
  rss_loop entries articles = inl err ->
  exists pre e post, entries = pre ++ e :: post
    /\ Forall (fun e' => exists a, entry_article e' = inr a) pre
    /\ entry_article e = inl err.
Proof.
  revert articles; induction entries as [|e rest IH]; intros articles; simpl; [done|].
  destruct (entry_article e) as [err'|a] eqn:E.
  - intros [= <-]. by exists [], e, rest.
  - intros (pre & e' & post & -> & Hpre & He)%IH.
    exists (e :: pre), e', post. split_and!; [done | | done].
    constructor; [by exists a | done].
Qed.

Lemma first_by_link_app l1 l2 seen :
  first_by_link (l1 ++ l2) seen
  = first_by_link l1 seen
    ++ first_by_link l2 (seen ∪ list_to_set (link <$> l1)).
Proof.
  revert seen; induction l1 as [|x l1 IH]; intros seen; csimpl.
  - by rewrite (right_id_L ∅ (∪)).
  - case_decide as Hx; rewrite IH.
    + assert (seen ∪ ({[link x]} ∪ list_to_set (link <$> l1))
              = seen ∪ list_to_set (link <$> l1)) as -> by set_solver.
      done.
    + assert (seen ∪ ({[link x]} ∪ list_to_set (link <$> l1))
              = {[link x]} ∪ seen ∪ list_to_set (link <$> l1)) as -> by set_solver.
      done.
Qed.

Lemma first_by_link_id l seen :
  NoDup (link <$> l) -> (forall a, a ∈ l -> link a ∉ seen) ->
  first_by_link l seen = l.
Proof.
  revert seen; induction l as [|x l IH]; intros seen Hnd Hfresh; [done|].
  csimpl in Hnd. apply NoDup_cons in Hnd as [Hx Hnd]. simpl.
  rewrite decide_False by (apply Hfresh; by left). f_equal.
  apply IH; [done|]. intros a Ha [Heq%elem_of_singleton | Hin]%elem_of_union.
  - apply Hx. apply list_elem_of_fmap. by exists a.
  - eapply Hfresh; [by right | done].
Qed.

Lemma first_by_link_nil l :
  first_by_link l ∅ = [] -> l = [].
Proof. destruct l as [|x l]; [done|]. simpl. by rewrite decide_False by set_solver. Qed.

Lemma filter_valid_nil l :
  List.filter is_valid_news l = [] <-> Forall (fun a => is_valid_news a = false) l.
Proof.
  induction l as [|x l IH]; simpl; [by split; [constructor|]|].
  destruct (is_valid_news x) eqn:E.
  - split; [done | by intros [? _]%Forall_cons; congruence].
  - rewrite IH. split; [by constructor | by intros [_ ?]%Forall_cons].
Qed.

Lemma latest_news_valid l : Forall (fun a => is_valid_news a = true) (latest_news l).
Proof.
  apply Forall_forall. intros a. rewrite latest_news_eq. unfold filterAndDedupe.
  intros Hin%subseteq_take. by apply first_by_link_first in Hin as [? _].
Qed.

Lemma latest_news_links l : NoDup (link <$> latest_news l).
Proof.
  rewrite latest_news_eq. unfold filterAndDedupe. rewrite fmap_take.
  eapply sublist_NoDup; [apply first_by_link_NoDup | apply sublist_take].
Qed.

Lemma isspace_lower_char c : Str.isspace (Str.lower_char c) = Str.isspace c.
Proof. by destruct c as [[] [] [] [] [] [] [] []]. Qed.

Lemma blank_lower s : Str.blank (Str.lower s) <-> Str.blank s.
Proof.
  induction s as [|c s IH]; simpl; [done|].
  by rewrite isspace_lower_char, IH.
Qed.

Lemma append_nonempty s t : t ≠ "" -> s +:+ t ≠ "".
Proof. destruct s; [done|]. intros _. by rewrite app_cons. Qed.

Lemma take_empty n s : Str.take (S n) s = "" <-> s = "".
Proof. destruct s; simpl; by split. Qed.

End MoreNewsFacts.

(** X1.  [fetch_mlb_news_rss] either returns one article per feed entry, in
    feed order, with the entry's title and link and with '' for a summary
    or publication text the entry does not carry; or it raises at the first
    entry that lacks a title (or, having a title, lacks a link), naming that
    attribute.  Nothing is dropped silently. *)
Theorem fetch_mlb_news_rss_result (entries : list feed_entry) :
  match fetch_mlb_news_rss entries with
  | inr articles =>
      Forall2
        (fun e a =>
           entry_title e = Some (title a) /\ entry_link e = Some (link a)
           /\ summary a = default "" (entry_summary e)
           /\ published a = default "" (entry_published e))
        entries articles
  | inl err =>
      exists pre e post,
        entries = pre ++ e :: post
        /\ Forall (fun e' => is_Some (entry_title e') /\ is_Some (entry_link e')) pre
        /\ (entry_title e = None /\ err = AttributeError "title"
            \/ is_Some (entry_title e) /\ entry_link e = None
               /\ err = AttributeError "link")
  end.
Proof.
  unfold fetch_mlb_news_rss.
  destruct (rss_loop entries []) as [err|articles] eqn:E.
  - apply rss_loop_err in E as (pre & e & post & -> & Hpre & He).
    exists pre, e, post. split_and!; [done | |].
    + eapply Forall_impl; [done|]. intros e' [a Ha]. unfold entry_article in Ha.
      destruct (entry_title e'); [|done]. by destruct (entry_link e').
    + unfold entry_article in He. destruct (entry_title e) as [t|].
      * destruct (entry_link e); [done|]. right. injection He as <-. eauto.
      * left. injection He as <-. done.
  - apply rss_loop_ok in E as (added & -> & Hall). simpl.
    eapply Forall2_impl; [done|]. intros e a Ha. unfold entry_article in Ha.
    destruct (entry_title e) as [t|]; [|done].
    destruct (entry_link e) as [l|]; [|done].
    injection Ha as <-. simpl. by destruct (entry_summary e), (entry_published e).
Qed.

(** X2.  The sidebar's list is empty, so that the "No valid MLB news"
    notice is shown, exactly when no article of the feed is valid. *)
Theorem latest_news_empty_iff (news_list : list article) :
  latest_news news_list = []
  <-> Forall (fun a => is_valid_news a = false) news_list.
Proof.
  rewrite latest_news_eq, <- filter_valid_nil. unfold filterAndDedupe. split.
  - intros H. apply first_by_link_nil.
    destruct (first_by_link _ ∅); [done | discriminate].
  - by intros ->.
Qed.

(** X3.  Running the sidebar loop on its own result returns that result. *)
Theorem latest_news_idempotent (news_list : list article) :
  latest_news (latest_news news_list) = latest_news news_list.
Proof.
  rewrite (latest_news_eq (latest_news news_list)). unfold filterAndDedupe.
  rewrite filter_all by apply latest_news_valid.
  rewrite first_by_link_id; [| apply latest_news_links | set_solver].
  apply take_ge. rewrite latest_news_eq. unfold filterAndDedupe.
  rewrite length_take. unfold news_limit. lia.
Qed.

(** X4.  Articles added at the end of the feed never change what was
    already chosen: the list for the shorter feed is a prefix of the list
    for the longer one, and once three articles are chosen the list stays
    as it is. *)
Theorem latest_news_feed_extension (news_list more : list article) :
  latest_news news_list `prefix_of` latest_news (news_list ++ more)
  /\ (length (latest_news news_list) = 3%nat ->
      latest_news (news_list ++ more) = latest_news news_list).
Proof.
  rewrite !latest_news_eq. unfold filterAndDedupe, news_limit.
  rewrite List.filter_app, first_by_link_app.
  set (A := first_by_link (List.filter is_valid_news news_list) ∅).
  set (B := first_by_link _ _).
  destruct (decide (3 <= length A)%nat) as [Hge|Hlt].
  - rewrite take_app_le by done. split; [done|]. done.
  - rewrite take_app_ge, (take_ge A) by lia. split.
    + by apply prefix_app_r.
    + intros ?. lia.
Qed.

Lemma latest_news_feed_extension_witness :
  latest_news (sample_feed ++ [Article "Late entry" "l9" "More notes" ""])
  = latest_news sample_feed.
Proof.
  apply (proj2 (latest_news_feed_extension sample_feed
                  [Article "Late entry" "l9" "More notes" ""])).
  by vm_compute.
Defined.

(** X5.  Validity depends on the title and the summary only through their
    lower-cased text: two articles whose titles and summaries agree up to
    letter case, whatever their links and publication texts, are both valid
    or both rejected. *)
Theorem is_valid_news_case_insensitive (a b : article) :
  Str.lower (title a) = Str.lower (title b) ->
  Str.lower (summary a) = Str.lower (summary b) ->
  is_valid_news a = is_valid_news b.
Proof.
  intros Ht Hs.
  assert (is_valid_news a = false <-> is_valid_news b = false) as Hiff.
  { rewrite !is_valid_news_false, !lower_app, Ht, Hs.
    rewrite <- (blank_lower (title a)), <- (blank_lower (summary a)), Ht, Hs.
    by rewrite !blank_lower. }
  destruct (is_valid_news a), (is_valid_news b); try done.
  - by apply Hiff.
  - symmetry. by apply Hiff.
Qed.

Lemma is_valid_news_case_insensitive_witness :
  is_valid_news (Article "FAN VOTE opens" "l1" "Ballots" "")
  = is_valid_news (Article "fan vote opens" "l2" "BALLOTS" "Tue").
Proof. by apply is_valid_news_case_insensitive. Defined.

(** X6.  The line under a news title is left out exactly when the
    publication text is empty and the [try] block raised; in every other
    case a span is written. *)
Theorem date_line_empty_iff
    (to_datetime : string -> Py.result Timestamp) (New_York_utcoffset : Z -> Z)
    (pub : string) :
  date_line (pub_fmt to_datetime New_York_utcoffset pub) = ""
  <-> pub = "" /\ exists e, pub_fmt_try to_datetime New_York_utcoffset pub = Py.Raise e.
Proof.
  assert (forall s, date_line s = "" <-> s = "") as Hdl.
  { intros [|c s]; [done|]. simpl. split; [|done].
    intros H. by apply (append_nonempty _ (String c s +:+ "</span>")) in H. }
  rewrite Hdl. unfold pub_fmt, pub_fmt_try.
  destruct (to_datetime pub) as [t|e] eqn:Ht; cbn [Py.bind Py.try_except].
  - pose proof (pub_fmt_convert_cases New_York_utcoffset t) as Hc.
    destruct t as [|wall|u tz]; rewrite Hc; cbn [Py.try_except].
    + rewrite take_empty. naive_solver.
    + split; [|by intros [_ [e ?]]].
      intros H. by apply append_nonempty in H.
    + rewrite take_empty. naive_solver.
  - rewrite take_empty. naive_solver.
Qed.

(** ** More on the event logs *)

Section MoreLogFacts.

Lemma season_mask_in_season team_abbr r :
  Date r = Some (to_datetime_ymd (game_date (ev r))) ->
  season_mask team_abbr r = true <-> in_season team_abbr (ev r).
Proof.
  intros Hd. unfold season_mask, in_season. rewrite Hd. simpl.
  case_bool_decide as Hteam.
  - rewrite orb_false_r, !orb_true_iff, !Z.eqb_eq, Z.leb_le. tauto.
  - rewrite Z.leb_le. tauto.
Qed.

Lemma eq_str_true v s : eq_str v s = true <-> v = Some s.
Proof.
  destruct v as [x|]; simpl; [|done].
  rewrite bool_decide_eq_true. naive_solver.
Qed.

Lemma retained_events target team_abbr df :
  ev <$> retained target team_abbr df
  = filter (fun e => events e = Some target /\ in_season team_abbr e) (ev <$> df).
Proof.
  unfold retained, loc, dated.
  induction df as [|r df IH]; [done|]. csimpl.
  rewrite filter_cons.
  pose proof (season_mask_in_season team_abbr
                (set_Date (Some (to_datetime_ymd (game_date (ev r)))) r) eq_refl) as Hm.
  pose proof (eq_str_true (events (ev r)) target) as He.
  simpl in Hm.
  destruct (season_mask team_abbr _) eqn:Em; simpl.
  - destruct (eq_str (events (ev r)) target) eqn:Ee; csimpl.
    + rewrite decide_True by (split; [by apply He | by apply Hm]).
      by rewrite IH.
    + rewrite decide_False; [done|]. intros [H _]. apply He in H. done.
  - rewrite decide_False; [done|]. intros [_ H]. apply Hm in H. done.
Qed.

Lemma List_filter_filter {A} (p : A -> bool) (l : list A) :
  List.filter p l = filter (fun x => p x = true) l.
Proof.
  induction l as [|x l IH]; [done|]. simpl. rewrite filter_cons.
  destruct (p x); simpl; by rewrite IH.
Qed.

Lemma retained_perm target team_abbr df df' :
  df ≡ₚ df' -> retained target team_abbr df ≡ₚ retained target team_abbr df'.
Proof.
  intros Hp. unfold retained, loc, dated.
  rewrite !List_filter_filter. by rewrite Hp.
Qed.

Lemma NoDup_fmap_eq {A B} (f : A -> B) (l : list A) x y :
  NoDup (f <$> l) -> x ∈ l -> y ∈ l -> f x = f y -> x = y.
Proof.
  intros Hnd [i Hi]%list_elem_of_lookup [j Hj]%list_elem_of_lookup Heq.
  assert (i = j) as ->; [|congruence].
  eapply NoDup_lookup; [done | |].
  - by rewrite list_lookup_fmap, Hi.
  - rewrite list_lookup_fmap, Hj. simpl. by rewrite Heq.
Qed.

Variable argsort : list (option Z) -> list nat.
Hypothesis argsort_ok : argsort_spec argsort.

(** Two tables with the same rows and no two kept rows of one date are
    sorted into the same frame. *)
Lemma sort_values_perm_unique df df' :
  df ≡ₚ df' -> NoDup (Date <$> df) ->
  sort_values_Date argsort df = sort_values_Date argsort df'.
Proof.
  intros Hp Hnd.
  pose proof (sort_values_perm argsort argsort_ok df) as H1.
  pose proof (sort_values_perm argsort argsort_ok df') as H2.
  apply (StronglySorted_unique_strong (fun r1 r2 => date_le (Date r1) (Date r2))).
  - intros r1 r2 Hr1 Hr2 H12 H21. rewrite H1 in Hr1. rewrite H2, <- Hp in Hr2.
    eapply NoDup_fmap_eq; [done..|]. by apply date_le_antisym.
  - apply Sorted_StronglySorted.
    + intros x y z. apply date_le_trans.
    + apply (Sorted_fmap_inv Date date_le), sort_values_sorted, argsort_ok.
  - apply Sorted_StronglySorted.
    + intros x y z. apply date_le_trans.
    + apply (Sorted_fmap_inv Date date_le), sort_values_sorted, argsort_ok.
  - by rewrite H1, H2.
Qed.

Lemma all_day_texts_checked : all_day_texts_ok = true.
Proof. vm_compute. reflexivity. Qed.

Lemma statcast_day_texts g :
  statcast_day g ->
  Cal.strftime_md (to_datetime_ymd g) = md_text g
  /\ Cal.strftime_ymd (to_datetime_ymd g) = iso_text g.
Proof.
  destruct g as [y m d]. intros (Hy & Hm & Hd). simpl in *.
  assert (forall a n k, a <= k < a + n -> In k (seqZ a n)) as Hin.
  { intros a n k Hk. apply list_elem_of_In, elem_of_seqZ. lia. }
  pose proof all_day_texts_checked as H. unfold all_day_texts_ok in H.
  pose proof (proj1 (forallb_forall _ _) H y (Hin 2015 26 y ltac:(lia))) as H1.
  pose proof (proj1 (forallb_forall _ _) H1 m (Hin 1 12 m ltac:(lia))) as H2.
  pose proof (proj1 (forallb_forall _ _) H2 d
                (Hin 1 (days_in_month y m) d ltac:(lia))) as H3.
  unfold day_texts_ok in H3. apply andb_true_iff in H3 as [Hmd Hiso].
  apply bool_decide_eq_true in Hmd. apply bool_decide_eq_true in Hiso.
  exact (conj Hmd Hiso).
Qed.

End MoreLogFacts.

Lemma filter_nil_iff {A} (P : A -> Prop) `{forall x, Decision (P x)} (l : list A) :
  filter P l = [] <-> forall x, x ∈ l -> ~ P x.
Proof.
  induction l as [|x l IH]; [by split; [intros _ y ?%elem_of_nil|]|].
  rewrite filter_cons. case_decide as Hx.
  - split; [done|]. intros Hall. exfalso. eapply Hall; [by left | done].
  - rewrite IH. split.
    + intros Hall y [->|Hy]%elem_of_cons; by auto.
    + intros Hall y Hy. apply Hall. by right.
Qed.

(** X7.  A log holds exactly the events of the table that have the target
    type and lie in the season window (on or after 2025-03-27, or, for LAD
    and CHC only, on 2025-03-18 or 2025-03-19), each as often as the table
    has it; events of another type, events without a type and events
    outside the window never appear.  The log is empty exactly when the
    table has no such event. *)
Theorem log_events_exact
    (argsort : list (option Z) -> list nat)
    (playerid_reverse_lookup : mlbam_id -> Py.result (list person))
    (df : DataFrame) (team_abbr : string) :
  argsort_spec argsort ->
  let wanted := fun target (e : statcast) =>
    events e = Some target /\ in_season team_abbr e in
  let hr_out := hr_log argsort playerid_reverse_lookup df team_abbr in
  let k_out := k_log argsort playerid_reverse_lookup df team_abbr in
  ev <$> hr_out ≡ₚ filter (wanted "home_run") (ev <$> df)
  /\ ev <$> k_out ≡ₚ filter (wanted "strikeout") (ev <$> df)
  /\ (hr_out = [] <-> forall r, r ∈ df -> ~ wanted "home_run" (ev r))
  /\ (k_out = [] <-> forall r, r ∈ df -> ~ wanted "strikeout" (ev r)).
Proof.
  intros Hsort wanted hr_out k_out.
  assert (ev <$> hr_out ≡ₚ filter (wanted "home_run") (ev <$> df)) as Hhr.
  { unfold hr_out. rewrite hr_log_events by done. by rewrite retained_events. }
  assert (ev <$> k_out ≡ₚ filter (wanted "strikeout") (ev <$> df)) as Hk.
  { unfold k_out. rewrite k_log_events by done. by rewrite retained_events. }
  assert (forall target (out : list Row),
            ev <$> out ≡ₚ filter (wanted target) (ev <$> df) ->
            out = [] <-> forall r, r ∈ df -> ~ wanted target (ev r)) as Hempty.
  { intros target out Hp.
    assert (out = [] <-> filter (wanted target) (ev <$> df) = []) as ->.
    { split.
      - intros ->. by apply Permutation_nil in Hp.
      - intros Hnil. rewrite Hnil in Hp. symmetry in Hp.
        apply Permutation_nil in Hp. by apply fmap_nil_inv in Hp. }
    rewrite filter_nil_iff. split.
    - intros Hall r Hr. apply Hall, list_elem_of_fmap. eauto.
    - intros Hall e (r & -> & Hr)%list_elem_of_fmap. by apply Hall. }
  split_and!; [done | done | by apply Hempty | by apply Hempty].
Qed.

Lemma log_events_exact_witness :
  length (hr_log argsort_insertion lookup_sample sample_df "LAD") = 2%nat
  /\ hr_log argsort_insertion lookup_sample sample_df "NYY" ≠ []
  /\ k_log argsort_insertion lookup_sample sample_df "NYY" = [].
Proof.
  split_and!.
  - destruct (log_events_exact argsort_insertion lookup_sample sample_df "LAD"
                argsort_insertion_spec) as (H & _).
    rewrite <- (length_fmap ev), H. by vm_compute.
  - destruct (log_events_exact argsort_insertion lookup_sample sample_df "NYY"
                argsort_insertion_spec) as (_ & _ & H & _).
    intros Hnil. pose proof (proj1 H Hnil) as Hall.
    apply (Hall (raw_row (Ymd 2025 3 28) (Some "home_run") (Some (FloatId 684007))
                   (Some (IntId 660271)))).
    + apply list_elem_of_here.
    + split; [done|]. left. by vm_compute.
  - destruct (log_events_exact argsort_insertion lookup_sample sample_df "NYY"
                argsort_insertion_spec) as (_ & _ & _ & H).
    apply H. intros r Hr [He Hs].
    assert (Forall (fun r => events (ev r) = Some "strikeout" ->
                             ~ in_season "NYY" (ev r)) sample_df) as Hall.
    { repeat constructor; intros He' Hs'; vm_compute in He'; try discriminate He';
        (destruct Hs' as [Hs' | [Ht _]];
         [ apply Hs'; by vm_compute
         | apply list_elem_of_In in Ht; cbn in Ht;
           by destruct Ht as [Ht|[Ht|[]]] ]). }
    rewrite Forall_forall in Hall. by apply (Hall r Hr He).
Defined.

(** X8.  When no two kept events share a date, the log does not depend on
    the order of the table's rows: two tables with the same rows give the
    same log, row for row. *)
Theorem log_order_independent
    (argsort : list (option Z) -> list nat)
    (playerid_reverse_lookup : mlbam_id -> Py.result (list person))
    (df df' : DataFrame) (team_abbr : string) :
  argsort_spec argsort ->
  df ≡ₚ df' ->
  let days := fun target =>
    (fun e => to_datetime_ymd (game_date e))
      <$> filter (fun e => events e = Some target /\ in_season team_abbr e)
                 (ev <$> df) in
  (NoDup (days "home_run") ->
   hr_log argsort playerid_reverse_lookup df team_abbr
   = hr_log argsort playerid_reverse_lookup df' team_abbr)
  /\ (NoDup (days "strikeout") ->
      k_log argsort playerid_reverse_lookup df team_abbr
      = k_log argsort playerid_reverse_lookup df' team_abbr).
Proof.
  intros Hsort Hp days.
  assert (forall target,
            NoDup (days target) ->
            sort_values_Date argsort (retained target team_abbr df)
            = sort_values_Date argsort (retained target team_abbr df')) as Hsame.
  { intros target Hnd. apply sort_values_perm_unique; [done | by apply retained_perm |].
    rewrite (kept_dates target team_abbr) by apply retained_kept.
    apply (NoDup_fmap_2 Some).
    unfold days in Hnd. rewrite <- retained_events in Hnd.
    by rewrite <- list_fmap_compose in Hnd. }
  split; intros Hnd.
  - by rewrite !hr_log_eq, Hsame.
  - by rewrite !k_log_eq, Hsame.
Qed.

Lemma log_order_independent_witness :
  hr_log argsort_ties_reversed lookup_sample (reverse sample_df) "LAD"
  = hr_log argsort_ties_reversed lookup_sample sample_df "LAD".
Proof.
  destruct (log_order_independent argsort_ties_reversed lookup_sample
              (reverse sample_df) sample_df "LAD" argsort_ties_reversed_spec)
    as [H _].
  - apply reverse_Permutation.
  - apply H. vm_compute.
    repeat constructor; intros Hin;
      repeat (apply elem_of_cons in Hin as [Hin|Hin]; [discriminate|]);
      by apply elem_of_nil in Hin.
Defined.

(** X9.  In both logs the [MM-DD] column of a row is the month and the day
    of its [game_date], two digits each with a dash between, for every
    calendar day of the years 2015 to 2040. *)
Theorem log_short_date
    (argsort : list (option Z) -> list nat)
    (playerid_reverse_lookup : mlbam_id -> Py.result (list person))
    (df : DataFrame) (team_abbr : string) (r : Row) :
  argsort_spec argsort ->
  r ∈ hr_log argsort playerid_reverse_lookup df team_abbr
  \/ r ∈ k_log argsort playerid_reverse_lookup df team_abbr ->
  statcast_day (game_date (ev r)) ->
  MM_DD r = Some (md_text (game_date (ev r))).
Proof.
  intros Hsort Hin Hday.
  assert (Date r = Some (to_datetime_ymd (game_date (ev r)))
          /\ MM_DD r = Cal.strftime_md <$> Date r) as [Hd Hmd].
  { destruct Hin as [Hin|Hin].
    - split.
      + pose proof (hr_log_kept argsort playerid_reverse_lookup Hsort df team_abbr) as Hk.
        rewrite Forall_forall in Hk. by destruct (Hk _ Hin).
      + rewrite hr_log_eq in Hin. apply list_elem_of_lookup in Hin as [i Hi].
        rewrite list_lookup_imap in Hi.
        destruct (_ !! i) as [r'|]; [|done]. by injection Hi as <-.
    - split.
      + pose proof (k_log_kept argsort playerid_reverse_lookup Hsort df team_abbr) as Hk.
        rewrite Forall_forall in Hk. by destruct (Hk _ Hin).
      + rewrite k_log_eq in Hin. apply list_elem_of_lookup in Hin as [i Hi].
        rewrite list_lookup_imap in Hi.
        destruct (_ !! i) as [r'|]; [|done]. by injection Hi as <-. }
  rewrite Hmd, Hd. simpl. f_equal. by apply statcast_day_texts.
Qed.

Lemma log_short_date_witness :
  MM_DD <$> hr_log argsort_insertion lookup_sample sample_df "LAD"
  = [Some "03-19"; Some "03-28"]
  /\ forall r, r ∈ hr_log argsort_insertion lookup_sample sample_df "LAD" ->
       MM_DD r = Some (md_text (game_date (ev r))).
Proof.
  split; [by vm_compute|].
  intros r Hr.
  apply (log_short_date argsort_insertion lookup_sample sample_df "LAD" r
           argsort_insertion_spec (or_introl Hr)).
  vm_compute in Hr.
  repeat (apply elem_of_cons in Hr as [->|Hr]; [by vm_compute|]).
  by apply elem_of_nil in Hr.
Defined.

(** X10.  [fetch_hr_log] and [fetch_k_log] ask the provider for the start
    and end day written 'YYYY-MM-DD' and for the player id in decimal, and
    run the rest on the reply; this for every start and end that is a
    calendar day of the years 2015 to 2040 at midnight. *)
Theorem fetch_log_query
    (argsort : list (option Z) -> list nat)
    (playerid_reverse_lookup : mlbam_id -> Py.result (list person))
    (statcast_batter statcast_pitcher : string -> string -> string -> DataFrame)
    (pid : Z) (start_day end_day : ymd) (team_abbr : string) :
  statcast_day start_day -> statcast_day end_day ->
  fetch_hr_log argsort playerid_reverse_lookup statcast_batter pid
    (to_datetime_ymd start_day) (to_datetime_ymd end_day) team_abbr
  = hr_log argsort playerid_reverse_lookup
      (statcast_batter (iso_text start_day) (iso_text end_day) (pretty pid)) team_abbr
  /\ fetch_k_log argsort playerid_reverse_lookup statcast_pitcher pid
       (to_datetime_ymd start_day) (to_datetime_ymd end_day) team_abbr
     = k_log argsort playerid_reverse_lookup
         (statcast_pitcher (iso_text start_day) (iso_text end_day) (pretty pid))
         team_abbr.
Proof.
  intros [_ Hs]%statcast_day_texts [_ He]%statcast_day_texts.
  unfold fetch_hr_log, fetch_k_log. by rewrite Hs, He.
Qed.

Lemma fetch_log_query_witness :
  iso_text (Ymd 2025 3 18) = "2025-03-18"
  /\ fetch_hr_log argsort_insertion lookup_sample
       (fun start_dt end_dt player_id =>
          if bool_decide (start_dt = "2025-03-18" /\ end_dt = "2025-04-30"
                          /\ player_id = "660271")
          then sample_df else [])
       660271 TOKYO_START (Cal.datetime 2025 4 30) "LAD"
     = hr_log argsort_insertion lookup_sample sample_df "LAD".
Proof.
  split; [by vm_compute|].
  etrans.
  - apply (fetch_log_query argsort_insertion lookup_sample _ sample_provider
             660271 (Ymd 2025 3 18) (Ymd 2025 4 30) "LAD"); by vm_compute.
  - by vm_compute.
Defined.

(** * Teams, rosters and the sidebar *)

(** ** A loop that stores [v x] under [k x] for the elements that pass a test *)

Section FoldInsert.

Context {A V K : Type} `{Countable K}.
Variables (G : A -> Prop) (k : A -> K) (v : A -> V).
Context `{!forall x, Decision (G x)}.
Variable step : gmap K V -> A -> gmap K V.
Hypothesis step_eq :
  forall m x, step m x = if decide (G x) then <[k x := v x]> m else m.

(** What the loop leaves under a key: the value of the last element that
    passes the test and has this key, else what was there before. *)
Lemma foldl_insert_lookup (l : list A) (m0 : gmap K V) (key : K) :
  foldl step m0 l !! key =
    match last (filter (fun x => G x /\ k x = key) l) with
    | Some x => Some (v x)
    | None => m0 !! key
    end.
Proof.
  induction l as [|x l IH] using rev_ind; [done|].
  rewrite foldl_snoc, step_eq, filter_app.
  destruct (decide (G x)) as [HG|HG].
  - destruct (decide (k x = key)) as [<-|Hk].
    + rewrite (filter_cons_True _ x []) by done.
      rewrite filter_nil, last_snoc. apply lookup_insert_eq.
    + rewrite (filter_cons_False _ x []) by naive_solver.
      rewrite filter_nil, app_nil_r, lookup_insert_ne by done. apply IH.
  - rewrite (filter_cons_False _ x []) by naive_solver.
    rewrite filter_nil, app_nil_r. apply IH.
Qed.

End FoldInsert.

Section MoreTeamFacts.

Lemma last_filter_split {A} (P : A -> Prop) `{!forall x, Decision (P x)}
    (l : list A) (a : A) :
  last (filter P l) = Some a ->
  exists l1 l2, l = l1 ++ a :: l2 /\ P a /\ Forall (fun x => ~ P x) l2.
Proof.
  induction l as [|x l IH] using rev_ind; [done|].
  rewrite filter_app. destruct (decide (P x)) as [HP|HP].
  - rewrite (filter_cons_True _ x []) by done.
    rewrite filter_nil, last_snoc. intros [= ->].
    exists l, []. by split_and!.
  - rewrite (filter_cons_False _ x []) by done.
    rewrite filter_nil, app_nil_r. intros (l1 & l2 & -> & Ha & Hl2)%IH.
    exists l1, (l2 ++ [x]). split_and!; [by rewrite <- app_assoc|done|].
    apply Forall_app. split; [done|]. by constructor.
Qed.

Lemma last_filter_None {A} (P : A -> Prop) `{!forall x, Decision (P x)}
    (l : list A) :
  last (filter P l) = None <-> Forall (fun x => ~ P x) l.
Proof.
  rewrite last_None. split.
  - intros Hnil. apply Forall_forall. intros x Hx HP.
    assert (x ∈ filter P l) as Hin by (apply list_elem_of_filter; done).
    rewrite Hnil in Hin. by apply not_elem_of_nil in Hin.
  - intros Hall. destruct (filter P l) as [|x l'] eqn:E; [done|].
    assert (x ∈ filter P l) as [HP Hx]%list_elem_of_filter
      by (rewrite E; left).
    rewrite Forall_forall in Hall. by destruct (Hall x Hx).
Qed.

Lemma get_team_info_lookup (teams_raw : list team_raw) (a : string) :
  get_team_info teams_raw !! a =
    team_of_raw <$>
      last (filter (fun t => raw_active t = true /\ raw_abbreviation t = a)
              teams_raw).
Proof.
  unfold get_team_info.
  rewrite (foldl_insert_lookup (fun t => raw_active t = true)
             raw_abbreviation team_of_raw).
  - by destruct (last _).
  - intros m t. unfold team_info_step.
    destruct (raw_active t); by case_decide.
Qed.

Lemma lower_char_idem (c : ascii) :
  Str.lower_char (Str.lower_char c) = Str.lower_char c.
Proof. by destruct c as [[] [] [] [] [] [] [] []]; vm_compute. Qed.

Lemma lower_idem (s : string) : Str.lower (Str.lower s) = Str.lower s.
Proof. induction s as [|c s IH]; [done|]. cbn. by rewrite lower_char_idem, IH. Qed.

Lemma replace_char_length (old new : ascii) (s : string) :
  String.length (replace_char old new s) = String.length s.
Proof. induction s as [|c s IH]; [done|]. cbn. by rewrite IH. Qed.

Lemma lower_length (s : string) : String.length (Str.lower s) = String.length s.
Proof. induction s as [|c s IH]; [done|]. cbn. by rewrite IH. Qed.

Lemma replace_char_gone (old new : ascii) (s : string) :
  old <> new ->
  Str.contains (String old EmptyString) (replace_char old new s) = false.
Proof.
  intros Hne. induction s as [|c s IH]; [done|].
  cbn. rewrite IH, orb_false_r.
  destruct (ascii_dec c old) as [->|Hc].
  - destruct (ascii_dec old new); [done|]. by destruct (replace_char old new s).
  - destruct (ascii_dec old c); [by subst|]. by destruct (replace_char old new s).
Qed.

Lemma slug_of_lower (teamName : option string) :
  Str.lower (slug_of teamName) = slug_of teamName.
Proof.
  unfold slug_of. generalize (match teamName with Some s => s | None => "" end).
  intros s. induction s as [|c s IH]; [done|].
  cbn. rewrite IH. f_equal.
  destruct (ascii_dec (Str.lower_char c) " ") as [_|_];
    [done|apply lower_char_idem].
Qed.

End MoreTeamFacts.

Section MoreTeamListFacts.

Lemma omap_total {A B} (f : A -> option B) (g : A -> B) (l : list A) :
  Forall (fun x => f x = Some (g x)) l -> omap f l = g <$> l.
Proof.
  induction 1 as [|x l Hx _ IH]; [done|]. csimpl. by rewrite Hx, IH.
Qed.

Lemma team_abbrs_elem (team_info : gmap string team) (a : string) :
  a ∈ team_abbrs team_info <-> is_Some (team_info !! a).
Proof.
  unfold team_abbrs. rewrite merge_sort_Permutation, list_elem_of_fmap.
  split.
  - intros ([b t] & -> & Hin). apply elem_of_map_to_list in Hin. by exists t.
  - intros [t Ht]. exists (a, t). split; [done|]. by apply elem_of_map_to_list.
Qed.

Lemma team_abbrs_NoDup (team_info : gmap string team) :
  NoDup (team_abbrs team_info).
Proof.
  unfold team_abbrs. rewrite merge_sort_Permutation.
  apply NoDup_fst_map_to_list.
Qed.

Lemma team_abbrs_sorted (team_info : gmap string team) :
  StronglySorted String.le (team_abbrs team_info).
Proof. unfold team_abbrs. apply (StronglySorted_merge_sort _). Qed.

Lemma team_names_fmap (team_info : gmap string team) :
  team_names team_info =
    (fun a => from_option team_name "" (team_info !! a)) <$> team_abbrs team_info.
Proof.
  unfold team_names. apply omap_total, Forall_forall.
  intros a [t Ht]%team_abbrs_elem. by rewrite Ht.
Qed.

Lemma abbr_by_name_lookup (team_info : gmap string team) (n : string) :
  abbr_by_name team_info !! n =
    last (filter (fun a => is_Some (team_info !! a)
                           /\ from_option team_name "" (team_info !! a) = n)
            (team_abbrs team_info)).
Proof.
  unfold abbr_by_name.
  rewrite (foldl_insert_lookup (fun a => is_Some (team_info !! a))
             (fun a => from_option team_name "" (team_info !! a)) id).
  - by destruct (last _).
  - intros m a. unfold abbr_by_name_step.
    destruct (team_info !! a) as [t|] eqn:E; case_decide as Hd; try done.
    destruct Hd. by exists t.
Qed.

Lemma abbr_by_name_sound (team_info : gmap string team) (n a : string) :
  abbr_by_name team_info !! n = Some a ->
  exists t, team_info !! a = Some t /\ team_name t = n
    /\ forall b t', team_info !! b = Some t' -> team_name t' = n -> String.le b a.
Proof.
  rewrite abbr_by_name_lookup.
  intros (l1 & l2 & Hl & [[t Ht] Hn] & Hl2)%last_filter_split.
  rewrite Ht in Hn. exists t. split_and!; [done..|].
  intros b t' Hb Hn'.
  assert (b ∈ team_abbrs team_info) as Hin by (apply team_abbrs_elem; eauto).
  pose proof (team_abbrs_sorted team_info) as Hs.
  rewrite Hl in Hin, Hs.
  apply elem_of_app in Hin as [Hin|Hin].
  - eapply StronglySorted_app_1_elem_of; [done..|left].
  - apply elem_of_cons in Hin as [->|Hin]; [done|].
    rewrite Forall_forall in Hl2. destruct (Hl2 b Hin).
    rewrite Hb. split; [by eexists|done].
Qed.

Lemma abbr_by_name_complete (team_info : gmap string team) (a : string) (t : team) :
  team_info !! a = Some t -> is_Some (abbr_by_name team_info !! team_name t).
Proof.
  intros Ht. rewrite abbr_by_name_lookup.
  destruct (last _) eqn:E; [by eexists|].
  apply last_filter_None in E. rewrite Forall_forall in E.
  destruct (E a).
  - apply team_abbrs_elem. by exists t.
  - rewrite Ht. split; [by eexists|done].
Qed.

End MoreTeamListFacts.

(** X11. What [get_team_info] stores under an abbreviation: the record made
    from the last active team of the reply that carries it; an abbreviation
    is absent exactly when no active team carries it, so a team that is not
    active never gets an entry and never hides one. *)
Theorem team_info_entries (teams_raw : list team_raw) (a : string) :
  match get_team_info teams_raw !! a with
  | Some info =>
      exists l1 t l2,
        teams_raw = l1 ++ t :: l2
        /\ raw_active t = true /\ raw_abbreviation t = a
        /\ info = team_of_raw t
        /\ Forall (fun t' => ~ (raw_active t' = true /\ raw_abbreviation t' = a)) l2
  | None =>
      Forall (fun t => raw_active t = true -> raw_abbreviation t <> a) teams_raw
  end.
Proof.
  rewrite get_team_info_lookup.
  destruct (last _) as [t|] eqn:E; csimpl.
  - apply last_filter_split in E as (l1 & l2 & -> & [Hact Habbr] & Hl2).
    by exists l1, t, l2.
  - apply last_filter_None in E. eapply Forall_impl; [exact E|].
    naive_solver.
Qed.

(** X12. Every entry of [team_info] has a slug without a space and without
    an upper-case letter, as long as the team's short name, and a logo
    address made of the team's id. *)
Theorem team_info_slug_logo (teams_raw : list team_raw) (a : string) (info : team) :
  get_team_info teams_raw !! a = Some info ->
  Str.contains " " (team_slug info) = false
  /\ Str.lower (team_slug info) = team_slug info
  /\ team_logo info =
       "https://www.mlbstatic.com/team-logos/" +:+ pretty (team_id info) +:+ ".svg"
  /\ exists t, t ∈ teams_raw
       /\ String.length (team_slug info)
          = String.length (default "" (raw_teamName t))
       /\ team_name info = raw_name t
       /\ team_division info = raw_division_name t.
Proof.
  rewrite get_team_info_lookup.
  destruct (last _) as [t|] eqn:E; [|done]. intros [= <-].
  apply last_Some_elem_of, list_elem_of_filter in E as [_ Hin].
  split_and!.
  - by apply replace_char_gone.
  - apply slug_of_lower.
  - done.
  - exists t. split_and!; [done| |done..].
    cbn. unfold slug_of. rewrite replace_char_length, lower_length.
    by destruct (raw_teamName t).
Qed.

Lemma team_info_slug_logo_witness :
  team_slug <$> get_team_info sample_teams !! "BOS" = Some "red-sox"
  /\ Str.contains " " "red-sox" = false.
Proof.
  split; [by vm_compute|].
  refine (proj1 (team_info_slug_logo sample_teams "BOS"
                   (team_of_raw (TeamRaw true "BOS" 111 "Boston Red Sox"
                                   (Some "Red Sox") "American League East")) _)).
  by vm_compute.
Defined.

(** X13. [team_abbrs] lists every key of [team_info] once, in ascending
    order, and [team_names] has the same length and holds at each position
    the name of the team at that position of [team_abbrs]. *)
Theorem team_lists_aligned (team_info : gmap string team) :
  Sorted String.le (team_abbrs team_info)
  /\ NoDup (team_abbrs team_info)
  /\ (forall a, a ∈ team_abbrs team_info <-> is_Some (team_info !! a))
  /\ length (team_names team_info) = length (team_abbrs team_info)
  /\ forall (i : nat) a,
       team_abbrs team_info !! i = Some a ->
       exists t, team_info !! a = Some t
                 /\ team_names team_info !! i = Some (team_name t).
Proof.
  split_and!.
  - apply StronglySorted_Sorted, team_abbrs_sorted.
  - apply team_abbrs_NoDup.
  - apply team_abbrs_elem.
  - by rewrite team_names_fmap, length_fmap.
  - intros i a Hi.
    destruct (proj1 (team_abbrs_elem team_info a)) as [t Ht];
      [by eapply list_elem_of_lookup_2|].
    exists t. split; [done|].
    by rewrite team_names_fmap, list_lookup_fmap, Hi; csimpl; rewrite Ht.
Qed.

(** X14. [abbr_by_name]: a name it knows leads to a team of that name in
    [team_info], the one with the greatest abbreviation when several teams
    share the name; every name offered in [team_names] is a key, so
    [abbr_by_name[team1_name]] cannot fail; and when names are distinct,
    the name of the team under [a] leads back to [a]. *)
Theorem abbr_by_name_round_trip (team_info : gmap string team) :
  (forall n a,
     abbr_by_name team_info !! n = Some a ->
     exists t, team_info !! a = Some t /\ team_name t = n
       /\ forall b t', team_info !! b = Some t' -> team_name t' = n -> String.le b a)
  /\ (forall n, n ∈ team_names team_info -> is_Some (abbr_by_name team_info !! n))
  /\ ((forall a b t t',
         team_info !! a = Some t -> team_info !! b = Some t' ->
         team_name t = team_name t' -> a = b) ->
      forall a t,
        team_info !! a = Some t ->
        abbr_by_name team_info !! team_name t = Some a).
Proof.
  split_and!.
  - apply abbr_by_name_sound.
  - intros n. rewrite team_names_fmap, list_elem_of_fmap.
    intros (a & -> & [t Ht]%team_abbrs_elem). rewrite Ht. csimpl.
    by eapply abbr_by_name_complete.
  - intros Hinj a t Ht.
    destruct (abbr_by_name_complete team_info a t Ht) as [b Hb].
    rewrite Hb. f_equal.
    apply abbr_by_name_sound in Hb as (t' & Ht' & Hn & _).
    by eapply Hinj.
Qed.

Lemma abbr_by_name_round_trip_witness :
  abbr_by_name (get_team_info sample_teams) !! "Chicago Cubs" = Some "CHC".
Proof.
  refine (proj2 (proj2 (abbr_by_name_round_trip (get_team_info sample_teams)))
            _ "CHC"
            (team_of_raw (TeamRaw true "CHC" 112 "Chicago Cubs" (Some "Cubs")
                            "National League Central")) _);
    [|by vm_compute].
  intros a b t t' Ha Hb Hn.
  assert (forall c u, get_team_info sample_teams !! c = Some u ->
            (c = "LAD" /\ team_name u = "Los Angeles Dodgers")
            \/ (c = "BOS" /\ team_name u = "Boston Red Sox")
            \/ (c = "CHC" /\ team_name u = "Chicago Cubs")) as Hall.
  { intros c u. rewrite get_team_info_lookup. unfold sample_teams.
    rewrite !filter_cons, filter_nil. cbn [raw_active raw_abbreviation].
    repeat case_decide; cbn [last fmap option_fmap option_map];
      intros [= <-]; cbn [team_of_raw team_name raw_name]; naive_solver. }
  destruct (Hall a t Ha) as [[-> Et]|[[-> Et]|[-> Et]]];
    destruct (Hall b t' Hb) as [[-> Et']|[[-> Et']|[-> Et']]];
    try done; rewrite Et, Et' in Hn; by vm_compute in Hn.
Defined.

Section MoreRosterFacts.

Variable team_roster : Z -> list roster_player.

Lemma roster_loop (abbr : string) (roster : list roster_player)
    (acc : list player * list player) :
  foldl (roster_step abbr) acc roster =
    (acc.1 ++ omap (batter_of abbr) roster, acc.2 ++ omap (pitcher_of abbr) roster).
Proof.
  revert acc. induction roster as [|p roster IH]; intros [bs ps].
  - cbn. by rewrite !app_nil_r.
  - cbn [foldl]. rewrite IH. unfold roster_step, batter_of, pitcher_of. csimpl.
    destruct (named_player abbr p) as [x|], (is_pitcher p); cbn;
      by rewrite <- ?app_assoc.
Qed.

Lemma teams_loop (teams : list team_raw) (acc : list player * list player) :
  foldl
    (fun acc t => foldl (roster_step (raw_abbreviation t)) acc (team_roster (raw_id t)))
    acc teams =
    (acc.1 ++ (teams ≫= fun t =>
                 omap (batter_of (raw_abbreviation t)) (team_roster (raw_id t))),
     acc.2 ++ (teams ≫= fun t =>
                 omap (pitcher_of (raw_abbreviation t)) (team_roster (raw_id t)))).
Proof.
  revert acc. induction teams as [|t teams IH]; intros [bs ps].
  - cbn. by rewrite !app_nil_r.
  - cbn [foldl]. rewrite IH, roster_loop. cbn [fst snd].
    by rewrite !bind_cons, <- !app_assoc.
Qed.

Lemma build_rosters_eq (teams_raw : list team_raw) :
  build_rosters team_roster teams_raw =
    (List.filter raw_active teams_raw ≫= (fun t =>
       omap (batter_of (raw_abbreviation t)) (team_roster (raw_id t))),
     List.filter raw_active teams_raw ≫= (fun t =>
       omap (pitcher_of (raw_abbreviation t)) (team_roster (raw_id t)))).
Proof. unfold build_rosters. by rewrite teams_loop. Qed.

End MoreRosterFacts.

Lemma roster_split (abbr : string) (roster : list roster_player) :
  omap (batter_of abbr) roster ++ omap (pitcher_of abbr) roster
  ≡ₚ omap (named_player abbr) roster.
Proof.
  induction roster as [|p ps IHp]; [done|].
  unfold batter_of, pitcher_of in *. csimpl.
  destruct (is_pitcher p), (named_player abbr p) as [x|]; csimpl; try done.
  - rewrite <- Permutation_middle. by constructor.
  - by constructor.
Qed.

Lemma named_player_Some (abbr : string) (p : roster_player) (x : player) :
  named_player abbr p = Some x <->
    fullName p = Some (player_name x) /\ player_name x <> ""
    /\ person_id p = Some (player_pid x) /\ player_pid x <> 0
    /\ player_team x = abbr.
Proof.
  unfold named_player. destruct x as [n pid tm]. cbn.
  destruct (fullName p) as [[|c s]|], (person_id p) as [i|];
    try (split; [done|naive_solver]).
  destruct (Z.eqb_spec i 0) as [->|Hi].
  - split; [done|]. naive_solver.
  - split; [by intros [= <- <- <-]|]. by intros ([= <-] & _ & [= <-] & _ & <-).
Qed.

Lemma is_pitcher_true (p : roster_player) :
  is_pitcher p = true <-> position_abbreviation p = Some "P".
Proof.
  unfold is_pitcher. rewrite bool_decide_eq_true.
  destruct (position_abbreviation p); naive_solver.
Qed.

Lemma elem_of_List_filter_bool {A} (f : A -> bool) (l : list A) (x : A) :
  x ∈ List.filter f l <-> x ∈ l /\ f x = true.
Proof. by rewrite !list_elem_of_In, filter_In. Qed.

(** X15. [build_rosters] visits the active teams in the order of the reply
    and each roster in its order: [batters] is, team after team, the named
    entries whose position is not "P", [pitchers] the named entries whose
    position is "P"; and the two lists together have as many players as
    the active rosters have named entries. *)
Theorem build_rosters_closed_form (team_roster : Z -> list roster_player)
    (teams_raw : list team_raw) :
  let active_teams := List.filter raw_active teams_raw in
  let out := build_rosters team_roster teams_raw in
  out.1 = (active_teams ≫= fun t =>
             omap (batter_of (raw_abbreviation t)) (team_roster (raw_id t)))
  /\ out.2 = (active_teams ≫= fun t =>
                omap (pitcher_of (raw_abbreviation t)) (team_roster (raw_id t)))
  /\ out.1 ++ out.2 ≡ₚ
       (active_teams ≫= fun t =>
          omap (named_player (raw_abbreviation t)) (team_roster (raw_id t))).
Proof.
  cbn zeta. rewrite build_rosters_eq. cbn [fst snd]. split_and!; [done..|].
  induction (List.filter raw_active teams_raw) as [|t ts IH]; [done|].
  rewrite !bind_cons.
  rewrite <- IH, <- (roster_split (raw_abbreviation t)), <- !app_assoc.
  f_equiv. rewrite !app_assoc. f_equiv. apply Permutation_app_comm.
Qed.

(** X16. Who is in [pitchers] and who is in [batters]: a player is listed as
    a pitcher exactly when an active team's roster has an entry with this
    name (not empty), this id (not 0) and the position "P", and the player
    carries that team's abbreviation; as a batter, the same with any other
    position or none. A team that is not active contributes nobody. *)
Theorem build_rosters_members (team_roster : Z -> list roster_player)
    (teams_raw : list team_raw) (x : player) :
  let listed (is_p : bool) :=
    exists t p,
      t ∈ teams_raw /\ raw_active t = true
      /\ p ∈ team_roster (raw_id t)
      /\ fullName p = Some (player_name x) /\ player_name x <> ""
      /\ person_id p = Some (player_pid x) /\ player_pid x <> 0
      /\ player_team x = raw_abbreviation t
      /\ bool_decide (position_abbreviation p = Some "P") = is_p in
  (x ∈ (build_rosters team_roster teams_raw).2 <-> listed true)
  /\ (x ∈ (build_rosters team_roster teams_raw).1 <-> listed false).
Proof.
  cbn zeta. rewrite build_rosters_eq. cbn [fst snd].
  split; rewrite list_elem_of_bind; split.
  - intros (t & (p & Hp & Hx)%list_elem_of_omap & [Ht Hact]%elem_of_List_filter_bool).
    unfold pitcher_of in Hx. destruct (is_pitcher p) eqn:E; [|done].
    apply named_player_Some in Hx. apply is_pitcher_true in E.
    exists t, p. split_and!; try naive_solver. by apply bool_decide_eq_true.
  - intros (t & p & Ht & Hact & Hp & Hn & Hn' & Hi & Hi' & Htm & Hpos).
    apply bool_decide_eq_true in Hpos.
    exists t. split; [|by apply elem_of_List_filter_bool].
    apply list_elem_of_omap. exists p. split; [done|].
    unfold pitcher_of. rewrite (proj2 (is_pitcher_true p) Hpos).
    by apply named_player_Some.
  - intros (t & (p & Hp & Hx)%list_elem_of_omap & [Ht Hact]%elem_of_List_filter_bool).
    unfold batter_of in Hx. destruct (is_pitcher p) eqn:E; [done|].
    apply named_player_Some in Hx.
    exists t, p. split_and!; try naive_solver.
    apply bool_decide_eq_false. intros Hpos%is_pitcher_true. congruence.
  - intros (t & p & Ht & Hact & Hp & Hn & Hn' & Hi & Hi' & Htm & Hpos).
    apply bool_decide_eq_false in Hpos.
    exists t. split; [|by apply elem_of_List_filter_bool].
    apply list_elem_of_omap. exists p. split; [done|].
    unfold batter_of. destruct (is_pitcher p) eqn:E.
    + by apply is_pitcher_true in E.
    + by apply named_player_Some.
Qed.

Lemma name_map_lookup (players : list player) (n : string) :
  name_map players !! n =
    pid_team <$> last (filter (fun p => player_name p = n) players).
Proof.
  unfold name_map.
  rewrite (foldl_insert_lookup (fun _ => True) player_name pid_team).
  - rewrite (list_filter_iff _ (fun p => player_name p = n)) by naive_solver.
    by destruct (last _).
  - intros m p. by rewrite decide_True.
Qed.

Lemma name_map_is_Some (players : list player) (n : string) :
  is_Some (name_map players !! n) <-> n ∈ player_name <$> players.
Proof.
  rewrite name_map_lookup, fmap_is_Some, last_is_Some, list_elem_of_fmap.
  split.
  - intros Hne. destruct (filter _ players) as [|p l] eqn:E; [done|].
    assert (p ∈ filter (fun p => player_name p = n) players) as Hp
      by (rewrite E; left).
    apply list_elem_of_filter in Hp as [Hn Hp]. by exists p.
  - intros (p & -> & Hp) Hnil.
    assert (p ∈ filter (fun q => player_name q = player_name p) players) as Hin
      by (by apply list_elem_of_filter).
    rewrite Hnil in Hin. by apply elem_of_nil in Hin.
Qed.

Lemma name_map_cons_fresh (p : player) (players : list player) :
  player_name p ∉ (player_name <$> players) ->
  name_map (p :: players) = <[player_name p := pid_team p]> (name_map players).
Proof.
  intros Hfresh. apply map_eq. intros n.
  rewrite name_map_lookup, filter_cons.
  destruct (decide (player_name p = n)) as [<-|Hn].
  - rewrite lookup_insert_eq.
    destruct (filter _ players) as [|q l] eqn:E; [done|].
    assert (q ∈ filter (fun q => player_name q = player_name p) players) as Hq
      by (rewrite E; left).
    apply list_elem_of_filter in Hq as [Hn Hq]. destruct Hfresh.
    apply list_elem_of_fmap. by exists q.
  - by rewrite lookup_insert_ne, name_map_lookup.
Qed.

Lemma name_map_NoDup (players : list player) (p : player) :
  NoDup (player_name <$> players) -> p ∈ players ->
  name_map players !! player_name p = Some (pid_team p).
Proof.
  intros Hnd Hp. rewrite name_map_lookup.
  destruct (last _) as [q|] eqn:E.
  - apply last_Some_elem_of, list_elem_of_filter in E as [Hn Hq].
    csimpl. do 2 f_equal. by eapply NoDup_fmap_eq.
  - apply last_None in E.
    assert (p ∈ filter (fun q => player_name q = player_name p) players) as Hin
      by (by apply list_elem_of_filter).
    rewrite E in Hin. by apply elem_of_nil in Hin.
Qed.

Lemma team_players_elem (players : list player) (team_abbr n : string) :
  n ∈ team_players players team_abbr <->
    exists p, p ∈ players /\ player_name p = n /\ player_team p = team_abbr.
Proof.
  unfold team_players. rewrite list_elem_of_fmap. split.
  - intros (p & -> & [Hp Ht%bool_decide_eq_true]%elem_of_List_filter_bool).
    by exists p.
  - intros (p & Hp & <- & Ht). exists p. split; [done|].
    apply elem_of_List_filter_bool. split; [done|]. by apply bool_decide_eq_true.
Qed.

(** X17. [batter_map] and [pitcher_map] hold for a name the id and team of
    the last listed player with that name: the names of the list are the
    keys, a later namesake replaces an earlier one, and when no two listed
    players share a name every player is found under their own name. *)
Theorem name_map_last_wins (players : list player) (n : string) :
  name_map players !! n
    = pid_team <$> last (filter (fun p => player_name p = n) players)
  /\ (is_Some (name_map players !! n) <-> n ∈ player_name <$> players)
  /\ (forall l1 q l2,
        players = l1 ++ q :: l2 ->
        player_name q = n -> Forall (fun r => player_name r <> n) l2 ->
        name_map players !! n = Some (pid_team q))
  /\ (NoDup (player_name <$> players) ->
      forall p, p ∈ players -> player_name p = n ->
      name_map players !! n = Some (pid_team p)).
Proof.
  split_and!.
  - apply name_map_lookup.
  - apply name_map_is_Some.
  - intros l1 q l2 -> Hq Hl2.
    rewrite name_map_lookup, filter_app, filter_cons_True by done.
    assert (filter (fun p => player_name p = n) l2 = []) as ->.
    { apply filter_nil_iff. by apply Forall_forall. }
    by rewrite last_snoc.
  - intros Hnd p Hp <-. by apply name_map_NoDup.
Qed.

Lemma name_map_last_wins_witness :
  name_map [Player "Will Smith" 669257 "LAD"; Player "Will Smith" 571621 "CHC"]
    !! "Will Smith" = Some (571621, "CHC")
  /\ name_map [Player "Aaron Judge" 592450 "NYY"; Player "Juan Soto" 665742 "NYM"]
       !! "Aaron Judge" = Some (592450, "NYY").
Proof.
  split; [by vm_compute|].
  refine (proj2 (proj2 (proj2 (name_map_last_wins
            [Player "Aaron Judge" 592450 "NYY"; Player "Juan Soto" 665742 "NYM"]
            "Aaron Judge"))) _ (Player "Aaron Judge" 592450 "NYY") _ eq_refl).
  - repeat constructor; intros Hin; apply list_elem_of_In in Hin; cbn in Hin;
      intuition discriminate.
  - left.
Defined.

Lemma add_ohtani_cases (pitchers : list player) :
  (OTANI_NAME ∈ player_name <$> pitchers
   /\ add_ohtani (pitchers, name_map pitchers) = (pitchers, name_map pitchers))
  \/ ((OTANI_NAME ∉ player_name <$> pitchers)
      /\ add_ohtani (pitchers, name_map pitchers)
         = (Player OTANI_NAME OTANI_ID OTANI_TEAM :: pitchers,
            <[OTANI_NAME := (OTANI_ID, OTANI_TEAM)]> (name_map pitchers))
      /\ name_map (Player OTANI_NAME OTANI_ID OTANI_TEAM :: pitchers)
         = <[OTANI_NAME := (OTANI_ID, OTANI_TEAM)]> (name_map pitchers)).
Proof.
  unfold add_ohtani. cbn [fst snd].
  destruct (name_map pitchers !! OTANI_NAME) as [v|] eqn:E.
  - left. split; [|done]. apply name_map_is_Some. by exists v.
  - right.
    assert (OTANI_NAME ∉ (player_name <$> pitchers)) as Hfresh.
    { intros Hin%name_map_is_Some. rewrite E in Hin. by destruct Hin. }
    split_and!; [done..|].
    by rewrite (name_map_cons_fresh (Player OTANI_NAME OTANI_ID OTANI_TEAM)).
Qed.

Lemma add_ohtani_map (pitchers : list player) :
  (add_ohtani (pitchers, name_map pitchers)).2
  = name_map (add_ohtani (pitchers, name_map pitchers)).1.
Proof.
  destruct (add_ohtani_cases pitchers) as [[_ ->]|(_ & -> & Hmap)]; [done|].
  cbn [fst snd]. symmetry. exact Hmap.
Qed.

Lemma add_ohtani_has (pitchers : list player) :
  is_Some ((add_ohtani (pitchers, name_map pitchers)).2 !! OTANI_NAME).
Proof.
  destruct (add_ohtani_cases pitchers) as [[Hin ->]|(_ & -> & _)]; cbn [snd].
  - by apply name_map_is_Some.
  - by rewrite lookup_insert_eq.
Qed.

(** X18. After the Ohtani step [pitcher_map] is still the map built from
    [pitchers], it has the key "Shohei Ohtani", and every other name keeps
    its entry. When a pitcher of that name was listed nothing changes;
    otherwise (660271, "LAD") is stored and the player is put first.
    Running the step again changes nothing. *)
Theorem add_ohtani_invariant (pitchers : list player) :
  let st := add_ohtani (pitchers, name_map pitchers) in
  st.2 = name_map st.1
  /\ is_Some (st.2 !! OTANI_NAME)
  /\ add_ohtani st = st
  /\ (forall n, n <> OTANI_NAME -> st.2 !! n = name_map pitchers !! n)
  /\ (OTANI_NAME ∈ player_name <$> pitchers -> st = (pitchers, name_map pitchers))
  /\ (OTANI_NAME ∉ (player_name <$> pitchers) ->
      st.1 = Player OTANI_NAME OTANI_ID OTANI_TEAM :: pitchers
      /\ st.2 !! OTANI_NAME = Some (OTANI_ID, OTANI_TEAM)).
Proof.
  cbn zeta. split_and!.
  - apply add_ohtani_map.
  - apply add_ohtani_has.
  - pose proof (add_ohtani_has pitchers) as [v Hv].
    unfold add_ohtani at 1. by rewrite Hv.
  - intros n Hn.
    destruct (add_ohtani_cases pitchers) as [[_ ->]|(_ & -> & _)]; [done|].
    cbn [snd]. by rewrite lookup_insert_ne.
  - intros Hin.
    by destruct (add_ohtani_cases pitchers) as [[_ ->]|(Hnot & _)].
  - intros Hnot.
    destruct (add_ohtani_cases pitchers) as [[Hin _]|(_ & -> & _)]; [done|].
    cbn [fst snd]. by rewrite lookup_insert_eq.
Qed.

Lemma add_ohtani_invariant_witness :
  (add_ohtani ([Player "Shota Imanaga" 684007 "CHC"],
               name_map [Player "Shota Imanaga" 684007 "CHC"])).2
    !! OTANI_NAME = Some (660271, "LAD").
Proof.
  refine (proj2 (proj2 (proj2 (proj2 (proj2 (proj2
            (add_ohtani_invariant [Player "Shota Imanaga" 684007 "CHC"])))))
            _)).
  intros Hin. apply list_elem_of_In in Hin. cbn in Hin.
  by destruct Hin as [Hin|[]].
Defined.

(** X19. Every name offered in a player box is a key of the map the script
    reads afterwards, so [batter_map[player1_name]] and
    [pitcher_map[pitcher1_name]] cannot fail; "Shohei Ohtani" is always
    offered among the first team's pitchers when that team is LAD; and when
    no two listed players share a name, the team stored for an offered
    batter is the selected team. *)
Theorem offered_names_are_keys (batters pitchers : list player)
    (team_abbr n : string) :
  let st := add_ohtani (pitchers, name_map pitchers) in
  (n ∈ team_players batters team_abbr -> is_Some (name_map batters !! n))
  /\ (n ∈ team1_pitchers st.1 team_abbr -> is_Some (st.2 !! n))
  /\ (n ∈ team_players st.1 team_abbr -> is_Some (st.2 !! n))
  /\ OTANI_NAME ∈ team1_pitchers st.1 OTANI_TEAM
  /\ (NoDup (player_name <$> batters) ->
      n ∈ team_players batters team_abbr ->
      exists pid, name_map batters !! n = Some (pid, team_abbr)).
Proof.
  cbn zeta.
  pose proof (add_ohtani_map pitchers) as Hmap.
  pose proof (add_ohtani_has pitchers) as Hoht.
  assert (forall l t m, m ∈ team_players l t -> is_Some (name_map l !! m)) as Hkey.
  { intros l t m (p & Hp & <- & _)%team_players_elem.
    apply name_map_is_Some, list_elem_of_fmap. by exists p. }
  split_and!.
  - apply Hkey.
  - unfold team1_pitchers. rewrite Hmap in Hoht |- *.
    destruct (_ && _).
    + intros [->|Hin]%elem_of_cons; [done|]. by eapply Hkey.
    + apply Hkey.
  - rewrite Hmap. apply Hkey.
  - unfold team1_pitchers.
    destruct (bool_decide (OTANI_NAME ∉ _)) eqn:E.
    + rewrite bool_decide_eq_true_2 by done. left.
    + apply bool_decide_eq_false in E. cbn [andb].
      by destruct (decide (OTANI_NAME ∈ team_players
                (add_ohtani (pitchers, name_map pitchers)).1 OTANI_TEAM)).
  - intros Hnd (p & Hp & <- & <-)%team_players_elem.
    exists (player_pid p). by apply name_map_NoDup.
Qed.

Lemma offered_names_are_keys_witness :
  exists pid,
    name_map (build_rosters sample_roster sample_teams).1 !! "Seiya Suzuki"
    = Some (pid, "CHC").
Proof.
  refine (proj2 (proj2 (proj2 (proj2 (offered_names_are_keys
            (build_rosters sample_roster sample_teams).1 [] "CHC" "Seiya Suzuki"))))
            _ _).
  - vm_compute. repeat constructor; intros Hin; apply list_elem_of_In in Hin;
      cbn in Hin; intuition discriminate.
  - vm_compute. left.
Defined.

Lemma append_inj_r (s s' t : string) : s +:+ t = s' +:+ t -> s = s'.
Proof.
  revert s'. induction s as [|c s IH]; intros [|c' s'] Heq.
  - done.
  - apply (f_equal String.length) in Heq.
    rewrite !str_app_length in Heq. cbn [String.length] in Heq. lia.
  - apply (f_equal String.length) in Heq.
    rewrite !str_app_length in Heq. cbn [String.length] in Heq. lia.
  - injection Heq as -> Heq. f_equal. by apply IH.
Qed.

(** X20. The image address determines the player: two ids have the same
    address only when they are equal. *)
Theorem get_player_image_inj (pid pid' : Z) :
  get_player_image pid = get_player_image pid' <-> pid = pid'.
Proof.
  split; [|by intros ->].
  unfold get_player_image. intros Heq.
  do 2 apply (inj (String.app _)) in Heq.
  apply append_inj_r in Heq. by apply (inj pretty) in Heq.
Qed.

Lemma grid_rows_eq (entries : list string) :
  grid_rows entries =
    (fun k => take 6 (drop (k * 6) entries))
      <$> seq 0 ((length entries + 5) / 6).
Proof.
  unfold grid_rows, range_step, slice, col_count.
  rewrite <- list_fmap_compose.
  replace (length entries + 6 - 1)%nat with (length entries + 5)%nat by lia.
  apply list_fmap_ext. intros i k _. cbn.
  by replace (k * 6 + 6 - k * 6)%nat with 6%nat by lia.
Qed.

Lemma chunks_concat {A} (l : list A) (m : nat) :
  concat ((fun k => take 6 (drop (k * 6) l)) <$> seq 0 m) = take (m * 6) l.
Proof.
  induction m as [|m IH]; [done|].
  rewrite seq_S, fmap_app, concat_app, IH. cbn [fmap list_fmap concat].
  rewrite app_nil_r, take_take_drop. f_equal. lia.
Qed.

(** X21. The rows of a division table: laid end to end they give back the
    entries in order, there are ceil(n/6) of them, row [i] holds the
    entries from position [6*i] on, no row is empty or longer than six, and
    every row but the last has exactly six cells. *)
Theorem grid_rows_partition (entries : list string) :
  concat (grid_rows entries) = entries
  /\ length (grid_rows entries) = ((length entries + 5) / 6)%nat
  /\ forall (i : nat) row,
       grid_rows entries !! i = Some row ->
       row = take 6 (drop (6 * i) entries)
       /\ (1 <= length row <= 6)%nat
       /\ ((S i < length (grid_rows entries))%nat -> length row = 6%nat).
Proof.
  rewrite grid_rows_eq.
  pose proof (Nat.div_mod_eq (length entries + 5) 6) as Hdiv.
  pose proof (Nat.mod_upper_bound (length entries + 5) 6 ltac:(lia)) as Hmod.
  split_and!.
  - rewrite chunks_concat. apply take_ge. lia.
  - by rewrite length_fmap, length_seq.
  - intros i row Hrow. rewrite length_fmap, length_seq.
    apply list_lookup_fmap_Some in Hrow as (k & -> & [-> Hk]%lookup_seq).
    cbn [Nat.add]. replace (i * 6)%nat with (6 * i)%nat by lia.
    split; [done|].
    rewrite length_take, length_drop. lia.
Qed.

Lemma division_keys_eq :
  division_keys =
    [ ("American League", "East"); ("American League", "Central");
      ("American League", "West"); ("National League", "East");
      ("National League", "Central"); ("National League", "West") ].
Proof. reflexivity. Qed.

Lemma division_keys_NoDup : NoDup division_keys.
Proof.
  rewrite division_keys_eq.
  repeat constructor; intros Hin; apply list_elem_of_In in Hin; cbn in Hin;
    intuition discriminate.
Qed.

Lemma division_name_map_Some (d : string) (key : string * string) :
  division_name_map !! d = Some key <->
    key ∈ division_keys /\ d = key.1 +:+ " " +:+ key.2.
Proof.
  rewrite division_keys_eq. split.
  - intros H. apply elem_of_list_to_map_2 in H.
    repeat (apply elem_of_cons in H as [H|H];
            [injection H as -> ->; split;
               [apply list_elem_of_In; cbn; intuition | reflexivity]|]).
    by apply elem_of_nil in H.
  - intros [Hk ->]. apply list_elem_of_In in Hk. cbn [In] in Hk.
    repeat (destruct Hk as [<-|Hk]; [by vm_compute|]). done.
Qed.

Lemma division_map_init_lookup (key : string * string) :
  key ∈ division_keys -> division_map_init !! key = Some [].
Proof.
  rewrite division_keys_eq. intros Hk.
  apply list_elem_of_In in Hk. cbn [In] in Hk.
  repeat (destruct Hk as [<-|Hk]; [by vm_compute|]). done.
Qed.

Lemma division_entry_cases (team_info : gmap string team)
    (key k0 : string * string) (a : string) (info : team) :
  team_info !! a = Some info ->
  division_name_map !! team_division info = Some k0 ->
  key ∈ division_keys ->
  division_entry team_info key a
  = if decide (key = k0) then Some (team_link a info) else None.
Proof.
  intros Ea Ek Hkey. unfold division_entry. rewrite Ea. csimpl.
  pose proof (proj1 (division_name_map_Some _ _) Ek) as [Hk0 Hd].
  destruct (decide (key = k0)) as [->|Hne].
  - by rewrite decide_True.
  - rewrite decide_False; [done|]. intros Heq. apply Hne.
    assert (division_name_map !! team_division info = Some key) as Ek'
      by (by apply division_name_map_Some).
    congruence.
Qed.

Lemma division_loop_spec (team_info : gmap string team) (abbrs : list string)
    (dm0 : gmap (string * string) (list string)) :
  match division_loop team_info abbrs dm0 with
  | Py.Ok dm =>
      Forall (fun a => exists info,
                team_info !! a = Some info
                /\ is_Some (division_name_map !! team_division info)) abbrs
      /\ forall key, key ∈ division_keys ->
           dm !! key
           = (fun l0 => l0 ++ omap (division_entry team_info key) abbrs)
               <$> dm0 !! key
  | Py.Raise e =>
      e = Py.KeyError
      /\ Exists (fun a => match team_info !! a with
                          | Some info =>
                              division_name_map !! team_division info = None
                          | None => True
                          end) abbrs
  end.
Proof.
  revert dm0. induction abbrs as [|a rest IH]; intros dm0.
  - cbn. split; [done|]. intros key _.
    destruct (dm0 !! key); csimpl; by rewrite ?app_nil_r.
  - cbn [division_loop].
    destruct (team_info !! a) as [info|] eqn:Ea;
      [|split; [done|left; by rewrite Ea]].
    destruct (division_name_map !! team_division info) as [k0|] eqn:Ek;
      [|split; [done|left; by rewrite Ea]].
    specialize (IH (alter (fun entries => entries ++ [team_link a info]) k0 dm0)).
    destruct (division_loop team_info rest _) as [dm|e].
    + destruct IH as [Hall Hlook]. split.
      * constructor; [|done]. exists info. split; [done|]. rewrite Ek. by eexists.
      * intros key Hkey. rewrite Hlook by done. csimpl.
        rewrite (division_entry_cases team_info key k0 a info) by done.
        destruct (decide (key = k0)) as [->|Hne].
        -- rewrite lookup_alter_eq. destruct (dm0 !! k0); csimpl; [|done].
           by rewrite <- app_assoc.
        -- by rewrite lookup_alter_ne.
    + destruct IH as [-> Hex]. split; [done|]. by right.
Qed.

Lemma bind_insert_one {A B} `{EqDecision A} (keys : list A) (k0 : A) (x : B)
    (F : A -> list B) :
  NoDup keys -> k0 ∈ keys ->
  keys ≫= (fun k => (if decide (k = k0) then [x] else []) ++ F k)
  ≡ₚ x :: keys ≫= F.
Proof.
  induction keys as [|k ks IH]; intros Hnd Hin; [by apply elem_of_nil in Hin|].
  apply NoDup_cons in Hnd as [Hk Hnd]. rewrite !bind_cons.
  destruct (decide (k = k0)) as [->|Hne].
  - cbn [app]. do 2 f_equiv.
    rewrite (Forall_bind_ext _ F); [done|].
    apply Forall_forall. intros k Hks. rewrite decide_False; [done|].
    by intros ->.
  - apply elem_of_cons in Hin as [->|Hin]; [done|].
    rewrite IH by done. cbn [app]. by rewrite <- Permutation_middle.
Qed.

Lemma links_partition (team_info : gmap string team) (abbrs : list string) :
  Forall (fun a => forall info,
            team_info !! a = Some info ->
            is_Some (division_name_map !! team_division info)) abbrs ->
  division_keys ≫= (fun key => omap (division_entry team_info key) abbrs)
  ≡ₚ omap (fun a => team_link a <$> team_info !! a) abbrs.
Proof.
  induction 1 as [|a rest Ha _ IH].
  - by rewrite division_keys_eq.
  - destruct (team_info !! a) as [info|] eqn:Ea.
    + destruct (Ha info eq_refl) as [k0 Ek].
      pose proof (proj1 (division_name_map_Some _ _) Ek) as [Hk0 _].
      transitivity
        (division_keys ≫= fun key =>
           (if decide (key = k0) then [team_link a info] else [])
           ++ omap (division_entry team_info key) rest).
      * apply (reflexive_eq (R := (≡ₚ))), Forall_bind_ext, Forall_forall.
        intros key Hkey. cbn [omap list_omap].
        rewrite (division_entry_cases team_info key k0 a info) by done.
        by destruct (decide (key = k0)).
      * rewrite bind_insert_one by (done || apply division_keys_NoDup).
        cbn [omap list_omap]. rewrite Ea. cbn [fmap option_fmap option_map].
        by constructor.
    + cbn [omap list_omap]. rewrite Ea. cbn [fmap option_fmap option_map].
      rewrite <- IH.
      apply (reflexive_eq (R := (≡ₚ))), Forall_bind_ext, Forall_forall.
      intros key _. unfold division_entry at 1. by rewrite Ea.
Qed.

Lemma blocks_concat (F : string * string -> list string)
    (keys : list (string * string)) :
  concat ((keys ≫= fun key =>
             match F key with
             | [] => []
             | e :: es => [(key.1, key.2, e :: es)]
             end).*2)
  = keys ≫= F.
Proof.
  induction keys as [|k ks IH]; [done|].
  rewrite !bind_cons, fmap_app, concat_app, IH. f_equal.
  destruct (F k); [done|]. cbn. by rewrite app_nil_r.
Qed.

Lemma rendered_blocks_eq (dm : gmap (string * string) (list string)) :
  rendered_blocks dm =
    division_keys ≫= fun key =>
      match dm !! key with
      | Some (e :: entries) => [(key.1, key.2, e :: entries)]
      | _ => []
      end.
Proof.
  rewrite division_keys_eq. unfold rendered_blocks, leagues, divisions.
  rewrite !bind_cons. cbn [mbind list_bind app fst snd].
  by rewrite <- !app_assoc.
Qed.

(** X22. The loop that fills [division_map] ends normally exactly when
    every team's division text is one of the six "<league> <division>"
    names, and then holds under each (league, division) the links of the
    teams of that division in the order of [team_abbrs]; otherwise it
    stops with KeyError at [division_name_map[div_full]], for a team whose
    division text is none of the six. *)
Theorem fill_division_map_result (team_info : gmap string team) :
  match fill_division_map team_info with
  | Py.Ok dm =>
      (forall a info,
         team_info !! a = Some info ->
         exists key, key ∈ division_keys
                     /\ team_division info = key.1 +:+ " " +:+ key.2)
      /\ forall key, key ∈ division_keys ->
           dm !! key = Some (division_links team_info key)
  | Py.Raise e =>
      e = Py.KeyError
      /\ exists a info,
           team_info !! a = Some info
           /\ forall key, key ∈ division_keys ->
                team_division info <> key.1 +:+ " " +:+ key.2
  end.
Proof.
  unfold fill_division_map.
  pose proof (division_loop_spec team_info (team_abbrs team_info)
                division_map_init) as Hspec.
  destruct (division_loop _ _ _) as [dm|e].
  - destruct Hspec as [Hall Hlook]. split.
    + intros a info Ha. rewrite Forall_forall in Hall.
      destruct (Hall a) as (info' & Ha' & [key Hkey]).
      { apply team_abbrs_elem. by eexists. }
      assert (info' = info) as -> by congruence.
      exists key. by apply division_name_map_Some.
    + intros key Hkey.
      by rewrite Hlook, division_map_init_lookup by done.
  - destruct Hspec as [-> Hex]. split; [done|].
    apply Exists_exists in Hex as (a & [info Ha]%team_abbrs_elem & Hbad).
    rewrite Ha in Hbad. exists a, info. split; [done|].
    intros key Hkey Heq.
    assert (division_name_map !! team_division info = Some key) as Ek
      by (by apply division_name_map_Some).
    congruence.
Qed.

(** X23. When the loop has filled [division_map], the blocks the sidebar
    renders are the six (league, division) pairs in the fixed order with
    the pairs without a team left out; no rendered block is empty; and
    the links of all blocks together are the links of all teams, each team
    once. *)
Theorem rendered_blocks_cover (team_info : gmap string team) :
  match fill_division_map team_info with
  | Py.Ok dm =>
      rendered_blocks dm
        = (division_keys ≫= fun key =>
             match division_links team_info key with
             | [] => []
             | e :: es => [(key.1, key.2, e :: es)]
             end)
      /\ Forall (fun b => b.2 <> []) (rendered_blocks dm)
      /\ concat ((rendered_blocks dm).*2)
         ≡ₚ omap (fun a => team_link a <$> team_info !! a) (team_abbrs team_info)
  | Py.Raise _ => True
  end.
Proof.
  unfold fill_division_map.
  pose proof (division_loop_spec team_info (team_abbrs team_info)
                division_map_init) as Hspec.
  destruct (division_loop _ _ _) as [dm|e]; [|done].
  destruct Hspec as [Hall Hlook].
  assert (rendered_blocks dm
          = (division_keys ≫= fun key =>
               match division_links team_info key with
               | [] => []
               | e :: es => [(key.1, key.2, e :: es)]
               end)) as Heq.
  { rewrite rendered_blocks_eq. apply Forall_bind_ext, Forall_forall.
    intros key Hkey.
    by rewrite Hlook, division_map_init_lookup by done. }
  split_and!.
  - done.
  - rewrite Heq. apply Forall_forall. intros b Hb.
    apply list_elem_of_bind in Hb as (key & Hb & _).
    destruct (division_links team_info key); [by apply elem_of_nil in Hb|].
    apply list_elem_of_singleton in Hb as ->. done.
  - rewrite Heq, blocks_concat. apply links_partition.
    eapply Forall_impl; [exact Hall|].
    intros a (info & Ha & Hsome) info' Ha'. congruence.
Qed.
